(** * port_scanner.c: the job queue, the worker loop and the output sink

    A shallow embedding of [src/port_scanner.c].  The queue operation
    [get_next_port] is embedded as a function on the [JobQueue] record; the
    worker threads are embedded as a small-step machine whose program
    counters are the statements of [worker] and [get_next_port], run under
    an arbitrary schedule, with the two pthread mutexes ([q->lock] and
    [print_lock]) as explicit state. *)

From Stdlib Require Import Ascii.
From stdpp Require Import base numbers list strings pretty.

Open Scope Z_scope.

Set Warnings "-clear-no-such-hyp".

(** ** C [int] arithmetic *)

Definition INT_MAX : Z := 2147483647.
Definition INT_MIN : Z := -2147483648.

(** Two's-complement wrap-around of a 32-bit [int]. *)
Definition wrap_int (z : Z) : Z := (z + 2147483648) `mod` 4294967296 - 2147483648.

(** ** The job queue (lines 47-52) *)

Record JobQueue := mkJobQueue {
  ports : list Z;   (* int *ports *)
  size : Z;         (* int size *)
  index : Z         (* int index *)
}.

Definition set_index (i : Z) (q : JobQueue) : JobQueue :=
  {| ports := ports q; size := size q; index := i |}.

(** [main], lines 127-142: [q.size = end - start + 1], [q.index = 0] and
    [q.ports[i] = start + i] for [0 <= i < q.size] (the allocation is taken
    to succeed). *)
Definition init_queue (start end_ : Z) : JobQueue :=
  let sz := wrap_int (end_ - start + 1) in
  {| ports := (λ i : nat, wrap_int (start + Z.of_nat i)) <$> seq 0 (Z.to_nat sz);
     size := sz;
     index := 0 |}.

(** [q->ports[i]]: [None] stands for an access outside the array. *)
Definition read_port (q : JobQueue) (i : Z) : option Z :=
  if bool_decide (0 ≤ i) then ports q !! Z.to_nat i else None.

(** [get_next_port], lines 312-323, as one atomic operation (its body runs
    with [q->lock] held).  [None] is an out-of-bounds array access. *)
Definition get_next_port (q : JobQueue) : option (Z * JobQueue) :=
  if bool_decide (size q ≤ index q) then Some (-1, q)
  else
    match read_port q (index q) with
    | Some port => Some (port, set_index (wrap_int (index q + 1)) q)
    | None => None
    end.

(** A sequence of calls, one per caller of the list, in the order in which
    the callers obtain [q->lock]; each caller is paired with what it got. *)
Fixpoint calls (callers : list nat) (q : JobQueue) : option (list (nat * Z) * JobQueue) :=
  match callers with
  | [] => Some ([], q)
  | t :: rest =>
      match get_next_port q with
      | Some (r, q') =>
          match calls rest q' with
          | Some (rs, q'') => Some ((t, r) :: rs, q'')
          | None => None
          end
      | None => None
      end
  end.

(** ** [service_name], lines 208-227 *)

Definition service_name (port : Z) : string :=
  match port with
  | 20 | 21 => "FTP"
  | 22 => "SSH"
  | 23 => "Telnet"
  | 25 => "SMTP"
  | 53 => "DNS"
  | 80 => "HTTP"
  | 110 => "POP3"
  | 139 => "NetBIOS"
  | 143 => "IMAP"
  | 389 => "LDAP"
  | 443 => "HTTPS"
  | 445 => "SMB"
  | 3306 => "MySQL"
  | 3389 => "RDP"
  | _ => ""
  end.

(** ** Output formatting (the [printf]/[fprintf] calls of lines 266-299) *)

Definition ESC : string := String (ascii_of_nat 27) "".
Definition NL : string := String (ascii_of_nat 10) "".
Definition COLOR_GREEN : string := ESC +:+ "[32m".
Definition COLOR_RESET : string := ESC +:+ "[0m".

Definition NUL : ascii := ascii_of_nat 0.

(** What [%s] prints for a [char] buffer: the bytes before the first NUL. *)
Fixpoint c_str (buf : list ascii) : string :=
  match buf with
  | [] => ""
  | a :: rest => if bool_decide (a = NUL) then "" else String a (c_str rest)
  end.

(** [svc[0] != '\0'] *)
Definition nonempty (s : string) : bool :=
  match s with
  | EmptyString => false
  | String _ _ => true
  end.

(** The [printf] of lines 266-299, by branch. *)
Definition console_line (thread_id port n : Z) (banner : list ascii) (svc : string) : string :=
  if bool_decide (0 < n) then
    if nonempty svc then
      COLOR_GREEN +:+ "[Thread " +:+ pretty thread_id +:+ "] Port " +:+ pretty port +:+ " OPEN"
        +:+ COLOR_RESET +:+ " - banner: " +:+ c_str banner +:+ " (" +:+ svc +:+ ")" +:+ NL
    else
      COLOR_GREEN +:+ "[Thread " +:+ pretty thread_id +:+ "] Port " +:+ pretty port +:+ " OPEN"
        +:+ COLOR_RESET +:+ " - banner: " +:+ c_str banner +:+ NL
  else
    if nonempty svc then
      COLOR_GREEN +:+ "[Thread " +:+ pretty thread_id +:+ "] Port " +:+ pretty port +:+ " OPEN ("
        +:+ svc +:+ ")" +:+ COLOR_RESET +:+ NL
    else
      COLOR_GREEN +:+ "[Thread " +:+ pretty thread_id +:+ "] Port " +:+ pretty port +:+ " OPEN"
        +:+ COLOR_RESET +:+ NL.

(** The [fprintf(OUTPUT_FILE, ...)] of lines 266-299, by branch. *)
Definition file_line (thread_id port n : Z) (banner : list ascii) (svc : string) : string :=
  if bool_decide (0 < n) then
    if nonempty svc then
      "[Thread " +:+ pretty thread_id +:+ "] Port " +:+ pretty port +:+ " OPEN - banner: "
        +:+ c_str banner +:+ " (" +:+ svc +:+ ")" +:+ NL
    else
      "[Thread " +:+ pretty thread_id +:+ "] Port " +:+ pretty port +:+ " OPEN - banner: "
        +:+ c_str banner +:+ NL
  else
    if nonempty svc then
      "[Thread " +:+ pretty thread_id +:+ "] Port " +:+ pretty port +:+ " OPEN ("
        +:+ svc +:+ ")" +:+ NL
    else
      "[Thread " +:+ pretty thread_id +:+ "] Port " +:+ pretty port +:+ " OPEN" +:+ NL.

(** ** The scan configuration and its environment *)

(** What [main] leaves in the globals before the workers start, and how the
    operating system and the network answer the workers' calls. *)
Record config := mkConfig {
  start : Z;                                (* argv[2] *)
  end_ : Z;                                 (* argv[3] *)
  FULL_MODE : Z;                            (* line 41, lines 107-108 *)
  (** [connect] to a port: the value returned. *)
  connect_result : Z → Z;
  (** [recv] on a connected port: [None] when it fails or times out
      (SOCKET_ERROR), otherwise the bytes the peer delivers. *)
  recv_data : Z → option (list ascii);
  (** whether a [socket] call succeeds, from the number of sockets open
      at the call and the number of [socket] calls made before it. *)
  socket_ok : nat → nat → bool;
  (** the indeterminate contents of the uninitialised [banner] array. *)
  stack_junk : list ascii
}.

(** [main], lines 116-117. *)
Definition clamp_threads (num_threads : Z) : Z :=
  if bool_decide (num_threads < 1) then 1
  else if bool_decide (5000 < num_threads) then 5000
  else num_threads.

(** [char banner[512]] *)
Definition BANNER_SIZE : nat := 512.

Definition alloc_banner (c : config) : list ascii :=
  take BANNER_SIZE (stack_junk c ++ replicate BANNER_SIZE NUL).

(** [recv(s, buf, len, 0)]: the value returned and the buffer afterwards. *)
Definition recv (c : config) (port : Z) (buf : list ascii) (len : nat) : Z * list ascii :=
  match recv_data c port with
  | None => (-1, buf)
  | Some data =>
      let got := take len data in
      (Z.of_nat (length got), got ++ drop (length got) buf)
  end.

(** ** Threads *)

(** Program points of [worker] (lines 230-309), with the body of
    [get_next_port] (lines 312-323) inlined at its call. *)
Inductive pc :=
  | PGet          (* 237, 313: call get_next_port, pthread_mutex_lock(&q->lock) *)
  | PCheck        (* 315: if (q->index >= q->size) *)
  | PUnlockEmpty  (* 316-317, 238-239: unlock, return -1, break *)
  | PRead         (* 320: load q->index and q->ports[q->index] *)
  | PInc          (* 320: store q->index + 1 *)
  | PUnlock       (* 321-322, 238: unlock, return port, if (port == -1) break *)
  | PSocket       (* 241-252: socket(), if (s == INVALID_SOCKET) return NULL;
                     the two setsockopt calls only set the time after which
                     connect and recv give up, which is part of what the
                     environment answers *)
  | PConnect      (* 254-256: connect(), if (result == 0) *)
  | PRecv         (* 257-262: banner, n = 0, recv() in full mode, service_name *)
  | PLock         (* 264: pthread_mutex_lock(&print_lock) *)
  | PPrintf       (* 266-299: banner[n] = 0 and the printf of the branch *)
  | PFprintf      (* 266-299: the fprintf of the branch *)
  | PFlush        (* 301: fflush(OUTPUT_FILE) *)
  | PPUnlock      (* 302: pthread_mutex_unlock(&print_lock) *)
  | PClose        (* 305: closesocket(s) *)
  | PDone         (* 308, 248: return NULL *)
  | PFault.       (* what must not happen: a read or write outside an array, the
                     unlock of a mutex the thread does not hold, closesocket
                     of a handle that is not open *)

Global Instance pc_eq_dec : EqDecision pc.
Proof. solve_decision. Defined.

(** The locals of [worker] and of [get_next_port]. *)
Record thread := mkThread {
  at_pc : pc;
  port : Z;             (* int port *)
  i : Z;                (* the value of q->index loaded at line 320 *)
  s : nat;              (* SOCKET s *)
  result : Z;           (* int result *)
  n : Z;                (* int n *)
  banner : list ascii;  (* char banner[512] *)
  svc : string          (* const char *svc *)
}.

Definition goto (p : pc) (th : thread) : thread :=
  mkThread p (port th) (i th) (s th) (result th) (n th) (banner th) (svc th).
Definition set_port (v : Z) (th : thread) : thread :=
  mkThread (at_pc th) v (i th) (s th) (result th) (n th) (banner th) (svc th).
Definition set_i (v : Z) (th : thread) : thread :=
  mkThread (at_pc th) (port th) v (s th) (result th) (n th) (banner th) (svc th).
Definition set_s (v : nat) (th : thread) : thread :=
  mkThread (at_pc th) (port th) (i th) v (result th) (n th) (banner th) (svc th).
Definition set_result (v : Z) (th : thread) : thread :=
  mkThread (at_pc th) (port th) (i th) (s th) v (n th) (banner th) (svc th).
Definition set_n (v : Z) (th : thread) : thread :=
  mkThread (at_pc th) (port th) (i th) (s th) (result th) v (banner th) (svc th).
Definition set_banner (v : list ascii) (th : thread) : thread :=
  mkThread (at_pc th) (port th) (i th) (s th) (result th) (n th) v (svc th).
Definition set_svc (v : string) (th : thread) : thread :=
  mkThread (at_pc th) (port th) (i th) (s th) (result th) (n th) (banner th) v.

Definition new_thread : thread := mkThread PGet 0 0 0%nat 0 0 [] "".

(** ** Observable events *)

Inductive action :=
  | ADispense                 (* get_next_port hands the port out *)
  | ASocket (h : option nat)  (* socket(): the handle, or INVALID_SOCKET *)
  | AConnect (r : Z)          (* connect() returned r *)
  | ARecv (len : nat) (r : Z) (* recv() of at most len bytes returned r *)
  | ALock                     (* print_lock acquired *)
  | APrintf (line : string)
  | AFprintf (line : string)
  | AFlush
  | AUnlock                   (* print_lock released *)
  | AClose (h : nat).         (* closesocket(h) *)

(** An event: the thread that acts, the port it is working on, the action. *)
Record event := Ev { ev_tid : nat; ev_port : Z; ev_act : action }.

(** ** The shared state *)

Record state := mkState {
  q : JobQueue;
  q_lock : option nat;        (* q->lock and its holder *)
  print_lock : option nat;    (* print_lock and its holder *)
  threads : list thread;
  console : string;           (* what printf has written *)
  file_buf : string;          (* OUTPUT_FILE: written, not yet flushed *)
  file_disk : string;         (* OUTPUT_FILE: flushed to scan_results.txt *)
  open_socks : list nat;      (* the handles that are open *)
  sock_calls : nat;           (* socket() calls so far *)
  trace : list event          (* the events so far, latest first *)
}.

Definition set_q (v : JobQueue) (st : state) : state :=
  mkState v (q_lock st) (print_lock st) (threads st) (console st) (file_buf st)
    (file_disk st) (open_socks st) (sock_calls st) (trace st).
Definition set_q_lock (v : option nat) (st : state) : state :=
  mkState (q st) v (print_lock st) (threads st) (console st) (file_buf st)
    (file_disk st) (open_socks st) (sock_calls st) (trace st).
Definition set_print_lock (v : option nat) (st : state) : state :=
  mkState (q st) (q_lock st) v (threads st) (console st) (file_buf st)
    (file_disk st) (open_socks st) (sock_calls st) (trace st).
Definition set_thread (t : nat) (th : thread) (st : state) : state :=
  mkState (q st) (q_lock st) (print_lock st) (<[t := th]> (threads st)) (console st)
    (file_buf st) (file_disk st) (open_socks st) (sock_calls st) (trace st).
Definition set_console (v : string) (st : state) : state :=
  mkState (q st) (q_lock st) (print_lock st) (threads st) v (file_buf st)
    (file_disk st) (open_socks st) (sock_calls st) (trace st).
Definition set_file (buf disk : string) (st : state) : state :=
  mkState (q st) (q_lock st) (print_lock st) (threads st) (console st) buf
    disk (open_socks st) (sock_calls st) (trace st).
Definition set_socks (opened : list nat) (calls : nat) (st : state) : state :=
  mkState (q st) (q_lock st) (print_lock st) (threads st) (console st) (file_buf st)
    (file_disk st) opened calls (trace st).
Definition emit (e : event) (st : state) : state :=
  mkState (q st) (q_lock st) (print_lock st) (threads st) (console st) (file_buf st)
    (file_disk st) (open_socks st) (sock_calls st) (e :: trace st).

(** The state when the workers start (lines 127-183): the queue filled,
    both mutexes free, nothing written, and the clamped number of threads,
    each about to enter its loop. *)
Definition init (c : config) (num_threads : Z) : state :=
  {| q := init_queue (start c) (end_ c);
     q_lock := None;
     print_lock := None;
     threads := replicate (Z.to_nat (clamp_threads num_threads)) new_thread;
     console := "";
     file_buf := "";
     file_disk := "";
     open_socks := [];
     sock_calls := 0;
     trace := [] |}.

(** ** One step of one thread *)

(** [recv(s, banner, sizeof(banner) - 1, 0)] *)
Definition RECV_LEN : nat := 511.

(** Thread [t], with locals [th], executes the statement at its program
    point: its locals and the shared state afterwards.  A thread waiting
    for a mutex that is held, and a thread that has returned, change
    nothing. *)
Definition worker_step (c : config) (t : nat) (th : thread) (st : state) : thread * state :=
  match at_pc th with
  | PGet =>
      match q_lock st with
      | None => (goto PCheck th, set_q_lock (Some t) st)
      | Some _ => (th, st)
      end
  | PCheck =>
      if bool_decide (size (q st) ≤ index (q st))
      then (goto PUnlockEmpty th, st)
      else (goto PRead th, st)
  | PUnlockEmpty =>
      if bool_decide (q_lock st = Some t)
      then (goto PDone (set_port (-1) th), set_q_lock None st)
      else (goto PFault th, st)
  | PRead =>
      match read_port (q st) (index (q st)) with
      | Some p => (goto PInc (set_port p (set_i (index (q st)) th)), st)
      | None => (goto PFault th, st)
      end
  | PInc =>
      (goto PUnlock th,
       emit (Ev t (port th) ADispense) (set_q (set_index (wrap_int (i th + 1)) (q st)) st))
  | PUnlock =>
      if bool_decide (q_lock st = Some t)
      then (goto (if bool_decide (port th = -1) then PDone else PSocket) th,
            set_q_lock None st)
      else (goto PFault th, st)
  | PSocket =>
      if socket_ok c (length (open_socks st)) (sock_calls st)
      then
        let h := sock_calls st in
        (goto PConnect (set_s h th),
         emit (Ev t (port th) (ASocket (Some h)))
           (set_socks (h :: open_socks st) (S (sock_calls st)) st))
      else
        (goto PDone th,
         emit (Ev t (port th) (ASocket None))
           (set_socks (open_socks st) (S (sock_calls st)) st))
  | PConnect =>
      let r := connect_result c (port th) in
      (goto (if bool_decide (r = 0) then PRecv else PClose) (set_result r th),
       emit (Ev t (port th) (AConnect r)) st)
  | PRecv =>
      let th1 := set_n 0 (set_banner (alloc_banner c) th) in
      if bool_decide (FULL_MODE c = 0)
      then (goto PLock (set_svc (service_name (port th)) th1), st)
      else
        let r := recv c (port th) (banner th1) RECV_LEN in
        (goto PLock (set_svc (service_name (port th)) (set_n r.1 (set_banner r.2 th1))),
         emit (Ev t (port th) (ARecv RECV_LEN r.1)) st)
  | PLock =>
      match print_lock st with
      | None => (goto PPrintf th, emit (Ev t (port th) ALock) (set_print_lock (Some t) st))
      | Some _ => (th, st)
      end
  | PPrintf =>
      if bool_decide (0 < n th) then
        if bool_decide (Z.to_nat (n th) < length (banner th))%nat then
          let th1 := set_banner (<[Z.to_nat (n th) := NUL]> (banner th)) th in
          let line := console_line (Z.of_nat t) (port th) (n th) (banner th1) (svc th) in
          (goto PFprintf th1,
           emit (Ev t (port th) (APrintf line)) (set_console (console st +:+ line) st))
        else (goto PFault th, st)
      else
        let line := console_line (Z.of_nat t) (port th) (n th) (banner th) (svc th) in
        (goto PFprintf th,
         emit (Ev t (port th) (APrintf line)) (set_console (console st +:+ line) st))
  | PFprintf =>
      let line := file_line (Z.of_nat t) (port th) (n th) (banner th) (svc th) in
      (goto PFlush th,
       emit (Ev t (port th) (AFprintf line))
         (set_file (file_buf st +:+ line) (file_disk st) st))
  | PFlush =>
      (goto PPUnlock th,
       emit (Ev t (port th) AFlush) (set_file "" (file_disk st +:+ file_buf st) st))
  | PPUnlock =>
      if bool_decide (print_lock st = Some t)
      then (goto PClose th, emit (Ev t (port th) AUnlock) (set_print_lock None st))
      else (goto PFault th, st)
  | PClose =>
      if bool_decide (s th ∈ open_socks st)
      then (goto PGet th,
            emit (Ev t (port th) (AClose (s th)))
              (set_socks (filter (λ h, h ≠ s th) (open_socks st)) (sock_calls st) st))
      else (goto PFault th, st)
  | PDone => (th, st)
  | PFault => (th, st)
  end.

(** The scheduler lets thread [t] take one step; an index that names no
    thread changes nothing. *)
Definition step (c : config) (t : nat) (st : state) : state :=
  match threads st !! t with
  | None => st
  | Some th => let r := worker_step c t th st in set_thread t r.1 r.2
  end.

(** A schedule names, step by step, the thread that runs next. *)
Definition run (c : config) (sched : list nat) (st : state) : state :=
  foldl (λ st t, step c t st) st sched.

(** Every worker has returned ([pthread_join] succeeds on all of them). *)
Definition finished (st : state) : Prop :=
  Forall (λ th, at_pc th = PDone) (threads st).

(** The events of a trace that concern port [p], in the order in which
    they happened. *)
Definition events_on (p : Z) (tr : list event) : list event :=
  filter (λ e, ev_port e = p) (reverse tr).

(** The events in the order in which they happened. *)
Definition history (st : state) : list event := reverse (trace st).

Definition port_events (p : Z) (st : state) : list event := events_on p (trace st).

(** ** One probe, from the environment *)

(** Lines 257-260: [n] and the contents of [banner] after them. *)
Definition probe_recv (c : config) (p : Z) : Z * list ascii :=
  if bool_decide (FULL_MODE c = 0) then (0, alloc_banner c)
  else recv c p (alloc_banner c) RECV_LEN.

(** Line 267: [banner[n] = 0] in the branch [n > 0]. *)
Definition terminate (n : Z) (buf : list ascii) : list ascii :=
  if bool_decide (0 < n) then <[Z.to_nat n := NUL]> buf else buf.

Definition probe_banner (c : config) (p : Z) : list ascii :=
  terminate (probe_recv c p).1 (probe_recv c p).2.

(** The events of one iteration of the loop of [worker] (lines 236-306), run
    by thread [t] on port [p], in program order; [h] is what [socket]
    returned. *)
Definition probe_events (c : config) (t : nat) (p : Z) (h : option nat) : list event :=
  Ev t p ADispense ::
  if bool_decide (p = -1) then []
  else
    match h with
    | None => [Ev t p (ASocket None)]
    | Some h =>
        Ev t p (ASocket (Some h)) ::
        Ev t p (AConnect (connect_result c p)) ::
        (if bool_decide (connect_result c p = 0) then
           (if bool_decide (FULL_MODE c = 0) then []
            else [Ev t p (ARecv RECV_LEN (probe_recv c p).1)]) ++
           [Ev t p ALock;
            Ev t p (APrintf (console_line (Z.of_nat t) p (probe_recv c p).1
                               (probe_banner c p) (service_name p)));
            Ev t p (AFprintf (file_line (Z.of_nat t) p (probe_recv c p).1
                                (probe_banner c p) (service_name p)));
            Ev t p AFlush;
            Ev t p AUnlock]
         else []) ++
        [Ev t p (AClose h)]
    end.

(** How many of these events a thread has produced when it stands at a
    program point. *)
Definition emitted (c : config) (th : thread) : nat :=
  let r := if bool_decide (FULL_MODE c = 0) then 0%nat else 1%nat in
  (match at_pc th with
  | PUnlock | PSocket => 1
  | PConnect => 2
  | PRecv => 3
  | PLock => 3 + r
  | PPrintf => 4 + r
  | PFprintf => 5 + r
  | PFlush => 6 + r
  | PPUnlock => 7 + r
  | PClose => if bool_decide (connect_result c (port th) = 0%Z) then 8 + r else 3
  | _ => 0
  end)%nat.

(** ** Classification of program points *)

(** Between lock and unlock of [q->lock]. *)
Definition in_q_crit (p : pc) : bool :=
  match p with
  | PCheck | PUnlockEmpty | PRead | PInc | PUnlock => true
  | _ => false
  end.

(** Between lock and unlock of [print_lock]. *)
Definition in_p_crit (p : pc) : bool :=
  match p with
  | PPrintf | PFprintf | PFlush | PPUnlock => true
  | _ => false
  end.

(** The thread has taken a port from the queue and is not done with it. *)
Definition claimed (p : pc) : bool :=
  match p with
  | PUnlock | PSocket | PConnect | PRecv | PLock
  | PPrintf | PFprintf | PFlush | PPUnlock | PClose => true
  | _ => false
  end.

(** The thread owns an open socket in [s]. *)
Definition holds_socket (p : pc) : bool :=
  match p with
  | PConnect | PRecv | PLock | PPrintf | PFprintf | PFlush | PPUnlock | PClose => true
  | _ => false
  end.

(** The thread is inside the branch [result == 0] (lines 257-302). *)
Definition in_open (p : pc) : bool :=
  match p with
  | PRecv | PLock | PPrintf | PFprintf | PFlush | PPUnlock => true
  | _ => false
  end.

Definition is_dispense (e : event) : bool :=
  match ev_act e with
  | ADispense => true
  | _ => false
  end.

(** The ports a trace hands out, with the thread that got each, in the
    order in which they were handed out. *)
Definition dispensed_in (tr : list event) : list (nat * Z) :=
  (λ e, (ev_tid e, ev_port e)) <$> filter (λ e, is_dispense e) (reverse tr).

Definition dispensed (st : state) : list (nat * Z) := dispensed_in (trace st).

(** ** The output section (lines 264-302) *)

(** The events of the output section. *)
Definition is_sink (e : event) : bool :=
  match ev_act e with
  | ALock | APrintf _ | AFprintf _ | AFlush | AUnlock => true
  | _ => false
  end.

Definition sink_events (tr : list event) : list event :=
  filter (λ e, is_sink e) (reverse tr).

(** The line one run of the section prints for thread [t] and port [p]. *)
Definition console_text (c : config) (r : nat * Z) : string :=
  console_line (Z.of_nat r.1) r.2 (probe_recv c r.2).1 (probe_banner c r.2)
    (service_name r.2).

(** The line it appends to the log. *)
Definition file_text (c : config) (r : nat * Z) : string :=
  file_line (Z.of_nat r.1) r.2 (probe_recv c r.2).1 (probe_banner c r.2)
    (service_name r.2).

(** One run of the section, from lock to unlock. *)
Definition section_events (c : config) (r : nat * Z) : list event :=
  [Ev r.1 r.2 ALock;
   Ev r.1 r.2 (APrintf (console_text c r));
   Ev r.1 r.2 (AFprintf (file_text c r));
   Ev r.1 r.2 AFlush;
   Ev r.1 r.2 AUnlock].

(** Runs of the section, one after the other. *)
Definition sections (c : config) (recs : list (nat * Z)) : list event :=
  recs ≫= section_events c.

(** The text of whole records, one after the other. *)
Definition log_text (c : config) (recs : list (nat * Z)) : string :=
  foldr (λ r acc, file_text c r +:+ acc) "" recs.

Definition screen_text (c : config) (recs : list (nat * Z)) : string :=
  foldr (λ r acc, console_text c r +:+ acc) "" recs.

(** How far into the section a thread is. *)
Definition section_pos (p : pc) : nat :=
  match p with
  | PPrintf => 1
  | PFprintf => 2
  | PFlush => 3
  | PPUnlock => 4
  | _ => 0
  end.

(** ** Counting socket events *)

Global Instance action_eq_dec : EqDecision action.
Proof. solve_decision. Defined.

Global Instance event_eq_dec : EqDecision event.
Proof. solve_decision. Defined.

(** How often a trace opens the socket [h], and how often it closes it. *)
Definition opens (h : nat) (tr : list event) : nat :=
  length (filter (λ e, ev_act e = ASocket (Some h)) tr).

Definition closes (h : nat) (tr : list event) : nat :=
  length (filter (λ e, ev_act e = AClose h) tr).

(** ** Termination measure *)

(** Steps a thread still takes before it returns or comes back to the
    head of the loop. *)
Definition weight (p : pc) : nat :=
  match p with
  | PDone | PFault => 0
  | PUnlockEmpty | PInc => 1
  | PRead => 2
  | PCheck => 3
  | PGet => 4
  | PClose => 5
  | PPUnlock => 6
  | PFlush => 7
  | PFprintf => 8
  | PPrintf => 9
  | PLock => 10
  | PRecv => 11
  | PConnect => 12
  | PSocket => 13
  | PUnlock => 14
  end.

Definition measure (st : state) : nat :=
  sum_list_with (λ th, weight (at_pc th)) (threads st) +
  14 * Z.to_nat (size (q st) - index (q st)).

(** Thread [t] is not waiting and has not returned: its step moves it. *)
Definition enabled (c : config) (t : nat) (st : state) : Prop :=
  ∃ th, threads st !! t = Some th ∧ at_pc (worker_step c t th st).1 ≠ at_pc th.

(** ** Probe outcomes and what a run reports *)

(** The three ways an iteration of the loop ends once it has a socket. *)
Inductive Outcome :=
  | Closed
  | OpenNoData
  | OpenWithBanner (bytes : list ascii).

(** The tests of line 256 ([result == 0]) and line 266 ([n > 0]); with a
    banner, the bytes are [banner[0..n)]. *)
Definition classify (result n : Z) (banner : list ascii) : Outcome :=
  if bool_decide (result = 0) then
    if bool_decide (0 < n) then OpenWithBanner (take (Z.to_nat n) banner)
    else OpenNoData
  else Closed.

(** The outcome of the probe of port [p]. *)
Definition outcome (c : config) (p : Z) : Outcome :=
  classify (connect_result c p) (probe_recv c p).1 (probe_recv c p).2.

(** The line of the log for an open port, by outcome: the banner part is
    there with a banner, the service part with a service name. *)
Definition record_line (thread_id port : Z) (o : Outcome) (service : string) : string :=
  "[Thread " +:+ pretty thread_id +:+ "] Port " +:+ pretty port +:+ " OPEN" +:+
  (match o with
   | OpenWithBanner bytes => " - banner: " +:+ c_str bytes
   | _ => ""
   end) +:+
  (if nonempty service then " (" +:+ service +:+ ")" else "") +:+ NL.

(** The line of the log in the words of the specification, to compare
    with: [[Worker <id>] Port <port> OPEN [- banner: <escaped-bytes>]
    [(<service-name>)]]; [escape] is whatever escaping is meant. *)
Definition spec_log_line (escape : list ascii → string)
    (worker_id port : Z) (banner : option (list ascii)) (service : string) : string :=
  "[Worker " +:+ pretty worker_id +:+ "] Port " +:+ pretty port +:+ " OPEN" +:+
  (match banner with
   | Some bytes => " - banner: " +:+ escape bytes
   | None => ""
   end) +:+
  (if nonempty service then " (" +:+ service +:+ ")" else "").

Definition is_fprintf (e : event) : bool :=
  match ev_act e with
  | AFprintf _ => true
  | _ => false
  end.

(** The ports a run has written to the log. *)
Definition reported (st : state) : list Z :=
  ev_port <$> filter (λ e, is_fprintf e) (history st).

(** No [socket] call of the run has failed. *)
Definition no_socket_failure (st : state) : Prop :=
  Forall (λ e, ev_act e ≠ ASocket None) (trace st).

(** ** Concrete scans *)

(** Ports 79 to 82 in full mode; port 80 accepts and sends [hi] and a
    newline, the others refuse. *)
Definition demo : config :=
  {| start := 79; end_ := 82; FULL_MODE := 1;
     connect_result := λ p, if bool_decide (p = 80) then 0 else -1;
     recv_data := λ p, Some ["h"; "i"; "010"]%char;
     socket_ok := λ _ _, true;
     stack_junk := [] |}.

(** The same in fast mode. *)
Definition demo_fast : config :=
  {| start := 79; end_ := 82; FULL_MODE := 0;
     connect_result := connect_result demo;
     recv_data := recv_data demo;
     socket_ok := λ _ _, true;
     stack_junk := [] |}.

(** Ports 1 and 2, both open, in fast mode, on a system that lets the
    process have one socket at a time. *)
Definition one_socket : config :=
  {| start := 1; end_ := 2; FULL_MODE := 0;
     connect_result := λ _, 0;
     recv_data := λ _, None;
     socket_ok := λ opened _, bool_decide (opened < 1)%nat;
     stack_junk := [] |}.

(** Ports 1 to 3, all open, in fast mode; the first [socket] call fails,
    the later ones succeed. *)
Definition first_socket_fails : config :=
  {| start := 1; end_ := 3; FULL_MODE := 0;
     connect_result := λ _, 0;
     recv_data := λ _, None;
     socket_ok := λ _ calls, bool_decide (calls ≠ 0)%nat;
     stack_junk := [] |}.

(** [rounds] rounds in which each of [num_threads] threads gets one step. *)
Definition round_robin (num_threads rounds : nat) : list nat :=
  concat (replicate rounds (seq 0 num_threads)).

(** ** Well-formed queues *)

(** The cursor is within the array, and the array has [size] entries. *)
Record queue_wf (qu : JobQueue) : Prop := {
  wf_index : 0 ≤ index qu ≤ size qu;
  wf_size : size qu = Z.of_nat (length (ports qu));
  wf_max : size qu ≤ INT_MAX
}.

(** ** Counting the runs of the output section *)

Definition is_unlock (e : event) : bool :=
  match ev_act e with
  | AUnlock => true
  | _ => false
  end.

(** The number of unlocks of [print_lock] in a list of events. *)
Definition unlocks (l : list event) : nat := length (filter (λ e, is_unlock e) l).

(** A schedule for two threads: thread 0 takes a port and opens its
    socket, thread 1 takes the next port and calls [socket], thread 0 runs
    on to the end. *)
Definition starved_schedule : list nat :=
  replicate 6 0%nat ++ replicate 6 1%nat ++ replicate 60 0%nat.

(** ** Which threads can move *)

Global Instance enabled_dec c t st : Decision (enabled c t st).
Proof.
  unfold enabled. destruct (threads st !! t) as [th|] eqn:Ht.
  - destruct (decide (at_pc (worker_step c t th st).1 = at_pc th)) as [He|He].
    + right. intros (th' & Ht' & Hn). congruence.
    + left. by exists th.
  - right. by intros (th' & Ht' & _).
Defined.

(** The steps the threads still take on their way to the head of the loop
    or to their return. *)
Definition pc_sum (st : state) : nat :=
  sum_list_with (λ th, weight (at_pc th)) (threads st).

(** ** What a run has connected to *)

Definition is_connect (e : event) : bool :=
  match ev_act e with
  | AConnect _ => true
  | _ => false
  end.

(** The ports a run has called [connect] for. *)
Definition connected (st : state) : list Z :=
  ev_port <$> filter (λ e, is_connect e) (history st).

(** ** Variations of the environment *)

(** The same scan with other bytes in the uninitialised [banner] array. *)
Definition set_junk (junk : list ascii) (c : config) : config :=
  {| start := start c; end_ := end_ c; FULL_MODE := FULL_MODE c;
     connect_result := connect_result c; recv_data := recv_data c;
     socket_ok := socket_ok c; stack_junk := junk |}.

(** [htons(port)], line 244: [htons] takes a [u_short], so what reaches the
    network is the port number modulo 65536. *)
Definition sin_port (port : Z) : Z := port `mod` 65536.

(** A scan whose [connect] is answered by a target that sees the 16-bit
    port of line 244: [net] maps a TCP port to the value [connect] returns. *)
Definition on_network (net : Z → Z) (c : config) : config :=
  {| start := start c; end_ := end_ c; FULL_MODE := FULL_MODE c;
     connect_result := λ port, net (sin_port port);
     recv_data := recv_data c;
     socket_ok := socket_ok c; stack_junk := stack_junk c |}.

(** ** A queue with nothing to hand out *)

(** The state of a scan whose range is empty: nothing has happened, and
    every thread is on its way through its first call of [get_next_port] or
    has returned. *)
Record idle (st : state) : Prop := {
  idle_index : index (q st) = 0;
  idle_size : size (q st) ≤ 0;
  idle_trace : trace st = [];
  idle_console : console st = "";
  idle_disk : file_disk st = "";
  idle_buf : file_buf st = "";
  idle_socks : open_socks st = [];
  idle_calls : sock_calls st = 0%nat;
  idle_holder : ∀ t, q_lock st = Some t → (t < length (threads st))%nat;
  idle_threads : ∀ t th, threads st !! t = Some th →
    (at_pc th = PGet ∨ at_pc th = PCheck ∨ at_pc th = PUnlockEmpty ∨ at_pc th = PDone) ∧
    (in_q_crit (at_pc th) ↔ q_lock st = Some t)
}.

(** ** The table of [service_name] *)

(** The [case] labels of lines 210-224. *)
Definition known_ports : list Z :=
  [20; 21; 22; 23; 25; 53; 80; 110; 139; 143; 389; 443; 445; 3306; 3389].

(** ** [main] up to the start of the workers (lines 65-183) *)

(** What the C library and the operating system answer to [main]. *)
Record host := mkHost {
  WSAStartup_ok : bool;            (* line 69: WSAStartup returns 0 *)
  inet_pton_ok : string → bool;    (* line 83: inet_pton returns 1 *)
  atoi : string → Z;               (* the C library's atoi, an int *)
  malloc_ports_ok : Z → bool;      (* line 130, from q.size *)
  fopen_ok : bool;                 (* line 145 *)
  malloc_threads_ok : Z → bool;    (* line 156, from num_threads *)
  malloc_args_ok : nat → bool      (* line 168, from i *)
}.

(** How [main] ends its set-up. *)
Inductive started :=
  (** [return code] before any thread exists; [out] is what was printed. *)
  | Exit (code : Z) (out : string)
  (** lines 169-177: [return 1] with [spawned] workers created, not joined. *)
  | Orphaned (out : string) (spawned : nat)
  (** all workers created: the values they run with. *)
  | Scan (out : string) (start end_ num_threads full_mode timeout_ms : Z).

(** Lines 91-103: the defaults and the positional arguments.  [args] is
    [argv[1..]], so that [argc] is one more than its length. *)
Definition positional (h : host) (args : list string) : Z * Z * Z :=
  match args with
  | [_; a; b] => (atoi h a, atoi h b, 50)
  | _ :: a :: b :: n :: _ => (atoi h a, atoi h b, atoi h n)
  | _ => (1, 1023, 50)
  end.

(** Lines 106-113: one pass over [argv[1..]]; [FULL_MODE] and [TIMEOUT_MS]
    before and after. *)
Fixpoint parse_flags (h : host) (args : list string) (full_mode timeout_ms : Z) : Z * Z :=
  match args with
  | [] => (full_mode, timeout_ms)
  | a :: rest =>
      let full_mode := if bool_decide (a = "--fast") then 0 else full_mode in
      let full_mode := if bool_decide (a = "--full") then 1 else full_mode in
      let timeout_ms :=
        if bool_decide (a = "--timeout") then
          match rest with
          | v :: _ => atoi h v
          | [] => timeout_ms
          end
        else timeout_ms in
      parse_flags h rest full_mode timeout_ms
  end.

(** Line 119. *)
Definition clamp_timeout (timeout_ms : Z) : Z :=
  if bool_decide (timeout_ms < 1) then 1 else timeout_ms.

(** The [printf] of lines 121-123. *)
Definition scanning_line (ip : string) (start end_ num_threads full_mode timeout_ms : Z)
    : string :=
  "Scanning " +:+ ip +:+ " (ports " +:+ pretty start +:+ "-" +:+ pretty end_ +:+
  ") with " +:+ pretty num_threads +:+ " threads, mode=" +:+
  (if bool_decide (full_mode ≠ 0) then "full" else "fast") +:+
  ", timeout=" +:+ pretty timeout_ms +:+ " ms..." +:+ NL.

(** Lines 167-183: the first [i] below [num_threads] for which the
    allocation of the thread's arguments fails. *)
Definition first_failure (ok : nat → bool) (num_threads : nat) : option nat :=
  head (filter (λ i, ok i = false) (seq 0 num_threads)).

(** [main], lines 65-183; [prog] is [argv[0]] and [args] is [argv[1..]].
    Every [pthread_create] is taken to succeed.  What [main] does once the
    workers have returned (lines 185-204) is to print the time taken and to
    free what it holds. *)
Definition main (h : host) (prog : string) (args : list string) : started :=
  if negb (WSAStartup_ok h) then Exit 1 ("WSAStartup failed." +:+ NL)
  else
    match args with
    | [] =>
        Exit 1 ("Usage: " +:+ prog +:+
                " <ip> [start_port end_port] <num_threads> [--fast|--full] [--timeout ms]"
                +:+ NL)
    | ip :: _ =>
        if negb (inet_pton_ok h ip) then Exit 1 ("Invalid IPv4 address: " +:+ ip +:+ NL)
        else
          let '(start, end_, num_threads) := positional h args in
          let flags := parse_flags h args 1 200 in
          let num_threads := clamp_threads num_threads in
          let timeout_ms := clamp_timeout flags.2 in
          let out := scanning_line ip start end_ num_threads flags.1 timeout_ms in
          if negb (malloc_ports_ok h (wrap_int (end_ - start + 1)))
          then Exit 1 (out +:+ "Memory allocation failed." +:+ NL)
          else if negb (fopen_ok h)
          then Exit 1 (out +:+ "Could not open output file." +:+ NL)
          else if negb (malloc_threads_ok h num_threads)
          then Exit 1 (out +:+ "Failed to allocate thread array." +:+ NL)
          else
            match first_failure (malloc_args_ok h) (Z.to_nat num_threads) with
            | Some i => Orphaned (out +:+ "Failed to allocate thread args." +:+ NL) i
            | None => Scan out start end_ num_threads flags.1 timeout_ms
            end
    end.

(** *** A host for the examples *)

(** The value of a string of digits, up to its first other character. *)
Fixpoint digits (s : string) (acc : Z) : Z :=
  match s with
  | String a rest =>
      if bool_decide (48 ≤ nat_of_ascii a ≤ 57)%nat
      then digits rest (10 * acc + Z.of_nat (nat_of_ascii a - 48))
      else acc
  | EmptyString => acc
  end.

(** What [atoi] returns for a sign and digits that fit an [int]. *)
Definition decimal (s : string) : Z :=
  match s with
  | String "-" rest => - digits rest 0
  | String "+" rest => digits rest 0
  | _ => digits s 0
  end.

(** A host on which every call succeeds, except an allocation of negative
    size. *)
Definition good_host : host :=
  {| WSAStartup_ok := true; inet_pton_ok := λ _, true; atoi := decimal;
     malloc_ports_ok := λ size, bool_decide (0 ≤ size); fopen_ok := true;
     malloc_threads_ok := λ _, true; malloc_args_ok := λ _, true |}.

(** *** More concrete scans *)


(** Port 65616 alone, in fast mode. *)
Definition high_port : config :=
  {| start := 65616; end_ := 65616; FULL_MODE := 0;
     connect_result := λ _, -1;
     recv_data := λ _, None;
     socket_ok := λ _ _, true;
     stack_junk := [] |}.

(** A target on which port 80 alone accepts connections. *)
Definition web_server (port : Z) : Z := if bool_decide (port = 80) then 0 else -1.

(** A range given the wrong way round. *)
Definition inverted : config :=
  {| start := 10; end_ := 5; FULL_MODE := 1;
     connect_result := λ _, 0;
     recv_data := λ _, None;
     socket_ok := λ _ _, true;
     stack_junk := [] |}.

(** ** Orders *)

(** Each entry is below the ones after it. *)
Fixpoint ascending (l : list Z) : Prop :=
  match l with
  | [] => True
  | x :: rest => Forall (λ y, x < y) rest ∧ ascending rest
  end.

(** No entry is above one after it. *)
Fixpoint nondecreasing (l : list Z) : Prop :=
  match l with
  | [] => True
  | x :: rest => Forall (λ y, x ≤ y) rest ∧ nondecreasing rest
  end.

(** No event of a trace (latest first) is about a port above that of a
    later event. *)
Fixpoint in_port_order (tr : list event) : Prop :=
  match tr with
  | [] => True
  | e :: rest => Forall (λ e', ev_port e' ≤ ev_port e) rest ∧ in_port_order rest
  end.

(** The number of newline characters of a text. *)
Fixpoint newlines (s : string) : nat :=
  match s with
  | EmptyString => 0
  | String a rest => (if bool_decide (a = "010"%char) then 1 else 0) + newlines rest
  end.

(** A host on which every call succeeds. *)
Definition generous_host : host :=
  {| WSAStartup_ok := true; inet_pton_ok := λ _, true; atoi := decimal;
     malloc_ports_ok := λ _, true; fopen_ok := true;
     malloc_threads_ok := λ _, true; malloc_args_ok := λ _, true |}.

Section Invariants.

Context (c : config).

(** *** The invariant: what holds of the shared state *)

Record G (st : state) : Prop := {
  G_index : 0 ≤ index (q st) ≤ size (q st);
  G_size : size (q st) = Z.of_nat (length (ports (q st)));
  G_max : size (q st) ≤ INT_MAX;
  G_nodup : NoDup (ports (q st));
  G_fresh : ∀ h, h ∈ open_socks st → (h < sock_calls st)%nat;
  G_socks : NoDup (open_socks st);
  G_events : ∀ e, e ∈ trace st →
    ∃ k, 0 ≤ k < index (q st) ∧ read_port (q st) k = Some (ev_port e);
  G_dispensed :
    (dispensed_in (trace st)).*2 = take (Z.to_nat (index (q st))) (ports (q st))
}.

(** *** The invariant: what holds of a thread and the shared state *)

Record L (t : nat) (th : thread) (st : state) : Prop := {
  L_qlock : in_q_crit (at_pc th) ↔ q_lock st = Some t;
  L_plock : in_p_crit (at_pc th) ↔ print_lock st = Some t;
  L_nofault : at_pc th ≠ PFault;
  L_empty : at_pc th = PUnlockEmpty → size (q st) ≤ index (q st);
  L_read : at_pc th = PRead → index (q st) < size (q st);
  L_inc : at_pc th = PInc →
    i th = index (q st) ∧ index (q st) < size (q st) ∧
    read_port (q st) (i th) = Some (port th);
  L_claim : claimed (at_pc th) →
    0 ≤ i th < index (q st) ∧ read_port (q st) (i th) = Some (port th);
  L_sock : holds_socket (at_pc th) → s th ∈ open_socks st;
  L_port : claimed (at_pc th) → at_pc th ≠ PUnlock → port th ≠ -1;
  L_conn : in_open (at_pc th) → connect_result c (port th) = 0;
  L_locals : at_pc th = PLock ∨ at_pc th = PPrintf →
    n th = (probe_recv c (port th)).1 ∧ banner th = (probe_recv c (port th)).2 ∧
    svc th = service_name (port th);
  L_locals' : at_pc th = PFprintf →
    n th = (probe_recv c (port th)).1 ∧ banner th = probe_banner c (port th) ∧
    svc th = service_name (port th);
  L_hist : claimed (at_pc th) →
    events_on (port th) (trace st) =
    take (emitted c th) (probe_events c t (port th) (Some (s th)));
  L_done : at_pc th = PDone →
    size (q st) ≤ index (q st) ∨
    ∃ e, e ∈ trace st ∧ (ev_act e = ASocket None ∨ ev_port e = -1)
}.

(** *** The invariant: what holds of two different threads *)

Record R (th th' : thread) : Prop := {
  R_claim : claimed (at_pc th) → claimed (at_pc th') → i th ≠ i th';
  R_sock : holds_socket (at_pc th) → holds_socket (at_pc th') → s th ≠ s th'
}.

(** *** The invariant of the whole state *)

Record inv (st : state) : Prop := {
  inv_G : G st;
  inv_L : ∀ t th, threads st !! t = Some th → L t th st;
  inv_R : ∀ t t' th th', t ≠ t' →
    threads st !! t = Some th → threads st !! t' = Some th' → R th th';
  (** every port handed out is being worked on, or its iteration is over. *)
  inv_done : ∀ k p, 0 ≤ k < index (q st) → read_port (q st) k = Some p →
    (∃ t th, threads st !! t = Some th ∧ claimed (at_pc th) ∧ i th = k) ∨
    (∃ t h, events_on p (trace st) = probe_events c t p h);
  (** every open socket is owned by a thread. *)
  inv_socks : ∀ h, h ∈ open_socks st →
    ∃ t th, threads st !! t = Some th ∧ holds_socket (at_pc th) ∧ s th = h;
  inv_q_holder : ∀ t, q_lock st = Some t → (t < length (threads st))%nat;
  inv_p_holder : ∀ t, print_lock st = Some t → (t < length (threads st))%nat
}.

(** [q.size] is not negative: [malloc] is given a size it can serve (with a
    negative [q.size], line 130 asks for more than the address space holds
    and [main] returns at line 138). *)
Definition range_ok : Prop := 0 ≤ wrap_int (end_ c - start c + 1).

(** *** The invariant of the output section *)

(** The state of the two channels after whole records [recs] and the
    first [k] steps of a section run by [r]. *)
Record sink_at (st : state) (recs : list (nat * Z)) (k : nat) (r : nat * Z) : Prop := {
  sink_trace : sink_events (trace st) = sections c recs ++ take k (section_events c r);
  sink_console : console st =
    screen_text c recs +:+ (if bool_decide (2 ≤ k)%nat then console_text c r else "");
  sink_disk : file_disk st =
    log_text c recs +:+ (if bool_decide (4 ≤ k)%nat then file_text c r else "");
  sink_buf : file_buf st = if bool_decide (k = 3%nat) then file_text c r else ""
}.

(** With [print_lock] free the channels hold whole records only. *)
Definition G2 (st : state) : Prop :=
  print_lock st = None → ∃ recs, sink_at st recs 0 (0%nat, 0).

(** The holder of [print_lock] is alone in its section. *)
Definition L2 (t : nat) (th : thread) (st : state) : Prop :=
  in_p_crit (at_pc th) →
  ∃ recs, sink_at st recs (section_pos (at_pc th)) (t, port th).

(** The invariant of the output section, for the whole state. *)
Record inv2 (st : state) : Prop := {
  inv2_G : G2 st;
  inv2_L : ∀ t th, threads st !! t = Some th → L2 t th st
}.

(** *** Sockets: opened once, closed at most once *)

Record socks_ok (st : state) : Prop := {
  socks_count : ∀ h,
    opens h (trace st) =
    (closes h (trace st) + if bool_decide (h ∈ open_socks st) then 1 else 0)%nat;
  socks_once : ∀ h, (opens h (trace st) ≤ 1)%nat;
  socks_fresh : ∀ h, (sock_calls st ≤ h)%nat → opens h (trace st) = 0%nat
}.

(** *** What an event says *)

(** What an event of an iteration says about the environment. *)
Definition event_ok (t : nat) (p : Z) (h : option nat) (e : event) : Prop :=
  ev_tid e = t ∧ ev_port e = p ∧
  match ev_act e with
  | ADispense => True
  | ASocket h' => h' = h ∧ p ≠ -1
  | AConnect r => r = connect_result c p
  | ARecv len r =>
      len = RECV_LEN ∧ r = (probe_recv c p).1 ∧ FULL_MODE c ≠ 0 ∧ connect_result c p = 0
  | ALock | AFlush | AUnlock => connect_result c p = 0
  | APrintf line => line = console_text c (t, p) ∧ connect_result c p = 0
  | AFprintf line => line = file_text c (t, p) ∧ connect_result c p = 0
  | AClose h' => h = Some h'
  end.

(** *** Proofs *)

(** Case analysis on the statement a thread executes. *)
Ltac step_cases th Hpc :=
  unfold worker_step;
  destruct (at_pc th) eqn:Hpc;
  repeat first
    [ case_bool_decide
    | match goal with
      | |- context [match q_lock ?s with _ => _ end] => destruct (q_lock s) eqn:?
      | |- context [match print_lock ?s with _ => _ end] => destruct (print_lock s) eqn:?
      | |- context [match read_port ?a ?b with _ => _ end] => destruct (read_port a b) eqn:?
      | |- context [if socket_ok ?a ?b ?d then _ else _] => destruct (socket_ok a b d) eqn:?
      end ].

Lemma wrap_int_id z : INT_MIN ≤ z ≤ INT_MAX → wrap_int z = z.
Proof. unfold wrap_int, INT_MIN, INT_MAX. intros. rewrite Z.mod_small; lia. Qed.

Lemma events_on_cons p e tr :
  events_on p (e :: tr) =
  events_on p tr ++ (if bool_decide (ev_port e = p) then [e] else []).
Proof.
  unfold events_on. rewrite reverse_cons, filter_app. f_equal.
  case_bool_decide.
  - by rewrite filter_cons_True.
  - by rewrite filter_cons_False.
Qed.

Lemma dispensed_in_cons e tr :
  dispensed_in (e :: tr) =
  dispensed_in tr ++ (if is_dispense e then [(ev_tid e, ev_port e)] else []).
Proof.
  unfold dispensed_in. rewrite reverse_cons, filter_app, fmap_app. f_equal.
  destruct (is_dispense e) eqn:He.
  - rewrite filter_cons_True; [done|]. by rewrite He.
  - rewrite filter_cons_False; [done|]. rewrite He. intros [].
Qed.

Lemma read_port_Some qu k p :
  read_port qu k = Some p ↔ 0 ≤ k ∧ ports qu !! Z.to_nat k = Some p.
Proof. unfold read_port. case_bool_decide; [tauto|]. split; [done|tauto]. Qed.

Lemma index_succ st th :
  G st → i th = index (q st) → index (q st) < size (q st) →
  wrap_int (i th + 1) = index (q st) + 1.
Proof.
  intros [] -> ?. apply wrap_int_id. unfold INT_MIN, INT_MAX in *. lia.
Qed.

Lemma worker_step_G t th st :
  G st → L t th st → G (worker_step c t th st).2.
Proof.
  intros HG HL.
  destruct (decide (at_pc th = PInc)) as [Hpc|Hpc'].
  { unfold worker_step. rewrite Hpc. simpl.
    destruct (L_inc _ _ _ HL Hpc) as (Hi & Hlt & Hrd).
    rewrite (index_succ st th) by done.
    apply read_port_Some in Hrd as [Hi0 Hrd]. rewrite Hi in Hrd.
    destruct HG. constructor; simpl; try done; try lia.
    - intros e [->|He]%elem_of_cons; simpl.
      + exists (index (q st)). split; [lia|]. apply read_port_Some. simpl. split; [lia|done].
      + destruct (G_events0 e He) as (k & ? & ?). exists k. split; [lia|done].
    - rewrite dispensed_in_cons. simpl. rewrite fmap_app, G_dispensed0. simpl.
      replace (Z.to_nat (index (q st) + 1)) with (S (Z.to_nat (index (q st)))) by lia.
      by erewrite take_S_r. }
  step_cases th Hpc; simpl; try done.
  all: destruct HG, HL; constructor; simpl; try done.
  all: try rewrite dispensed_in_cons; simpl; try rewrite app_nil_r; try done.
  all: try (intros e [->|He]%elem_of_cons; simpl; [|by eauto];
            by (exists (i th); apply L_claim0; rewrite Hpc)).
  - intros h [->|Hh]%elem_of_cons; [lia|]. apply G_fresh0 in Hh. lia.
  - apply NoDup_cons. split; [|done]. intros Hh%G_fresh0. lia.
  - intros h Hh%G_fresh0. lia.
  - intros h [_ Hh]%list_elem_of_filter. by apply G_fresh0.
  - by apply NoDup_filter.
Qed.

Lemma alloc_banner_length : length (alloc_banner c) = BANNER_SIZE.
Proof.
  unfold alloc_banner. rewrite length_take, length_app, length_replicate. lia.
Qed.

Lemma recv_bounds p buf len :
  (len ≤ length buf)%nat →
  (recv c p buf len).1 ≤ Z.of_nat len ∧ length (recv c p buf len).2 = length buf.
Proof.
  intros Hlen. unfold recv. destruct (recv_data c p) as [data|]; simpl; [|lia].
  rewrite length_app, length_drop, !length_take. lia.
Qed.

Lemma probe_recv_bounds p :
  (probe_recv c p).1 ≤ Z.of_nat RECV_LEN ∧ length (probe_recv c p).2 = BANNER_SIZE.
Proof.
  unfold probe_recv. case_bool_decide; simpl.
  - split; [done|apply alloc_banner_length].
  - rewrite <- alloc_banner_length. apply recv_bounds.
    rewrite alloc_banner_length. unfold RECV_LEN, BANNER_SIZE. lia.
Qed.

Lemma events_on_elem p e tr : e ∈ events_on p tr → e ∈ tr ∧ ev_port e = p.
Proof.
  unfold events_on. intros [? ?]%list_elem_of_filter. split; [|done].
  by apply elem_of_reverse.
Qed.

Lemma events_on_nil p tr : (∀ e, e ∈ tr → ev_port e ≠ p) → events_on p tr = [].
Proof.
  intros H. unfold events_on.
  assert (∀ e, e ∈ reverse tr → ev_port e ≠ p) as H'.
  { intros e He. apply H. by apply elem_of_reverse. }
  clear H. induction (reverse tr) as [|e l IH]; [done|].
  rewrite filter_cons_False by (apply H'; left).
  apply IH. intros e' He'. apply H'. by right.
Qed.

(** Before a port is handed out the trace has no event for it. *)
Lemma events_on_fresh st th :
  G st → i th = index (q st) → read_port (q st) (i th) = Some (port th) →
  events_on (port th) (trace st) = [].
Proof.
  intros HG Hi [_ Hrd]%read_port_Some. apply events_on_nil. intros e He Heq.
  destruct (G_events _ HG e He) as (k & Hk & [_ Hrk]%read_port_Some).
  rewrite Heq in Hrk.
  pose proof (NoDup_lookup _ _ _ _ (G_nodup _ HG) Hrk Hrd). lia.
Qed.

Lemma hist_own t th st :
  G st → L t th st →
  claimed (at_pc (worker_step c t th st).1) →
  events_on (port (worker_step c t th st).1) (trace (worker_step c t th st).2) =
  take (emitted c (worker_step c t th st).1)
    (probe_events c t (port (worker_step c t th st).1)
       (Some (s (worker_step c t th st).1))).
Proof.
  intros HG HL.
  pose proof (L_hist _ _ _ HL) as Hh.
  pose proof (L_locals _ _ _ HL) as Hl.
  pose proof (L_locals' _ _ _ HL) as Hl'.
  pose proof (L_port _ _ _ HL) as Hp.
  pose proof (L_conn _ _ _ HL) as Hc.
  pose proof (L_inc _ _ _ HL) as Hi.
  step_cases th Hpc.
  all: simpl; rewrite ?Hpc in *; simpl in *; try done.
  all: intros _; rewrite ?events_on_cons; simpl; rewrite ?bool_decide_eq_true_2 by done.
  all: try rewrite Hh by done.
  all: try (destruct Hi as (Hi1 & Hi2 & Hi3); [done|]; rewrite (events_on_fresh st th) by done).
  all: try (destruct Hl as (Hl1 & Hl2 & Hl3); [by auto|]; rewrite ?Hl1, ?Hl2, ?Hl3 in *).
  all: try (destruct Hl' as (Hl1 & Hl2 & Hl3); [by auto|]; rewrite ?Hl1, ?Hl2, ?Hl3 in *).
  all: try (assert (port th ≠ -1) by (by apply Hp)).
  all: try (assert (connect_result c (port th) = 0) by (by apply Hc)).
  all: unfold emitted, probe_events, probe_banner, terminate, probe_recv in *;
       simpl; rewrite ?Hpc; simpl. 
  all: repeat case_bool_decide; simplify_eq; simpl in *; try done.
Qed.

(** Below [size] the array access of line 320 is within bounds. *)
Lemma read_port_in_bounds st :
  G st → index (q st) < size (q st) → is_Some (read_port (q st) (index (q st))).
Proof.
  intros [] Hlt. unfold read_port. rewrite bool_decide_eq_true_2 by lia.
  apply lookup_lt_is_Some. lia.
Qed.

Lemma nofault_own t th st :
  G st → L t th st → at_pc (worker_step c t th st).1 ≠ PFault.
Proof.
  intros HG HL.
  pose proof (L_qlock _ _ _ HL) as Hq.
  pose proof (L_plock _ _ _ HL) as Hp.
  pose proof (L_read _ _ _ HL) as Hr.
  pose proof (L_sock _ _ _ HL) as Hs.
  pose proof (L_locals _ _ _ HL) as Hl.
  pose proof (L_nofault _ _ _ HL) as Hf.
  step_cases th Hpc.
  all: simpl; rewrite ?Hpc in *; simpl in *; try done.
  all: try tauto.
  - destruct (read_port_in_bounds st HG) as [p Hp']; [by apply Hr|]. congruence.
  - destruct Hl as (Hl1 & Hl2 & _); [by right|].
    destruct (probe_recv_bounds (port th)) as [Hb1 Hb2].
    rewrite <- Hl1, <- Hl2 in *. unfold RECV_LEN, BANNER_SIZE in *. lia.
Qed.

Lemma worker_step_own t th st :
  G st → L t th st → L t (worker_step c t th st).1 (worker_step c t th st).2.
Proof.
  intros HG HL. constructor.
  13: by apply hist_own.
  3: by apply nofault_own.
  all: pose proof (nofault_own t th st HG HL) as Hnf.
  all: destruct HL.
  all: revert Hnf; step_cases th Hpc.
  all: simpl; rewrite ?Hpc in *; simpl in *; try done.
  all: intros _.
  all: try tauto.
  all: try (by intros [?|?]).
  all: try (by intros; lia).
  all: try (by intros; congruence).
  all: try (by intros; apply L_port0).
  all: intros _.
  - destruct L_inc0 as (Hi & Hlt & Hrd); [done|].
    rewrite (index_succ st th) by done.
    apply read_port_Some in Hrd. unfold read_port. simpl.
    rewrite bool_decide_eq_true_2 by lia. split; [lia|tauto].
  - left.
  - unfold probe_recv. by rewrite bool_decide_eq_true_2.
  - unfold probe_recv. by rewrite bool_decide_eq_false_2.
  - destruct L_locals0 as (Hl1 & Hl2 & Hl3); [by right|].
    unfold probe_banner, terminate. rewrite <- Hl1, <- Hl2.
    by rewrite bool_decide_eq_true_2.
  - destruct L_locals0 as (Hl1 & Hl2 & Hl3); [by right|].
    unfold probe_banner, terminate. rewrite <- Hl1, <- Hl2.
    by rewrite bool_decide_eq_false_2.
  - right. exists (Ev t (port th) ADispense).
    assert (Ev t (port th) ADispense ∈ events_on (port th) (trace st)) as He.
    { rewrite L_hist0 by done. unfold emitted, probe_events. rewrite Hpc. simpl. left. }
    apply events_on_elem in He as [He _]. split; [done|]. by right.
  - right. eexists. split; [left|]. by left.
Qed.

(** Two threads that work on a port do not work on the same one. *)
Lemma ports_differ t th t' th' st :
  G st → L t th st → L t' th' st → R th th' →
  claimed (at_pc th') → claimed (at_pc th) ∨ at_pc th = PInc →
  port th ≠ port th'.
Proof.
  intros HG HL HL' HR Hc' Hc Heq.
  destruct (L_claim _ _ _ HL' Hc') as (Hi' & [_ Hrd']%read_port_Some).
  assert (i th ≠ i th' ∧ 0 ≤ i th ∧ ports (q st) !! Z.to_nat (i th) = Some (port th))
    as (Hne & Hi & Hrd).
  { destruct Hc as [Hc|Hc].
    - destruct (L_claim _ _ _ HL Hc) as (Hi & [_ Hrd]%read_port_Some).
      split; [by apply HR|]. split; [lia|done].
    - destruct (L_inc _ _ _ HL Hc) as (Hi & Hlt & [? Hrd]%read_port_Some).
      split; [lia|]. split; [lia|done]. }
  rewrite Heq in Hrd.
  pose proof (NoDup_lookup _ _ _ _ (G_nodup _ HG) Hrd Hrd'). lia.
Qed.

Lemma worker_step_other t th t' th' st :
  t ≠ t' → G st → L t th st → L t' th' st → R th th' →
  L t' th' (worker_step c t th st).2.
Proof.
  intros Hne HG HL HL' HR.
  pose proof (ports_differ t th t' th' st HG HL HL' HR) as Hpd.
  pose proof (nofault_own t th st HG HL) as Hnf.
  pose proof (L_qlock _ _ _ HL) as Hq.
  pose proof (L_plock _ _ _ HL) as Hp.
  pose proof (L_inc _ _ _ HL) as Hi.
  destruct HR as [HR1 HR2].
  destruct HL'. constructor; try done.
  all: revert Hnf; step_cases th Hpc.
  all: simpl; rewrite ?Hpc in *; simpl in *; try done.
  all: intros _.
  all: try tauto.
  all: try (by intros; lia).
  all: try (by intros; congruence).
  all: try (by (split; [intros Hc; apply L_qlock0 in Hc;
                         try (destruct Hq as [Hq _]; specialize (Hq I)); congruence
                       | intros; simplify_eq])).
  all: try (by (split; [intros Hc; apply L_plock0 in Hc;
                         try (destruct Hp as [Hp _]; specialize (Hp I)); congruence
                       | intros; simplify_eq])).
  all: try (by (intros Hc; rewrite events_on_cons; simpl;
                rewrite bool_decide_eq_false_2 by (apply Hpd; auto);
                rewrite app_nil_r; auto)).
  all: try (by (intros Hd; destruct (L_done0 Hd) as [?|(e & ? & ?)];
                [by left | right; exists e; split; [by right|done]])).
  all: try (destruct Hi as (Hi1 & Hi2 & Hi3); [done|];
            rewrite (index_succ st th) by done).
  all: try (by (intros Hc; rewrite Hc in *; destruct Hq as [Hq _]; specialize (Hq I);
                destruct L_qlock0 as [Hq' _]; specialize (Hq' I); congruence)).
  - intros Hc. destruct (L_claim0 Hc) as [? [? ?]%read_port_Some].
    split; [lia|]. by apply read_port_Some.
  - intros Hc. right. auto.
  - intros Hc. apply list_elem_of_filter. split; [|by auto].
    intros Heq. by apply HR2.
  - intros Hd; destruct (L_done0 Hd) as [?|(e & ? & ?)];
      [left; lia | right; exists e; split; [by right|done]].
Qed.

Lemma R_sym th th' : R th th' → R th' th.
Proof.
  intros [H1 H2]. split; intros Ha Hb Heq; symmetry in Heq.
  - by apply (H1 Hb Ha).
  - by apply (H2 Hb Ha).
Qed.

Lemma worker_step_R t th t' th' st :
  t ≠ t' → G st → L t th st → L t' th' st → R th th' →
  R (worker_step c t th st).1 th'.
Proof.
  intros Hne HG HL HL' [HR1 HR2].
  pose proof (L_inc _ _ _ HL) as Hi.
  pose proof (L_claim _ _ _ HL') as Hc'.
  pose proof (L_sock _ _ _ HL') as Hs'.
  pose proof (G_fresh _ HG) as Hf.
  split.
  all: step_cases th Hpc.
  all: simpl; rewrite ?Hpc in *; simpl in *; try done.
  - intros _ Hc. destruct Hi as (Hi1 & _); [done|]. destruct (Hc' Hc). lia.
  - intros _ Hh. apply Hs', Hf in Hh. lia.
Qed.

(** *** What a step does to the queue and to the trace *)

Lemma step_queue t th st :
  G st → L t th st →
  ports (q (worker_step c t th st).2) = ports (q st) ∧
  size (q (worker_step c t th st).2) = size (q st) ∧
  (index (q (worker_step c t th st).2) = index (q st) ∧ at_pc th ≠ PInc ∨
   index (q (worker_step c t th st).2) = index (q st) + 1 ∧ at_pc th = PInc ∧
   claimed (at_pc (worker_step c t th st).1) ∧
   i (worker_step c t th st).1 = index (q st)).
Proof.
  intros HG HL. pose proof (L_inc _ _ _ HL) as Hi.
  step_cases th Hpc; simpl; rewrite ?Hpc; simpl; try (by auto).
  destruct Hi as (Hi1 & Hi2 & Hi3); [done|].
  rewrite (index_succ st th) by done. split; [done|]. split; [done|].
  right. auto.
Qed.

Lemma step_trace t th st :
  trace (worker_step c t th st).2 = trace st ∨
  ∃ e, trace (worker_step c t th st).2 = e :: trace st ∧
       ev_port e = port th ∧ ev_tid e = t ∧ (claimed (at_pc th) ∨ at_pc th = PInc).
Proof.
  step_cases th Hpc; simpl; try (by left).
  all: right; eexists; (split; [done|]); simpl; rewrite ?Hpc; simpl; auto.
Qed.

(** A thread leaves a port only when its iteration is complete. *)
Lemma step_claim t th st :
  G st → L t th st → claimed (at_pc th) →
  claimed (at_pc (worker_step c t th st).1) ∧ i (worker_step c t th st).1 = i th ∨
  ¬ claimed (at_pc (worker_step c t th st).1) ∧
  ∃ h, events_on (port th) (trace (worker_step c t th st).2) =
       probe_events c t (port th) h.
Proof.
  intros HG HL.
  pose proof (nofault_own t th st HG HL) as Hnf.
  pose proof (L_hist _ _ _ HL) as Hh.
  pose proof (L_port _ _ _ HL) as Hp.
  pose proof (L_conn _ _ _ HL) as Hc.
  revert Hnf. step_cases th Hpc.
  all: simpl; rewrite ?Hpc in *; simpl in *; try done.
  all: intros _ _; try (by left).
  all: right; (split; [tauto|]).
  all: rewrite ?events_on_cons; simpl; rewrite ?bool_decide_eq_true_2 by done.
  all: rewrite Hh by done.
  all: try (assert (port th ≠ -1) by (by apply Hp)).
  - exists None. unfold emitted, probe_events. rewrite Hpc. simpl.
    by rewrite bool_decide_eq_true_2.
  - exists None. unfold emitted, probe_events. rewrite Hpc. simpl.
    by rewrite bool_decide_eq_false_2.
  - exists (Some (s th)). unfold emitted, probe_events. rewrite Hpc. simpl.
    repeat case_bool_decide; simplify_eq; done.
Qed.

Lemma step_unclaimed t th st :
  ¬ claimed (at_pc th) → at_pc th ≠ PInc →
  ¬ claimed (at_pc (worker_step c t th st).1).
Proof.
  step_cases th Hpc; simpl; rewrite ?Hpc; simpl; tauto.
Qed.

(** *** What a step does to the sockets and to the mutexes *)

Lemma step_socks_new t th st h :
  h ∈ open_socks (worker_step c t th st).2 →
  h ∈ open_socks st ∨
  holds_socket (at_pc (worker_step c t th st).1) ∧ s (worker_step c t th st).1 = h.
Proof.
  step_cases th Hpc; simpl; try (by left).
  - intros [->|?]%elem_of_cons; [right|left]; done.
  - intros [? ?]%list_elem_of_filter. by left.
Qed.

Lemma step_socks_kept t th st :
  G st → L t th st → holds_socket (at_pc th) →
  holds_socket (at_pc (worker_step c t th st).1) ∧ s (worker_step c t th st).1 = s th ∨
  s th ∉ open_socks (worker_step c t th st).2.
Proof.
  intros HG HL.
  pose proof (nofault_own t th st HG HL) as Hnf.
  revert Hnf. step_cases th Hpc.
  all: simpl; rewrite ?Hpc in *; simpl in *; try done.
  all: intros _ _; try (by left).
  right. intros [? ?]%list_elem_of_filter. done.
Qed.

Lemma step_q_lock t th st :
  q_lock (worker_step c t th st).2 = q_lock st ∨
  q_lock (worker_step c t th st).2 = Some t ∨
  q_lock (worker_step c t th st).2 = None.
Proof. step_cases th Hpc; simpl; auto. Qed.

Lemma step_print_lock t th st :
  print_lock (worker_step c t th st).2 = print_lock st ∨
  print_lock (worker_step c t th st).2 = Some t ∨
  print_lock (worker_step c t th st).2 = None.
Proof. step_cases th Hpc; simpl; auto. Qed.

Lemma step_threads t th st : threads (worker_step c t th st).2 = threads st.
Proof. step_cases th Hpc; simpl; auto. Qed.

Lemma G_set_thread t th st : G st → G (set_thread t th st).
Proof. intros []. by constructor. Qed.

Lemma L_set_thread t0 th0 t th st : L t th st → L t th (set_thread t0 th0 st).
Proof. intros []. by constructor. Qed.

Lemma read_port_inj st k1 k2 p :
  G st → read_port (q st) k1 = Some p → read_port (q st) k2 = Some p → k1 = k2.
Proof.
  intros HG [? H1]%read_port_Some [? H2]%read_port_Some.
  pose proof (NoDup_lookup _ _ _ _ (G_nodup _ HG) H1 H2). lia.
Qed.

Lemma read_port_ext q1 q2 k : ports q1 = ports q2 → read_port q1 k = read_port q2 k.
Proof. unfold read_port. by intros ->. Qed.

Lemma inv_step t st : inv st → inv (step c t st).
Proof.
  intros Hinv. unfold step.
  destruct (threads st !! t) as [th|] eqn:Ht; [|done].
  pose proof (lookup_lt_Some _ _ _ Ht) as Hlt.
  pose proof (inv_G _ Hinv) as HG.
  pose proof (inv_L _ Hinv _ _ Ht) as HL.
  pose proof (step_threads t th st) as Hths.
  set (th1 := (worker_step c t th st).1) in *.
  set (st1 := (worker_step c t th st).2) in *.
  assert (∀ t' th', t' ≠ t → threads st !! t' = Some th' → L t' th' st1) as Hother.
  { intros t' th' Hne Ht'. apply worker_step_other; auto.
    - by apply (inv_L _ Hinv).
    - by apply (inv_R _ Hinv t t'). }
  constructor; simpl; rewrite ?Hths.
  - apply G_set_thread. by apply worker_step_G.
  - intros t' th' Hl. apply L_set_thread.
    destruct (decide (t' = t)) as [->|Hne].
    + rewrite list_lookup_insert_eq in Hl by done. injection Hl as <-.
      by apply worker_step_own.
    + rewrite list_lookup_insert_ne in Hl by done. by apply Hother.
  - intros t1 t2 th1' th2' Hne Hl1 Hl2.
    destruct (decide (t1 = t)) as [->|Hne1]; destruct (decide (t2 = t)) as [->|Hne2];
      try done.
    + rewrite list_lookup_insert_eq in Hl1 by done. injection Hl1 as <-.
      rewrite list_lookup_insert_ne in Hl2 by done.
      apply (worker_step_R t th t2 th2' st); auto.
      * by apply (inv_L _ Hinv).
      * by apply (inv_R _ Hinv t t2).
    + rewrite list_lookup_insert_eq in Hl2 by done. injection Hl2 as <-.
      rewrite list_lookup_insert_ne in Hl1 by done.
      apply R_sym. apply (worker_step_R t th t1 th1' st); auto.
      * by apply (inv_L _ Hinv).
      * by apply (inv_R _ Hinv t t1).
    + rewrite list_lookup_insert_ne in Hl1 by done.
      rewrite list_lookup_insert_ne in Hl2 by done.
      by apply (inv_R _ Hinv t1 t2).
  - destruct (step_queue t th st HG HL) as (Hports & Hsize & Hidx).
    fold st1 th1 in Hports, Hsize, Hidx.
    intros k p Hk Hrd. rewrite (read_port_ext _ (q st)) in Hrd by done.
    destruct (decide (claimed (at_pc th) ∧ i th = k)) as [[Hc Hik]|Hnc].
    { destruct (L_claim _ _ _ HL Hc) as [_ Hrd']. rewrite Hik in Hrd'.
      assert (p = port th) as -> by congruence.
      destruct (step_claim t th st HG HL Hc) as [[Hc1 Hi1]|[Hc1 [h Hh]]].
      - left. exists t, th1. rewrite list_lookup_insert_eq by done.
        split; [done|]. split; [done|]. by rewrite <- Hik.
      - right. by exists t, h. }
    destruct Hidx as [[Hidx Hpc]|(Hidx & Hpc & Hc1 & Hi1)].
    + rewrite Hidx in Hk.
      destruct (inv_done _ Hinv k p Hk Hrd) as [(t0 & th0 & Ht0 & Hc0 & Hi0)|(t0 & h & Hh)].
      * left. exists t0, th0. rewrite list_lookup_insert_ne; [done|].
        intros ->. rewrite Ht in Ht0. injection Ht0 as <-. tauto.
      * right. exists t0, h.
        destruct (step_trace t th st) as [Htr|(e & Htr & He & _ & [Hc|Hc])];
          fold st1 in Htr; rewrite Htr; [done| |congruence].
        rewrite events_on_cons, bool_decide_eq_false_2, app_nil_r; [done|].
        rewrite He. intros Hpp. destruct (L_claim _ _ _ HL Hc) as [_ Hrd'].
        rewrite Hpp in Hrd'.
        apply Hnc. split; [done|]. by apply (read_port_inj st _ _ p).
    + destruct (decide (k = index (q st))) as [->|Hne].
      * left. exists t, th1. by rewrite list_lookup_insert_eq.
      * assert (0 ≤ k < index (q st)) as Hk' by lia.
        destruct (inv_done _ Hinv k p Hk' Hrd)
          as [(t0 & th0 & Ht0 & Hc0 & Hi0)|(t0 & h & Hh)].
        -- left. exists t0, th0. rewrite list_lookup_insert_ne; [done|].
           intros ->. rewrite Ht in Ht0. injection Ht0 as <-. tauto.
        -- right. exists t0, h.
           destruct (step_trace t th st) as [Htr|(e & Htr & He & _ & _)];
             fold st1 in Htr; rewrite Htr; [done|].
           rewrite events_on_cons, bool_decide_eq_false_2, app_nil_r; [done|].
           rewrite He. intros Hpp.
           destruct (L_inc _ _ _ HL Hpc) as (Hi & _ & Hrd'). rewrite Hpp in Hrd'.
           pose proof (read_port_inj st _ _ _ HG Hrd Hrd'). lia.
  - intros h Hin. destruct (step_socks_new t th st h Hin) as [Hh|[Hh1 Hh2]].
    + destruct (inv_socks _ Hinv h Hh) as (t0 & th0 & Ht0 & Hc0 & Hs0).
      destruct (decide (t0 = t)) as [->|Hne].
      * rewrite Ht in Ht0. injection Ht0 as <-.
        destruct (step_socks_kept t th st HG HL Hc0) as [[Hk1 Hk2]|Hk].
        -- exists t, th1. rewrite list_lookup_insert_eq by done.
           split; [done|]. split; [done|]. by rewrite <- Hs0.
        -- rewrite Hs0 in Hk. done.
      * exists t0, th0. by rewrite list_lookup_insert_ne.
    + exists t, th1. by rewrite list_lookup_insert_eq.
  - rewrite length_insert. intros t0 Hq.
    destruct (step_q_lock t th st) as [Hs|[Hs|Hs]]; fold st1 in Hs; rewrite Hs in Hq.
    + by apply (inv_q_holder _ Hinv).
    + by injection Hq as <-.
    + done.
  - rewrite length_insert. intros t0 Hq.
    destruct (step_print_lock t th st) as [Hs|[Hs|Hs]]; fold st1 in Hs; rewrite Hs in Hq.
    + by apply (inv_p_holder _ Hinv).
    + by injection Hq as <-.
    + done.
Qed.

Lemma wrap_int_range z : INT_MIN ≤ wrap_int z ≤ INT_MAX.
Proof.
  unfold wrap_int, INT_MIN, INT_MAX.
  pose proof (Z.mod_pos_bound (z + 2147483648) 4294967296). lia.
Qed.

Lemma wrap_int_inj a k1 k2 :
  0 ≤ k1 < 4294967296 → 0 ≤ k2 < 4294967296 →
  wrap_int (a + k1) = wrap_int (a + k2) → k1 = k2.
Proof.
  unfold wrap_int. intros H1 H2 Heq.
  assert ((a + k1 + 2147483648) `mod` 4294967296 =
          (a + k2 + 2147483648) `mod` 4294967296) as Hm by lia.
  clear Heq. revert Hm.
  pose proof (Z.div_mod (a + k1 + 2147483648) 4294967296).
  pose proof (Z.div_mod (a + k2 + 2147483648) 4294967296).
  pose proof (Z.mod_pos_bound (a + k1 + 2147483648) 4294967296).
  pose proof (Z.mod_pos_bound (a + k2 + 2147483648) 4294967296).
  lia.
Qed.

Lemma init_queue_ports_lookup a b (k : nat) :
  (k < Z.to_nat (wrap_int (b - a + 1)))%nat →
  ports (init_queue a b) !! k = Some (wrap_int (a + Z.of_nat k)).
Proof.
  intros Hk. unfold init_queue. simpl.
  rewrite list_lookup_fmap, lookup_seq_lt by done. done.
Qed.

Lemma init_queue_length a b :
  length (ports (init_queue a b)) = Z.to_nat (wrap_int (b - a + 1)).
Proof. unfold init_queue. simpl. by rewrite length_fmap, length_seq. Qed.

Lemma init_queue_NoDup a b : NoDup (ports (init_queue a b)).
Proof.
  apply NoDup_alt. intros k1 k2 p H1 H2.
  pose proof (lookup_lt_Some _ _ _ H1) as Hl1.
  pose proof (lookup_lt_Some _ _ _ H2) as Hl2.
  rewrite init_queue_length in Hl1, Hl2.
  rewrite init_queue_ports_lookup in H1, H2 by done.
  pose proof (wrap_int_range (b - a + 1)). unfold INT_MAX in *.
  assert (Z.of_nat k1 = Z.of_nat k2); [|lia].
  apply (wrap_int_inj a); [lia|lia|congruence].
Qed.

Lemma inv_init num_threads : range_ok → inv (init c num_threads).
Proof.
  intros Hr. unfold range_ok in Hr.
  pose proof (wrap_int_range (end_ c - start c + 1)) as Hw.
  constructor; simpl.
  - constructor; simpl; try done.
    + rewrite length_fmap, length_seq. lia.
    + tauto.
    + apply init_queue_NoDup.
    + intros h Hh. by apply elem_of_nil in Hh.
    + apply NoDup_nil_2.
    + intros e He. by apply elem_of_nil in He.
  - intros t th [-> _]%lookup_replicate. constructor; simpl; try done.
    intros [?|?]; done.
  - intros t t' th th' _ [-> _]%lookup_replicate [-> _]%lookup_replicate.
    by constructor.
  - intros k p Hk. lia.
  - intros h Hh. by apply elem_of_nil in Hh.
  - done.
  - done.
Qed.

Lemma inv_run num_threads sched :
  range_ok → inv (run c sched (init c num_threads)).
Proof.
  intros Hr. unfold run.
  pose proof (inv_init num_threads Hr) as Hi. revert Hi.
  generalize (init c num_threads). induction sched as [|t sched IH]; intros st Hi.
  - done.
  - simpl. apply IH. by apply inv_step.
Qed.

(** *** The output section: proofs *)

Lemma append_assoc (a b d : string) : (a +:+ b) +:+ d = a +:+ (b +:+ d).
Proof.
  induction a as [|x a IH]; [done|].
  change (String x ((a +:+ b) +:+ d) = String x (a +:+ (b +:+ d))). by rewrite IH.
Qed.

Lemma append_nil_r (a : string) : a +:+ "" = a.
Proof.
  induction a as [|x a IH]; [done|].
  change (String x (a +:+ "") = String x a). by rewrite IH.
Qed.

Lemma log_text_snoc recs r : log_text c (recs ++ [r]) = log_text c recs +:+ file_text c r.
Proof.
  unfold log_text. induction recs as [|r' recs IH]; cbn [foldr app].
  - by rewrite append_nil_r.
  - by rewrite IH, append_assoc.
Qed.

Lemma screen_text_snoc recs r :
  screen_text c (recs ++ [r]) = screen_text c recs +:+ console_text c r.
Proof.
  unfold screen_text. induction recs as [|r' recs IH]; cbn [foldr app].
  - by rewrite append_nil_r.
  - by rewrite IH, append_assoc.
Qed.

Lemma sections_snoc recs r :
  sections c (recs ++ [r]) = sections c recs ++ section_events c r.
Proof. unfold sections. rewrite bind_app. f_equal. Qed.

Lemma sink_events_cons e tr :
  sink_events (e :: tr) = sink_events tr ++ (if is_sink e then [e] else []).
Proof.
  unfold sink_events. rewrite reverse_cons, filter_app. f_equal.
  destruct (is_sink e) eqn:He.
  - rewrite filter_cons_True; [done|]. by rewrite He.
  - rewrite filter_cons_False; [done|]. rewrite He. intros [].
Qed.

Lemma sink_at_whole st recs r r' :
  sink_at st recs 5 r → sink_at st (recs ++ [r]) 0 r'.
Proof.
  intros [H1 H2 H3 H4]. simpl in *. constructor; simpl.
  - by rewrite sections_snoc, app_nil_r.
  - by rewrite screen_text_snoc, append_nil_r.
  - by rewrite log_text_snoc, append_nil_r.
  - done.
Qed.

Lemma L2_other t th t' th' st :
  t ≠ t' → L t th st → L t' th' st → L2 t' th' st →
  L2 t' th' (worker_step c t th st).2.
Proof.
  intros Hne HL HL' H2 Hc. destruct (H2 Hc) as [recs Hs].
  exists recs.
  pose proof (L_plock _ _ _ HL) as Hp.
  pose proof (proj1 (L_plock _ _ _ HL') Hc) as Hp'.
  rewrite Hp' in Hp.
  assert (¬ in_p_crit (at_pc th)) as Hnc by (intros Hx%Hp; congruence).
  clear Hp. revert Hnc. step_cases th Hpc.
  all: simpl; rewrite ?Hpc in *; simpl in *; try done.
  all: intros _; destruct Hs as [H1 H3 H4 H5].
  all: constructor; simpl; rewrite ?sink_events_cons; simpl;
       rewrite ?app_nil_r; done.
Qed.

Lemma L2_own t th st :
  G st → L t th st → G2 st → L2 t th st →
  L2 t (worker_step c t th st).1 (worker_step c t th st).2.
Proof.
  intros HG HL HG2 H2.
  pose proof (nofault_own t th st HG HL) as Hnf.
  pose proof (L_locals _ _ _ HL) as Hl.
  pose proof (L_locals' _ _ _ HL) as Hl'.
  unfold L2, G2 in *.
  revert Hnf. step_cases th Hpc.
  all: simpl; rewrite ?Hpc in *; simpl in *; try done.
  all: intros _ _.
  all: try (destruct H2 as [recs [H1 H3 H4 H5]]; [done|]).
  all: try (destruct HG2 as [recs [H1 H3 H4 H5]]; [done|]).
  all: exists recs.
  all: try (destruct Hl as (Hl1 & Hl2 & Hl3); [by auto|]).
  all: try (destruct Hl' as (Hl1 & Hl2 & Hl3); [by auto|]).
  all: simpl in *; constructor; simpl; rewrite ?sink_events_cons; simpl.
  all: rewrite ?H1, ?H3, ?H4, ?H5, <- ?app_assoc; simpl; rewrite ?app_nil_r, ?append_nil_r.
  all: unfold console_text, file_text, probe_banner, terminate; simpl.
  all: rewrite ?Hl1, ?Hl2, ?Hl3 in *.
  all: rewrite ?bool_decide_eq_true_2 by done; rewrite ?bool_decide_eq_false_2 by done.
  all: rewrite ?append_assoc, ?append_nil_r.
  all: done.
Qed.

Lemma G2_step t th st :
  G st → L t th st → G2 st → L2 t th st → G2 (worker_step c t th st).2.
Proof.
  intros HG HL HG2 H2.
  pose proof (nofault_own t th st HG HL) as Hnf.
  pose proof (L_plock _ _ _ HL) as Hp.
  unfold L2, G2 in *.
  revert Hnf. step_cases th Hpc.
  all: simpl; rewrite ?Hpc in *; simpl in *; try done.
  all: intros _ Hnone.
  all: try (destruct (HG2 Hnone) as [recs [H1 H3 H4 H5]]; exists recs;
            constructor; simpl in *; rewrite ?sink_events_cons; simpl;
            rewrite ?app_nil_r in *; done).
  all: try (by (destruct Hp as [Hp _]; specialize (Hp I); congruence)).
  all: try congruence.
  destruct H2 as [recs [H1 H3 H4 H5]]; [done|]. simpl in *.
  exists (recs ++ [(t, port th)]). apply sink_at_whole.
  constructor; simpl; rewrite ?sink_events_cons; simpl.
  - by rewrite H1, <- app_assoc.
  - done.
  - done.
  - done.
Qed.

Lemma sink_at_set_thread t th st recs k r :
  sink_at st recs k r → sink_at (set_thread t th st) recs k r.
Proof. intros []. by constructor. Qed.

Lemma inv2_step t st : inv st → inv2 st → inv2 (step c t st).
Proof.
  intros Hinv [HG2 HL2]. unfold step.
  destruct (threads st !! t) as [th|] eqn:Ht; [|done].
  pose proof (lookup_lt_Some _ _ _ Ht) as Hlt.
  pose proof (inv_G _ Hinv) as HG.
  pose proof (inv_L _ Hinv _ _ Ht) as HL.
  pose proof (step_threads t th st) as Hths.
  constructor.
  - intros Hnone. simpl in Hnone.
    destruct (G2_step t th st HG HL HG2 (HL2 _ _ Ht) Hnone) as [recs Hs].
    exists recs. by apply sink_at_set_thread.
  - simpl. rewrite Hths. intros t' th' Hl Hc.
    destruct (decide (t' = t)) as [->|Hne].
    + rewrite list_lookup_insert_eq in Hl by done. injection Hl as <-.
      destruct (L2_own t th st HG HL HG2 (HL2 _ _ Ht) Hc) as [recs Hs].
      exists recs. by apply sink_at_set_thread.
    + rewrite list_lookup_insert_ne in Hl by done.
      destruct (L2_other t th t' th' st) as [recs Hs]; auto.
      * by apply (inv_L _ Hinv).
      * exists recs. by apply sink_at_set_thread.
Qed.

Lemma inv2_init num_threads : inv2 (init c num_threads).
Proof.
  constructor.
  - intros _. exists []. by constructor.
  - intros t th [-> _]%lookup_replicate. intros [].
Qed.

Lemma inv2_run num_threads sched :
  range_ok → inv2 (run c sched (init c num_threads)).
Proof.
  intros Hr. unfold run.
  pose proof (inv_init num_threads Hr) as Hi.
  pose proof (inv2_init num_threads) as Hi2. revert Hi Hi2.
  generalize (init c num_threads). induction sched as [|t sched IH]; intros st Hi Hi2.
  - done.
  - simpl. apply IH; [by apply inv_step|by apply inv2_step].
Qed.


(** *** Termination *)

Lemma sum_list_with_insert {A} (f : A → nat) (l : list A) (k : nat) (x y : A) :
  l !! k = Some x →
  (sum_list_with f (<[k := y]> l) + f x = sum_list_with f l + f y)%nat.
Proof.
  revert k. induction l as [|a l IH]; intros [|k] Hl; simpl in *; try done.
  - injection Hl as ->. lia.
  - specialize (IH k Hl). lia.
Qed.

Lemma worker_step_measure t th st :
  G st → L t th st →
  at_pc (worker_step c t th st).1 ≠ at_pc th →
  (weight (at_pc (worker_step c t th st).1) +
   14 * Z.to_nat (size (q (worker_step c t th st).2) - index (q (worker_step c t th st).2))
   < weight (at_pc th) + 14 * Z.to_nat (size (q st) - index (q st)))%nat.
Proof.
  intros HG HL.
  pose proof (nofault_own t th st HG HL) as Hnf.
  pose proof (L_inc _ _ _ HL) as Hi.
  revert Hnf. step_cases th Hpc.
  all: simpl; rewrite ?Hpc in *; simpl in *; try done.
  all: intros _ _; try lia.
  destruct Hi as (Hi1 & Hi2 & Hi3); [done|].
  rewrite (index_succ st th) by done. lia.
Qed.

Lemma step_measure t st :
  inv st → enabled c t st → (measure (step c t st) < measure st)%nat.
Proof.
  intros Hinv (th & Ht & Hen). unfold step. rewrite Ht.
  pose proof (worker_step_measure t th st (inv_G _ Hinv) (inv_L _ Hinv _ _ Ht) Hen) as Hm.
  unfold measure. simpl. rewrite step_threads.
  pose proof (sum_list_with_insert (λ th, weight (at_pc th)) (threads st) t th
                (worker_step c t th st).1 Ht) as Hs.
  simpl in Hs. lia.
Qed.

(** A thread that is not waiting for a held mutex and has not returned
    can take its step. *)
Lemma thread_can_step t th st :
  G st → L t th st → at_pc th ≠ PDone →
  (at_pc th = PGet → q_lock st = None) →
  (at_pc th = PLock → print_lock st = None) →
  at_pc (worker_step c t th st).1 ≠ at_pc th.
Proof.
  intros HG HL.
  pose proof (nofault_own t th st HG HL) as Hnf.
  pose proof (L_nofault _ _ _ HL) as Hnf'.
  revert Hnf. step_cases th Hpc.
  all: simpl; rewrite ?Hpc in *; simpl in *; try done.
  all: intros _ _ H1 H2; try (specialize (H1 eq_refl)); try (specialize (H2 eq_refl)); done.
Qed.

Lemma some_thread_enabled st :
  inv st → ¬ finished st → ∃ t, enabled c t st.
Proof.
  intros Hinv Hnf.
  destruct (q_lock st) as [t0|] eqn:Hq.
  { destruct (lookup_lt_is_Some_2 _ _ (inv_q_holder _ Hinv _ Hq)) as [th Ht].
    pose proof (inv_L _ Hinv _ _ Ht) as HL.
    pose proof (proj2 (L_qlock _ _ _ HL) Hq) as Hc.
    exists t0, th. split; [done|].
    apply thread_can_step; [by apply inv_G|done|..];
      intros Hd; by rewrite Hd in Hc. }
  destruct (print_lock st) as [t0|] eqn:Hp.
  { destruct (lookup_lt_is_Some_2 _ _ (inv_p_holder _ Hinv _ Hp)) as [th Ht].
    pose proof (inv_L _ Hinv _ _ Ht) as HL.
    pose proof (proj2 (L_plock _ _ _ HL) Hp) as Hc.
    exists t0, th. split; [done|].
    apply thread_can_step; [by apply inv_G|done|..];
      intros Hd; by rewrite Hd in Hc. }
  apply not_Forall_Exists in Hnf; [|apply _].
  apply Exists_exists in Hnf as (th & [t Ht]%list_elem_of_lookup & Hnd).
  exists t, th. split; [done|].
  apply thread_can_step; [by apply inv_G|by apply inv_L|done|done|done].
Qed.

(** From every state the invariant allows, some schedule lets every
    worker return. *)
Lemma can_finish st : inv st → ∃ sched, finished (run c sched st).
Proof.
  remember (measure st) as m eqn:Hm. revert st Hm.
  induction m as [m IH] using lt_wf_ind. intros st -> Hinv.
  destruct (decide (finished st)) as [Hf|Hnf].
  { by exists []. }
  destruct (some_thread_enabled st Hinv Hnf) as [t Hen].
  destruct (IH (measure (step c t st)) (step_measure t st Hinv Hen)
              (step c t st) eq_refl (inv_step t st Hinv)) as [sched Hs].
  by exists (t :: sched).
Qed.

(** *** Sockets: proofs *)

Lemma opens_cons h e tr :
  opens h (e :: tr) =
  ((if bool_decide (ev_act e = ASocket (Some h)) then 1 else 0) + opens h tr)%nat.
Proof.
  unfold opens. case_bool_decide.
  - by rewrite filter_cons_True.
  - by rewrite filter_cons_False.
Qed.

Lemma closes_cons h e tr :
  closes h (e :: tr) =
  ((if bool_decide (ev_act e = AClose h) then 1 else 0) + closes h tr)%nat.
Proof.
  unfold closes. case_bool_decide.
  - by rewrite filter_cons_True.
  - by rewrite filter_cons_False.
Qed.

Lemma socks_ok_step t th st :
  G st → socks_ok st → socks_ok (worker_step c t th st).2.
Proof.
  intros HG [H1 H2 H3].
  pose proof (G_fresh _ HG) as Hf.
  pose proof (G_socks _ HG) as Hnd.
  step_cases th Hpc; simpl; try done.
  all: constructor; simpl; intros h; rewrite ?opens_cons, ?closes_cons; simpl.
  all: rewrite ?bool_decide_eq_false_2 by done; simpl; try done.
  all: try (by (intros ?; apply H3; lia)).
  - specialize (H1 h). specialize (H3 h).
    destruct (decide (h = sock_calls st)) as [->|Hne].
    + rewrite bool_decide_eq_true_2 by done.
      rewrite (bool_decide_eq_true_2 (_ ∈ _ :: _)) by left.
      rewrite (bool_decide_eq_false_2 (sock_calls st ∈ open_socks st)) in H1
        by (intros ?%Hf; lia).
      rewrite H3 in * by lia. lia.
    + rewrite bool_decide_eq_false_2 by congruence.
      rewrite H1. simpl.
      replace (bool_decide (h ∈ sock_calls st :: open_socks st))
        with (bool_decide (h ∈ open_socks st)); [done|].
      apply bool_decide_ext. rewrite elem_of_cons. naive_solver.
  - specialize (H2 h). specialize (H3 h).
    destruct (decide (h = sock_calls st)) as [->|Hne].
    + rewrite bool_decide_eq_true_2 by done. rewrite H3 by lia. lia.
    + by rewrite bool_decide_eq_false_2 by congruence.
  - intros Hh. rewrite bool_decide_eq_false_2 by (intros [= Heq]; lia).
    apply H3. lia.
  - specialize (H1 h).
    destruct (decide (h = s th)) as [->|Hne].
    + rewrite bool_decide_eq_true_2 by done.
      rewrite (bool_decide_eq_true_2 (s th ∈ open_socks st)) in H1 by done.
      rewrite bool_decide_eq_false_2; [lia|].
      intros [? ?]%list_elem_of_filter. done.
    + rewrite bool_decide_eq_false_2 by congruence.
      rewrite H1. simpl.
      replace (bool_decide (h ∈ filter (λ h0, h0 ≠ s th) (open_socks st)))
        with (bool_decide (h ∈ open_socks st)); [done|].
      apply bool_decide_ext. rewrite list_elem_of_filter. naive_solver.
Qed.

Lemma socks_ok_run num_threads sched :
  range_ok → socks_ok (run c sched (init c num_threads)).
Proof.
  intros Hr. unfold run.
  pose proof (inv_init num_threads Hr) as Hi.
  assert (socks_ok (init c num_threads)) as Hs.
  { constructor; simpl; intros h; unfold opens, closes; simpl; try done; lia. }
  revert Hi Hs.
  generalize (init c num_threads). induction sched as [|t sched IH]; intros st Hi Hs.
  - done.
  - simpl. apply IH; [by apply inv_step|].
    unfold step. destruct (threads st !! t) as [th|] eqn:Ht; [|done].
    destruct (socks_ok_step t th st (inv_G _ Hi) Hs) as [H1 H2 H3].
    by constructor.
Qed.

(** *** Every event belongs to one iteration of the loop *)

Lemma probe_events_ok t p h e : e ∈ probe_events c t p h → event_ok t p h e.
Proof.
  unfold probe_events, event_ok, console_text, file_text. intros He.
  destruct h as [h|]; repeat case_bool_decide; simpl in He.
  all: repeat (apply elem_of_cons in He as [->|He];
               [simpl; repeat split; (done || congruence)|]).
  all: by apply elem_of_nil in He.
Qed.

Lemma elem_of_events_on p e tr : e ∈ tr → ev_port e = p → e ∈ events_on p tr.
Proof.
  intros He Hp. unfold events_on. apply list_elem_of_filter. split; [done|].
  by apply elem_of_reverse.
Qed.

(** Every event of a run is an event of the iteration that handles its
    port. *)
Lemma trace_in_probe st e :
  inv st → e ∈ trace st → ∃ h, e ∈ probe_events c (ev_tid e) (ev_port e) h.
Proof.
  intros Hinv He.
  destruct (G_events _ (inv_G _ Hinv) e He) as (k & Hk & Hrd).
  pose proof (elem_of_events_on _ _ _ He eq_refl) as Hin.
  destruct (inv_done _ Hinv k _ Hk Hrd) as [(t & th & Ht & Hc & Hi)|(t & h & Hh)].
  - pose proof (inv_L _ Hinv _ _ Ht) as HL.
    destruct (L_claim _ _ _ HL Hc) as [_ Hrd']. rewrite Hi in Hrd'.
    assert (port th = ev_port e) as Hp by congruence.
    rewrite <- Hp, (L_hist _ _ _ HL Hc) in Hin.
    apply subseteq_take in Hin.
    destruct (probe_events_ok _ _ _ _ Hin) as (Htid & _ & _).
    exists (Some (s th)). by rewrite Htid, <- Hp.
  - rewrite Hh in Hin.
    destruct (probe_events_ok _ _ _ _ Hin) as (Htid & _ & _).
    exists h. by rewrite Htid.
Qed.

Lemma trace_event_ok st e :
  inv st → e ∈ trace st → ∃ h, event_ok (ev_tid e) (ev_port e) h e.
Proof.
  intros Hinv He. destruct (trace_in_probe st e Hinv He) as [h Hh].
  exists h. by apply probe_events_ok.
Qed.

(** While a thread works on a port its socket has not been closed. *)
Lemma open_probe_not_closed t th p h e :
  claimed (at_pc th) →
  (in_open (at_pc th) → connect_result c p = 0) →
  e ∈ take (emitted c th) (probe_events c t p (Some h)) →
  port th = p → ∀ h', ev_act e ≠ AClose h'.
Proof.
  unfold emitted, probe_events. intros Hc Hco He <- h'.
  destruct (at_pc th); try done; simpl in Hco;
    repeat case_bool_decide; try tauto; simpl in He.
  all: repeat (apply elem_of_cons in He as [->|He]; [by simpl|]).
  all: by apply elem_of_nil in He.
Qed.

(** Once the socket of a probe is closed, the events of its port are the
    events of one whole iteration. *)
Lemma closed_probe_complete st t p h :
  inv st → Ev t p (AClose h) ∈ trace st →
  events_on p (trace st) = probe_events c t p (Some h).
Proof.
  intros Hinv He.
  destruct (G_events _ (inv_G _ Hinv) _ He) as (k & Hk & Hrd). simpl in Hrd.
  pose proof (elem_of_events_on p _ _ He eq_refl) as Hin.
  destruct (inv_done _ Hinv k _ Hk Hrd) as [(t0 & th & Ht & Hc & Hi)|(t0 & h0 & Hh)].
  - pose proof (inv_L _ Hinv _ _ Ht) as HL.
    destruct (L_claim _ _ _ HL Hc) as [_ Hrd']. rewrite Hi in Hrd'.
    assert (port th = p) as Hp by congruence.
    pose proof (L_hist _ _ _ HL Hc) as Hh. rewrite Hp in Hh. rewrite Hh in Hin.
    assert (in_open (at_pc th) → connect_result c p = 0) as Hco.
    { intros Ho. rewrite <- Hp. by apply (L_conn _ _ _ HL). }
    by destruct (open_probe_not_closed t0 th p (s th) _ Hc Hco Hin Hp h).
  - rewrite Hh in Hin |- *.
    destruct (probe_events_ok _ _ _ _ Hin) as (Htid & _ & Ha). simpl in *.
    by rewrite Htid, Ha.
Qed.

(** When every worker has returned, every port handed out has had its
    whole iteration. *)
Lemma finished_complete st k p :
  inv st → finished st → 0 ≤ k < index (q st) → read_port (q st) k = Some p →
  ∃ t h, events_on p (trace st) = probe_events c t p h.
Proof.
  intros Hinv Hf Hk Hrd.
  destruct (inv_done _ Hinv k _ Hk Hrd) as [(t0 & th & Ht & Hc & Hi)|?]; [|done].
  apply list_elem_of_lookup_2 in Ht.
  rewrite (proj1 (Forall_forall _ _) Hf th Ht) in Hc. done.
Qed.

(** When every worker has returned without a failed [socket] call, and the
    range does not hold the value -1, the queue is exhausted. *)
Lemma finished_exhausted st :
  inv st → finished st → threads st ≠ [] →
  (∀ e, e ∈ trace st → ev_act e ≠ ASocket None) →
  (∀ e, e ∈ trace st → ev_port e ≠ -1) →
  index (q st) = size (q st).
Proof.
  intros Hinv Hf Hne Hs Hp.
  destruct (threads st) as [|th ths] eqn:Hths; [done|].
  assert (threads st !! 0%nat = Some th) as Ht by (by rewrite Hths).
  pose proof (inv_L _ Hinv _ _ Ht) as HL.
  assert (at_pc th = PDone) as Hd.
  { apply (proj1 (Forall_forall _ _) Hf). rewrite Hths. left. }
  pose proof (G_index _ (inv_G _ Hinv)).
  destruct (L_done _ _ _ HL Hd) as [?|(e & He & [Ha|Ha])]; [lia| |].
  - by destruct (Hs e He).
  - by destruct (Hp e He).
Qed.

Lemma step_length t st : length (threads (step c t st)) = length (threads st).
Proof.
  unfold step. destruct (threads st !! t) as [th|]; [|done].
  simpl. by rewrite length_insert, step_threads.
Qed.

Lemma run_length sched st : length (threads (run c sched st)) = length (threads st).
Proof.
  revert st. induction sched as [|t sched IH]; intros st; [done|].
  change (run c (t :: sched) st) with (run c sched (step c t st)).
  by rewrite IH, step_length.
Qed.

Lemma step_ports t st : ports (q (step c t st)) = ports (q st) ∧ size (q (step c t st)) = size (q st).
Proof.
  unfold step. destruct (threads st !! t) as [th|]; [|done]. simpl.
  unfold worker_step.
  destruct (at_pc th); simpl;
    repeat first [ case_bool_decide | case_match ]; by simpl.
Qed.

Lemma run_ports sched st :
  ports (q (run c sched st)) = ports (q st) ∧ size (q (run c sched st)) = size (q st).
Proof.
  revert st. induction sched as [|t sched IH]; intros st; [done|].
  change (run c (t :: sched) st) with (run c sched (step c t st)).
  destruct (IH (step c t st)) as [-> ->]. apply step_ports.
Qed.

End Invariants.

(** * The job queue, call by call *)

Lemma set_index_same qu : set_index (index qu) qu = qu.
Proof. by destruct qu. Qed.

Lemma get_next_port_exhausted qu :
  size qu ≤ index qu → get_next_port qu = Some (-1, qu).
Proof. intros H. unfold get_next_port. by rewrite bool_decide_eq_true_2. Qed.

Lemma get_next_port_next qu :
  queue_wf qu → index qu < size qu →
  ∃ p, ports qu !! Z.to_nat (index qu) = Some p ∧
       get_next_port qu = Some (p, set_index (index qu + 1) qu).
Proof.
  intros [Hi Hs Hm] Hlt. unfold get_next_port, read_port.
  rewrite bool_decide_eq_false_2 by lia. rewrite bool_decide_eq_true_2 by lia.
  destruct (lookup_lt_is_Some_2 (ports qu) (Z.to_nat (index qu))) as [p Hp]; [lia|].
  exists p. rewrite Hp. split; [done|].
  rewrite wrap_int_id; [done|]. unfold INT_MIN, INT_MAX in *. lia.
Qed.

Lemma calls_exhausted callers qu :
  size qu ≤ index qu → calls callers qu = Some ((λ t, (t, -1)) <$> callers, qu).
Proof.
  intros H. induction callers as [|t callers IH]; [done|].
  simpl. by rewrite get_next_port_exhausted, IH.
Qed.

(** What a sequence of calls returns, and the queue it leaves. *)
Lemma calls_spec callers qu :
  queue_wf qu →
  calls callers qu =
  Some (zip callers
          (take (length callers) (drop (Z.to_nat (index qu)) (ports qu)) ++
           replicate (length callers - Z.to_nat (size qu - index qu)) (-1)),
        set_index (Z.min (index qu + Z.of_nat (length callers)) (size qu)) qu).
Proof.
  revert qu. induction callers as [|t callers IH]; intros qu Hwf.
  { simpl. destruct Hwf.
    replace (Z.min (index qu + Z.of_nat 0) (size qu)) with (index qu) by lia.
    by rewrite set_index_same. }
  destruct (decide (index qu < size qu)) as [Hlt|Hge].
  - destruct (get_next_port_next qu Hwf Hlt) as (p & Hp & Hg).
    assert (queue_wf (set_index (index qu + 1) qu)) as Hwf'.
    { destruct Hwf. constructor; simpl; [lia|done|done]. }
    simpl. rewrite Hg, (IH _ Hwf'). simpl.
    rewrite (drop_S _ p _ Hp).
    replace (Z.to_nat (index qu + 1)) with (S (Z.to_nat (index qu))) by (destruct Hwf; lia).
    replace (Z.to_nat (size qu - index qu)) with (S (Z.to_nat (size qu - (index qu + 1))))
      by lia.
    simpl. do 2 f_equal. unfold set_index. simpl. f_equal. lia.
  - destruct Hwf as [Hi Hs Hm].
    rewrite calls_exhausted by lia.
    rewrite drop_ge by lia. rewrite take_nil. simpl.
    replace (Z.to_nat (size qu - index qu)) with 0%nat by lia.
    rewrite Z.min_r by lia.
    assert (size qu = index qu) as -> by lia. rewrite set_index_same.
    f_equal. f_equal. rewrite Nat.sub_0_r.
    change (((λ t0, (t0, -1)) <$> (t :: callers)) = zip (t :: callers) (replicate (length (t :: callers)) (-1))).
    generalize (t :: callers). intros l. induction l as [|x l IHl]; [done|].
    simpl. f_equal. exact IHl.
Qed.

(** Without overflow the array holds the range, in order. *)
Lemma init_queue_ports a b :
  INT_MIN ≤ a → b ≤ INT_MAX → 0 ≤ b - a + 1 ≤ INT_MAX →
  ports (init_queue a b) = seqZ a (b - a + 1) ∧
  size (init_queue a b) = b - a + 1.
Proof.
  intros Ha Hb Hlen.
  unfold init_queue, seqZ. simpl.
  rewrite (wrap_int_id (b - a + 1)) by (unfold INT_MIN, INT_MAX in *; lia).
  split; [|lia].
  apply list_fmap_ext. intros k x [-> Hk]%lookup_seq.
  rewrite wrap_int_id; [lia|]. unfold INT_MIN, INT_MAX in *. lia.
Qed.

Lemma init_queue_wf a b : 0 ≤ wrap_int (b - a + 1) → queue_wf (init_queue a b).
Proof.
  intros H. pose proof (wrap_int_range (b - a + 1)).
  constructor; simpl; [lia| |tauto].
  rewrite length_fmap, length_seq. lia.
Qed.

(** A range of valid ports is a range [main] can allocate. *)
Lemma port_range_ok c :
  1 ≤ start c → start c ≤ end_ c → end_ c ≤ 65535 → range_ok c.
Proof.
  intros. unfold range_ok. rewrite wrap_int_id; [lia|].
  unfold INT_MIN, INT_MAX. lia.
Qed.

Lemma clamp_threads_pos num_threads : 1 ≤ clamp_threads num_threads ≤ 5000.
Proof. unfold clamp_threads. repeat case_bool_decide; lia. Qed.

Lemma run_threads_nonempty c num_threads sched :
  threads (run c sched (init c num_threads)) ≠ [].
Proof.
  intros H. apply (f_equal length) in H. rewrite run_length in H. simpl in H.
  rewrite length_replicate in H. pose proof (clamp_threads_pos num_threads). lia.
Qed.

(** Every event of a run is about a port of the range. *)
Lemma trace_port_in_range c num_threads sched e :
  range_ok c →
  e ∈ trace (run c sched (init c num_threads)) →
  ev_port e ∈ ports (init_queue (start c) (end_ c)).
Proof.
  intros Hr He.
  pose proof (inv_run c num_threads sched Hr) as Hinv.
  destruct (G_events _ (inv_G _ _ Hinv) e He) as (k & Hk & [_ Hrd]%read_port_Some).
  destruct (run_ports c sched (init c num_threads)) as [Hp _]. rewrite Hp in Hrd.
  by apply list_elem_of_lookup_2 in Hrd.
Qed.

(** ** Lines and outcomes *)

(** With a NUL stored at index [k], [%s] prints from the first [k] bytes. *)
Lemma c_str_terminated (buf : list ascii) (k : nat) :
  (k < length buf)%nat → c_str (<[k := NUL]> buf) = c_str (take k buf).
Proof.
  revert k. induction buf as [|a buf IH]; intros k Hk; simpl in Hk; [lia|].
  destruct k as [|k]; simpl.
  - done.
  - case_bool_decide; [done|]. f_equal. apply IH. lia.
Qed.

(** The line [fprintf] writes is the line of the outcome. *)
Lemma file_text_record_line c t p :
  connect_result c p = 0 →
  file_text c (t, p) = record_line (Z.of_nat t) p (outcome c p) (service_name p).
Proof.
  intros Hc. unfold file_text, record_line, outcome, classify, file_line, probe_banner,
    terminate. simpl.
  destruct (probe_recv_bounds c p) as [Hn Hlen].
  rewrite (bool_decide_eq_true_2 _ Hc).
  case_bool_decide.
  - rewrite c_str_terminated by (unfold RECV_LEN, BANNER_SIZE in *; lia).
    destruct (nonempty (service_name p)); rewrite ?append_assoc; reflexivity.
  - destruct (nonempty (service_name p)); rewrite ?append_assoc; reflexivity.
Qed.

(** In full mode [n] and [banner] are what [recv] leaves. *)
Lemma probe_recv_full c p :
  FULL_MODE c ≠ 0 → probe_recv c p = recv c p (alloc_banner c) RECV_LEN.
Proof. intros H. unfold probe_recv. by rewrite bool_decide_eq_false_2. Qed.

Lemma probe_recv_fast c p :
  FULL_MODE c = 0 → probe_recv c p = (0, alloc_banner c).
Proof. intros H. unfold probe_recv. by rewrite bool_decide_eq_true_2. Qed.

(** A positive result of [recv] is the number of bytes stored, and they
    are the first bytes the peer delivered. *)
Lemma recv_positive c p buf len :
  (len ≤ length buf)%nat → 0 < (recv c p buf len).1 →
  ∃ data, recv_data c p = Some data ∧
          (recv c p buf len).1 = Z.of_nat (length (take len data)) ∧
          take (Z.to_nat (recv c p buf len).1) (recv c p buf len).2 = take len data.
Proof.
  unfold recv. intros Hlen Hpos. destruct (recv_data c p) as [data|]; simpl in *; [|lia].
  exists data. split; [done|]. split; [done|].
  rewrite Nat2Z.id. by rewrite take_app_length.
Qed.

(** Every event of a run says what its iteration says. *)
Lemma run_event_ok c num_threads sched e :
  range_ok c → e ∈ trace (run c sched (init c num_threads)) →
  ∃ h, event_ok c (ev_tid e) (ev_port e) h e.
Proof.
  intros Hr He.
  apply (trace_event_ok c (run c sched (init c num_threads)) e); [by apply inv_run|done].
Qed.

(** The two channels in a run: whole records, and at most one record in
    the making, by the holder of [print_lock]. *)
Lemma run_sink c num_threads sched :
  range_ok c →
  let st := run c sched (init c num_threads) in
  ∃ recs k r, sink_at c st recs k r ∧ (k < 5)%nat ∧ (print_lock st = None → k = 0%nat).
Proof.
  intros Hr st.
  pose proof (inv_run c num_threads sched Hr) as Hinv.
  pose proof (inv2_run c num_threads sched Hr) as [HG2 HL2]. fold st in Hinv, HG2, HL2.
  destruct (print_lock st) as [t|] eqn:Hp.
  - destruct (lookup_lt_is_Some_2 _ _ (inv_p_holder _ _ Hinv _ Hp)) as [th Ht].
    pose proof (proj2 (L_plock _ _ _ _ (inv_L _ _ Hinv _ _ Ht)) Hp) as Hc.
    destruct (HL2 _ _ Ht Hc) as [recs Hs].
    exists recs, (section_pos (at_pc th)), (t, port th).
    split; [done|]. split; [|done]. destruct (at_pc th); simpl; lia.
  - destruct (HG2 Hp) as [recs Hs]. exists recs, 0%nat, (0%nat, 0).
    split; [done|]. split; [lia|done].
Qed.

(** * The properties of the specification *)

(** C1.  For a range of ports [start, end] with start <= end, the queue
    built by [main] holds start, start+1, ..., end.  Any sequence of calls
    of [get_next_port] returns these ports in ascending order, each once,
    to the caller that made the call, and -1 to every call after them.  In
    every run of the workers, under every schedule and for every number of
    threads, the ports handed out so far are an initial part of the range,
    without repetition; when all workers have returned and no [socket] call
    failed, they are the whole range. *)
Theorem C1_each_port_dispensed_once
    (c : config) (callers : list nat) (num_threads : Z) (sched : list nat) :
  1 ≤ start c → start c ≤ end_ c → end_ c ≤ 65535 →
  let range := seqZ (start c) (end_ c - start c + 1) in
  let q0 := init_queue (start c) (end_ c) in
  let st := run c sched (init c num_threads) in
  ports q0 = range ∧
  calls callers q0 =
    Some (zip callers
            (take (length callers) range ++
             replicate (length callers - length range) (-1)),
          set_index (Z.min (Z.of_nat (length callers)) (Z.of_nat (length range))) q0) ∧
  (dispensed st).*2 = take (Z.to_nat (index (q st))) range ∧
  NoDup (dispensed st).*2 ∧
  (finished st → no_socket_failure st → (dispensed st).*2 = range).
Proof.
  intros H1 H2 H3 range q0 st.
  pose proof (port_range_ok c H1 H2 H3) as Hr.
  destruct (init_queue_ports (start c) (end_ c)) as [Hports Hsize];
    [unfold INT_MIN; lia|unfold INT_MAX; lia|unfold INT_MAX; lia|].
  fold range q0 in Hports, Hsize.
  assert (length range = Z.to_nat (end_ c - start c + 1)) as Hlen
    by (unfold range; by rewrite length_seqZ).
  pose proof (inv_run c num_threads sched Hr) as Hinv. fold st in Hinv.
  destruct (run_ports c sched (init c num_threads)) as [Hp Hs].
  fold st in Hp, Hs. change (q (init c num_threads)) with q0 in Hp, Hs.
  pose proof (G_dispensed _ (inv_G _ _ Hinv)) as Hd. rewrite Hp, Hports in Hd.
  split; [done|]. split; [|split; [done|split]].
  - rewrite (calls_spec callers q0 (init_queue_wf _ _ Hr)).
    rewrite Hports, Hsize, Hlen.
    change (index q0) with 0. simpl. rewrite drop_0.
    replace (end_ c - start c + 1 - 0) with (end_ c - start c + 1) by lia.
    replace (Z.of_nat (Z.to_nat (end_ c - start c + 1))) with (end_ c - start c + 1)
      by lia.
    done.
  - unfold dispensed in *. rewrite Hd.
    apply (sublist_NoDup _ range); [apply NoDup_seqZ|apply sublist_take].
  - intros Hf Hnf. unfold dispensed in *. rewrite Hd.
    rewrite (finished_exhausted c st Hinv Hf).
    + rewrite Hs, Hsize, <- Hlen. by rewrite firstn_all.
    + apply run_threads_nonempty.
    + by apply Forall_forall.
    + intros e He Hm.
      pose proof (trace_port_in_range c num_threads sched e Hr He) as Hin.
      fold q0 in Hin. rewrite Hports, Hm in Hin.
      apply elem_of_seqZ in Hin. lia.
Qed.

Lemma C1_witness :
  1 ≤ start demo ∧ start demo ≤ end_ demo ∧ end_ demo ≤ 65535 ∧
  calls [0; 1; 0; 1; 2; 2]%nat (init_queue 79 82) =
  Some ([(0%nat, 79); (1%nat, 80); (0%nat, 81); (1%nat, 82); (2%nat, -1); (2%nat, -1)],
        set_index 4 (init_queue 79 82)).
Proof.
  split; [simpl; lia|]. split; [simpl; lia|]. split; [simpl; lia|].
  exact (proj1 (proj2 (C1_each_port_dispensed_once demo [0; 1; 0; 1; 2; 2]%nat 2 []
                         ltac:(simpl; lia) ltac:(simpl; lia) ltac:(simpl; lia)))).
Defined.

(** The calls of [get_next_port] after the last port: -1 each, and the
    queue as it was. *)
Lemma calls_after_last (qu : JobQueue) (callers : list nat) :
  size qu ≤ index qu → calls callers qu = Some ((λ t, (t, -1)) <$> callers, qu).
Proof. apply calls_exhausted. Qed.

(** Once the cursor has reached [size] no step changes the queue. *)
Lemma exhausted_queue_fixed c st sched :
  inv c st → index (q st) = size (q st) → q (run c sched st) = q st.
Proof.
  revert st. induction sched as [|t sched IH]; intros st Hinv Hx; [done|].
  change (run c (t :: sched) st) with (run c sched (step c t st)).
  assert (q (step c t st) = q st) as Hq.
  { unfold step. destruct (threads st !! t) as [th|] eqn:Ht; [|done]. simpl.
    pose proof (L_inc _ _ _ _ (inv_L _ _ Hinv _ _ Ht)) as Hi.
    unfold worker_step.
    destruct (at_pc th) eqn:Hpc; simpl;
      repeat first [ case_bool_decide | case_match ]; simpl; try done.
    destruct Hi as (_ & Hlt & _); [done|]. lia. }
  rewrite IH; [done|by apply inv_step|by rewrite Hq].
Qed.

(** C10.  In every run the cursor stays between 0 and [size], [size] is
    the length of the array, and no thread reaches the fault state, which
    is where an access outside the array leads.  From the queue of any
    reachable state, further calls of [get_next_port] all return and leave
    the cursor within [size]; and once the cursor has reached [size], every
    further call returns -1 with the queue exactly as it was, and no further
    step of any thread changes the queue. *)
Theorem C10_exhausted_queue_is_stable
    (c : config) (num_threads : Z) (sched callers more : list nat) :
  range_ok c →
  let st := run c sched (init c num_threads) in
  0 ≤ index (q st) ≤ size (q st) ∧
  size (q st) = Z.of_nat (length (ports (q st))) ∧
  Forall (λ th, at_pc th ≠ PFault) (threads st) ∧
  (∃ rs q', calls callers (q st) = Some (rs, q') ∧ 0 ≤ index q' ≤ size q') ∧
  (index (q st) = size (q st) →
   calls callers (q st) = Some ((λ t, (t, -1)) <$> callers, q st) ∧
   q (run c more st) = q st).
Proof.
  intros Hr st.
  pose proof (inv_run c num_threads sched Hr) as Hinv. fold st in Hinv.
  pose proof (inv_G _ _ Hinv) as [Hi Hs Hm _ _ _ _ _].
  assert (queue_wf (q st)) as Hwf by (by constructor).
  split; [done|]. split; [done|]. split; [|split].
  - apply Forall_forall. intros th [t Ht]%list_elem_of_lookup.
    apply (L_nofault _ _ _ _ (inv_L _ _ Hinv _ _ Ht)).
  - eexists _, _. split; [by apply calls_spec|]. simpl. lia.
  - intros Hx. split; [apply calls_exhausted; lia|].
    by apply exhausted_queue_fixed.
Qed.

Lemma C10_witness :
  range_ok demo ∧
  calls [5; 6; 7]%nat (set_index 4 (init_queue 79 82)) =
  Some ([(5%nat, -1); (6%nat, -1); (7%nat, -1)], set_index 4 (init_queue 79 82)).
Proof.
  assert (range_ok demo) as Hr by (unfold range_ok; simpl; vm_compute; discriminate).
  split; [exact Hr|].
  pose proof (C10_exhausted_queue_is_stable demo 1 (round_robin 1 40) [5; 6; 7]%nat [] Hr)
    as (_ & _ & _ & _ & H).
  exact (proj1 (H eq_refl)).
Defined.

(** The events of whole records are events of the trace. *)
Lemma sections_in_trace c tr recs rest r :
  sink_events tr = sections c recs ++ rest → r ∈ recs →
  Ev r.1 r.2 ALock ∈ tr.
Proof.
  intros Hs Hr.
  assert (Ev r.1 r.2 ALock ∈ sink_events tr) as Hin.
  { rewrite Hs. apply elem_of_app. left. unfold sections.
    apply list_elem_of_bind. exists r. split; [left|done]. }
  unfold sink_events in Hin. apply list_elem_of_filter in Hin as [_ Hin].
  by apply elem_of_reverse.
Qed.

(** C8.  A port whose [connect] returns a value other than 0 has the
    outcome Closed, and in every run no event of the output section (lock,
    [printf], [fprintf], [fflush], unlock) is about it; what the console
    and the log hold are the records of other ports. *)
Theorem C8_closed_ports_are_silent
    (c : config) (num_threads : Z) (sched : list nat) (p : Z) :
  range_ok c → connect_result c p ≠ 0 →
  let st := run c sched (init c num_threads) in
  outcome c p = Closed ∧
  (∀ e, e ∈ trace st → ev_port e = p → is_sink e = false) ∧
  ∃ recs k r,
    sink_at c st recs k r ∧ (k < 5)%nat ∧ (p ∉ recs.*2) ∧ (k ≠ 0%nat → r.2 ≠ p).
Proof.
  intros Hr Hc st.
  assert (∀ e, e ∈ trace st → ev_port e = p → is_sink e = false) as Hsilent.
  { intros e He Hp.
    destruct (run_event_ok c num_threads sched e Hr He) as (h & _ & _ & Ha).
    rewrite Hp in Ha. unfold is_sink. destruct (ev_act e); try done; tauto. }
  split; [|split; [done|]].
  { unfold outcome, classify. by rewrite bool_decide_eq_false_2. }
  destruct (run_sink c num_threads sched Hr) as (recs & k & r & Hs & Hk & Hnone).
  fold st in Hs, Hnone.
  exists recs, k, r. split; [done|]. split; [done|]. split.
  - intros (r' & Hp & Hr')%list_elem_of_fmap.
    pose proof (sections_in_trace c _ _ _ r' (sink_trace _ _ _ _ _ Hs) Hr') as Hin.
    specialize (Hsilent _ Hin (eq_sym Hp)). done.
  - intros Hk0 Hp.
    assert (Ev r.1 r.2 ALock ∈ trace st) as Hin.
    { assert (Ev r.1 r.2 ALock ∈ sink_events (trace st)) as Hin.
      { rewrite (sink_trace _ _ _ _ _ Hs). apply elem_of_app. right.
        destruct k as [|k]; [done|]. simpl. left. }
      unfold sink_events in Hin. apply list_elem_of_filter in Hin as [_ Hin].
      by apply elem_of_reverse. }
    specialize (Hsilent _ Hin Hp). done.
Qed.

Lemma C8_witness :
  range_ok demo ∧ connect_result demo 81 ≠ 0 ∧ outcome demo 81 = Closed.
Proof.
  assert (range_ok demo) as Hr by (unfold range_ok; simpl; vm_compute; discriminate).
  assert (connect_result demo 81 ≠ 0) as Hc by (simpl; lia).
  split; [exact Hr|]. split; [exact Hc|].
  exact (proj1 (C8_closed_ports_are_silent demo 2 (round_robin 2 40) 81 Hr Hc)).
Defined.

(** C7.  In fast mode no run performs a [recv]; the outcome of every port
    that accepts the connection is OpenNoData; and every line written, to
    the console or to the log, is the line without a banner part. *)
Theorem C7_fast_mode_never_reads
    (c : config) (num_threads : Z) (sched : list nat) :
  range_ok c → FULL_MODE c = 0 →
  let st := run c sched (init c num_threads) in
  (∀ e len r, e ∈ trace st → ev_act e ≠ ARecv len r) ∧
  (∀ p, connect_result c p = 0 → outcome c p = OpenNoData) ∧
  (∀ e line, e ∈ trace st → ev_act e = AFprintf line →
     line = record_line (Z.of_nat (ev_tid e)) (ev_port e) OpenNoData
              (service_name (ev_port e))) ∧
  (∀ e line, e ∈ trace st → ev_act e = APrintf line →
     line = console_line (Z.of_nat (ev_tid e)) (ev_port e) 0 []
              (service_name (ev_port e))).
Proof.
  intros Hr Hfast st.
  assert (∀ p, connect_result c p = 0 → outcome c p = OpenNoData) as Hout.
  { intros p Hc. unfold outcome, classify. rewrite (probe_recv_fast c p Hfast). simpl.
    by rewrite bool_decide_eq_true_2. }
  split; [|split; [done|split]].
  - intros e len r He Ha.
    destruct (run_event_ok c num_threads sched e Hr He) as (h & _ & _ & Hok).
    rewrite Ha in Hok. tauto.
  - intros e line He Ha.
    destruct (run_event_ok c num_threads sched e Hr He) as (h & _ & _ & Hok).
    rewrite Ha in Hok. destruct Hok as [-> Hc].
    rewrite (file_text_record_line c _ _ Hc). by rewrite (Hout _ Hc).
  - intros e line He Ha.
    destruct (run_event_ok c num_threads sched e Hr He) as (h & _ & _ & Hok).
    rewrite Ha in Hok. destruct Hok as [-> Hc].
    unfold console_text, console_line. simpl. rewrite (probe_recv_fast c _ Hfast). done.
Qed.

Lemma C7_witness :
  range_ok demo_fast ∧ FULL_MODE demo_fast = 0 ∧ outcome demo_fast 80 = OpenNoData.
Proof.
  assert (range_ok demo_fast) as Hr by (unfold range_ok; simpl; vm_compute; discriminate).
  split; [exact Hr|]. split; [reflexivity|].
  pose proof (C7_fast_mode_never_reads demo_fast 2 (round_robin 2 40) Hr eq_refl)
    as (_ & H & _).
  exact (H 80 eq_refl).
Defined.

(** The events of the port of a closed probe, written out. *)
Lemma closed_probe_events c num_threads sched t p h :
  range_ok c →
  let st := run c sched (init c num_threads) in
  Ev t p (AClose h) ∈ trace st →
  p ≠ -1 ∧ port_events p st = probe_events c t p (Some h).
Proof.
  intros Hr st He.
  pose proof (inv_run c num_threads sched Hr) as Hinv. fold st in Hinv.
  pose proof (closed_probe_complete c st t p h Hinv He) as Hh.
  split; [|done].
  pose proof (elem_of_events_on p _ _ He eq_refl) as Hin. rewrite Hh in Hin.
  intros ->. unfold probe_events in Hin. simpl in Hin.
  apply elem_of_cons in Hin as [?|Hin]; [done|]. by apply elem_of_nil in Hin.
Qed.

(** C6.  In full mode, the events of a port whose connection succeeded are,
    once its socket is closed: the port handed out, the socket, the
    connection, one [recv] of at most 511 bytes into the 512-byte buffer,
    the output section, the close.  A result of [recv] that is zero or
    negative gives OpenNoData; a positive result [n] gives OpenWithBanner
    with the first [n] bytes of the buffer, which are the first bytes the
    peer delivered and are no more than the buffer holds. *)
Theorem C6_full_mode_single_bounded_read
    (c : config) (num_threads : Z) (sched : list nat) (t : nat) (p : Z) (h : nat) :
  range_ok c → FULL_MODE c ≠ 0 → connect_result c p = 0 →
  let st := run c sched (init c num_threads) in
  Ev t p (AClose h) ∈ trace st →
  let r := recv c p (alloc_banner c) RECV_LEN in
  port_events p st =
    [Ev t p ADispense; Ev t p (ASocket (Some h)); Ev t p (AConnect 0);
     Ev t p (ARecv RECV_LEN r.1);
     Ev t p ALock;
     Ev t p (APrintf (console_text c (t, p)));
     Ev t p (AFprintf (record_line (Z.of_nat t) p (outcome c p) (service_name p)));
     Ev t p AFlush; Ev t p AUnlock;
     Ev t p (AClose h)] ∧
  length (alloc_banner c) = 512%nat ∧ RECV_LEN = 511%nat ∧ r.1 ≤ 511 ∧
  (r.1 ≤ 0 → outcome c p = OpenNoData) ∧
  (0 < r.1 →
   outcome c p = OpenWithBanner (take 512 (take (Z.to_nat r.1) r.2)) ∧
   ∃ data, recv_data c p = Some data ∧
           take (Z.to_nat r.1) r.2 = take 511 data ∧
           r.1 = Z.of_nat (length (take 511 data))).
Proof.
  intros Hr Hfull Hc st He r.
  destruct (closed_probe_events c num_threads sched t p h Hr He) as [Hp Hev].
  fold st in Hev.
  pose proof (probe_recv_full c p Hfull) as Hpr. fold r in Hpr.
  destruct (recv_bounds c p (alloc_banner c) RECV_LEN) as [Hn Hlen].
  { rewrite alloc_banner_length. unfold RECV_LEN, BANNER_SIZE. lia. }
  fold r in Hn, Hlen. rewrite alloc_banner_length in Hlen.
  split; [|split; [apply alloc_banner_length|split; [done|split; [done|split]]]].
  - rewrite Hev. unfold probe_events.
    rewrite (bool_decide_eq_false_2 _ Hp), (bool_decide_eq_true_2 _ Hc),
      (bool_decide_eq_false_2 _ Hfull).
    rewrite <- (file_text_record_line c t p Hc).
    unfold file_text, console_text. simpl. by rewrite Hc, Hpr.
  - intros Hle. unfold outcome, classify. rewrite Hpr.
    rewrite (bool_decide_eq_true_2 _ Hc). by rewrite bool_decide_eq_false_2 by lia.
  - intros Hpos.
    destruct (recv_positive c p (alloc_banner c) RECV_LEN) as (data & Hd & Hr1 & Hr2).
    { rewrite alloc_banner_length. unfold RECV_LEN, BANNER_SIZE. lia. }
    { done. }
    fold r in Hr1, Hr2. split.
    + unfold outcome, classify. rewrite Hpr.
      rewrite (bool_decide_eq_true_2 _ Hc). rewrite bool_decide_eq_true_2 by done.
      f_equal. rewrite take_take. f_equal. unfold RECV_LEN in *. lia.
    + exists data. done.
Qed.

Lemma C6_witness :
  range_ok demo ∧ FULL_MODE demo ≠ 0 ∧ connect_result demo 80 = 0 ∧
  Ev 1 80 (AClose 1) ∈ trace (run demo (round_robin 2 40) (init demo 2)) ∧
  outcome demo 80 = OpenWithBanner ["h"; "i"; "010"]%char.
Proof.
  assert (range_ok demo) as Hr by (unfold range_ok; simpl; vm_compute; discriminate).
  assert (FULL_MODE demo ≠ 0) as Hf by (simpl; lia).
  assert (Ev 1 80 (AClose 1) ∈ trace (run demo (round_robin 2 40) (init demo 2))) as He.
  { apply (bool_decide_unpack _). vm_compute. exact I. }
  split; [exact Hr|]. split; [exact Hf|]. split; [reflexivity|]. split; [exact He|].
  pose proof (C6_full_mode_single_bounded_read demo 2 (round_robin 2 40) 1 80 1
                Hr Hf eq_refl He) as (_ & _ & _ & _ & _ & H).
  exact (proj1 (H ltac:(vm_compute; reflexivity))).
Defined.

(** What has been written to the log, flushed or not, is a sequence of
    whole lines, each written inside a run of the output section. *)
Lemma run_file_whole c num_threads sched :
  range_ok c →
  ∃ recs,
    file_disk (run c sched (init c num_threads)) +:+
    file_buf (run c sched (init c num_threads)) = log_text c recs ∧
    ∀ r, r ∈ recs → Ev r.1 r.2 ALock ∈ trace (run c sched (init c num_threads)).
Proof.
  intros Hr.
  destruct (run_sink c num_threads sched Hr) as (recs & k & r & [H1 H2 H3 H4] & Hk & _).
  assert (∀ r', r' ∈ recs →
            Ev r'.1 r'.2 ALock ∈ trace (run c sched (init c num_threads))) as Hrecs.
  { intros r' Hr'. by apply (sections_in_trace c _ recs _ r' H1). }
  assert (k ≠ 0%nat → Ev r.1 r.2 ALock ∈ trace (run c sched (init c num_threads))) as Hpend.
  { intros Hk0.
    assert (Ev r.1 r.2 ALock ∈ sink_events (trace (run c sched (init c num_threads))))
      as Hin.
    { rewrite H1. apply elem_of_app. right. destruct k as [|k]; [done|]. simpl. left. }
    unfold sink_events in Hin. apply list_elem_of_filter in Hin as [_ Hin].
    by apply elem_of_reverse. }
  rewrite H3, H4.
  destruct (decide (k < 3)%nat) as [Hlt|Hge].
  - exists recs. split; [|done].
    rewrite bool_decide_eq_false_2 by lia. rewrite bool_decide_eq_false_2 by lia.
    by rewrite !append_nil_r.
  - exists (recs ++ [r]). split.
    + rewrite log_text_snoc. destruct (decide (k = 3%nat)) as [->|Hne].
      * simpl. by rewrite append_nil_r.
      * rewrite bool_decide_eq_true_2 by lia. rewrite bool_decide_eq_false_2 by lia.
        by rewrite append_nil_r.
    + intros r' [Hr'|Hr']%elem_of_app; [by apply Hrecs|].
      apply list_elem_of_singleton in Hr' as ->. apply Hpend. lia.
Qed.

(** C5, as amended.  Every line [fprintf] appends to the log is, for the
    thread and the port of the call,
    [[Thread <id>] Port <port> OPEN[ - banner: <bytes>][ (<service>)]]
    and a newline: the word is Thread, the banner part is there exactly
    when the outcome has a banner and holds the banner bytes as they came,
    up to the first NUL byte, and the service part is there exactly when
    [service_name] returns a name that is not empty.  The log, flushed or
    not, is a sequence of such lines. *)
Theorem C5_log_line_form (c : config) (num_threads : Z) (sched : list nat) :
  range_ok c →
  let st := run c sched (init c num_threads) in
  (∀ e line, e ∈ trace st → ev_act e = AFprintf line →
     line = record_line (Z.of_nat (ev_tid e)) (ev_port e) (outcome c (ev_port e))
              (service_name (ev_port e))) ∧
  (∃ recs, file_disk st +:+ file_buf st = log_text c recs ∧
           ∀ r, r ∈ recs →
             file_text c r =
             record_line (Z.of_nat r.1) r.2 (outcome c r.2) (service_name r.2)) ∧
  (∀ p, (∃ bytes, outcome c p = OpenWithBanner bytes) ↔
        connect_result c p = 0 ∧ 0 < (probe_recv c p).1).
Proof.
  intros Hr st. split; [|split].
  - intros e line He Ha.
    destruct (run_event_ok c num_threads sched e Hr He) as (h & _ & _ & Hok).
    rewrite Ha in Hok. destruct Hok as [-> Hc].
    by apply file_text_record_line.
  - destruct (run_file_whole c num_threads sched Hr) as (recs & Hf & Hrecs).
    exists recs. split; [done|]. intros [t p] Hin.
    destruct (run_event_ok c num_threads sched _ Hr (Hrecs _ Hin)) as (h & _ & _ & Hok).
    simpl in Hok. by apply file_text_record_line.
  - intros p. unfold outcome, classify. repeat case_bool_decide; split.
    all: try (by intros [b ?]).
    all: try (by intros [? ?]).
    intros _. eauto.
Qed.

Lemma C5_witness :
  range_ok demo ∧
  "[Thread 1] Port 80 OPEN - banner: hi" +:+ NL +:+ " (HTTP)" +:+ NL =
  record_line 1 80 (outcome demo 80) (service_name 80).
Proof.
  assert (range_ok demo) as Hr by (unfold range_ok; simpl; vm_compute; discriminate).
  split; [exact Hr|].
  apply (proj1 (C5_log_line_form demo 2 (round_robin 2 40) Hr)
           (Ev 1 80 (AFprintf ("[Thread 1] Port 80 OPEN - banner: hi" +:+ NL +:+
                               " (HTTP)" +:+ NL)))).
  - apply (bool_decide_unpack _). vm_compute. exact I.
  - reflexivity.
Defined.

(** C5, as stated, fails: the line for port 80 found open by thread 0 in
    fast mode starts with [[Thread 0]], which no choice of escaping and of
    banner turns into the stated [[Worker 0] ...]; and in full mode the
    newline the service sent is in the log as it came. *)
Lemma C5_log_line_is_not_the_stated_form :
  file_disk (run demo_fast (round_robin 1 60) (init demo_fast 1)) =
    "[Thread 0] Port 80 OPEN (HTTP)" +:+ NL ∧
  (∀ escape banner,
     file_disk (run demo_fast (round_robin 1 60) (init demo_fast 1)) ≠
     spec_log_line escape 0 80 banner "HTTP" +:+ NL) ∧
  file_disk (run demo (round_robin 1 60) (init demo 1)) =
    "[Thread 0] Port 80 OPEN - banner: hi" +:+ NL +:+ " (HTTP)" +:+ NL.
Proof.
  split; [by vm_compute|]. split; [|by vm_compute].
  intros escape banner.
  replace (file_disk (run demo_fast (round_robin 1 60) (init demo_fast 1)))
    with ("[Thread 0] Port 80 OPEN (HTTP)" +:+ NL) by (by vm_compute).
  unfold spec_log_line. intros H. vm_compute in H. discriminate H.
Qed.

(** One iteration with a socket closes it once, at its end. *)
Lemma probe_events_close c t p h :
  p ≠ -1 →
  closes h (probe_events c t p (Some h)) = 1%nat ∧
  last (probe_events c t p (Some h)) = Some (Ev t p (AClose h)).
Proof.
  intros Hp. unfold probe_events, closes.
  rewrite (bool_decide_eq_false_2 _ Hp).
  repeat case_bool_decide; simpl;
    repeat (rewrite filter_cons_False by (simpl; discriminate));
    rewrite filter_cons_True by done; done.
Qed.

(** C9.  In every run a socket that was created is either still open, owned
    by the one thread that is in the middle of its probe, and not closed
    yet; or it is no longer open and was closed exactly once.  It is never
    closed twice, no thread reaches the fault state (where closing a socket
    that is not open leads), and when all workers have returned no socket
    is open.  The close is the last event of the iteration whichever way
    the probe went. *)
Theorem C9_socket_closed_exactly_once
    (c : config) (num_threads : Z) (sched : list nat) (h : nat) :
  range_ok c →
  let st := run c sched (init c num_threads) in
  opens h (trace st) = 1%nat →
  (closes h (trace st) ≤ 1)%nat ∧
  ((h ∈ open_socks st ∧ closes h (trace st) = 0%nat ∧
    ∃ t th, threads st !! t = Some th ∧ holds_socket (at_pc th) ∧ s th = h) ∨
   ((h ∉ open_socks st) ∧ closes h (trace st) = 1%nat)) ∧
  (finished st → open_socks st = [] ∧ closes h (trace st) = 1%nat) ∧
  Forall (λ th, at_pc th ≠ PFault) (threads st) ∧
  (∀ t p, Ev t p (AClose h) ∈ trace st →
     port_events p st = probe_events c t p (Some h) ∧
     last (probe_events c t p (Some h)) = Some (Ev t p (AClose h)) ∧
     closes h (probe_events c t p (Some h)) = 1%nat).
Proof.
  intros Hr st Hopen.
  pose proof (inv_run c num_threads sched Hr) as Hinv.
  pose proof (socks_ok_run c num_threads sched Hr) as [Hcount _ _].
  fold st in Hinv, Hcount. specialize (Hcount h). rewrite Hopen in Hcount.
  assert (finished st → open_socks st = []) as Hnone.
  { intros Hf. destruct (open_socks st) as [|h' l] eqn:Ho; [done|].
    destruct (inv_socks _ _ Hinv h') as (t & th & Ht & Hh & _); [rewrite Ho; left|].
    apply list_elem_of_lookup_2 in Ht.
    rewrite (proj1 (Forall_forall _ _) Hf th Ht) in Hh. done. }
  split; [lia|]. split; [|split; [|split]].
  - case_bool_decide as Hin.
    + left. split; [done|]. split; [lia|]. by apply (inv_socks _ _ Hinv).
    + right. split; [done|lia].
  - intros Hf. split; [by apply Hnone|].
    rewrite (Hnone Hf) in Hcount. rewrite bool_decide_eq_false_2 in Hcount; [lia|].
    by intros ?%elem_of_nil.
  - apply Forall_forall. intros th [t Ht]%list_elem_of_lookup.
    apply (L_nofault _ _ _ _ (inv_L _ _ Hinv _ _ Ht)).
  - intros t p He.
    destruct (closed_probe_events c num_threads sched t p h Hr He) as [Hp Hev].
    split; [done|]. destruct (probe_events_close c t p h Hp). done.
Qed.

Lemma C9_witness :
  range_ok demo ∧
  opens 1 (trace (run demo (round_robin 2 40) (init demo 2))) = 1%nat ∧
  closes 1 (trace (run demo (round_robin 2 40) (init demo 2))) = 1%nat.
Proof.
  assert (range_ok demo) as Hr by (unfold range_ok; simpl; vm_compute; discriminate).
  assert (opens 1 (trace (run demo (round_robin 2 40) (init demo 2))) = 1%nat) as Ho
    by (vm_compute; reflexivity).
  split; [exact Hr|]. split; [exact Ho|].
  pose proof (C9_socket_closed_exactly_once demo 2 (round_robin 2 40) 1 Hr Ho)
    as (_ & _ & H & _).
  apply H. apply (bool_decide_unpack _). vm_compute. exact I.
Defined.

Lemma unlocks_app l1 l2 : unlocks (l1 ++ l2) = (unlocks l1 + unlocks l2)%nat.
Proof. unfold unlocks. by rewrite filter_app, length_app. Qed.

Lemma unlocks_reverse l : unlocks (reverse l) = unlocks l.
Proof.
  induction l as [|e l IH]; [done|].
  rewrite reverse_cons, unlocks_app, IH.
  change (e :: l) with ([e] ++ l). rewrite unlocks_app. lia.
Qed.

Lemma unlocks_sink tr : unlocks (sink_events tr) = unlocks tr.
Proof.
  rewrite <- (unlocks_reverse tr). unfold sink_events.
  induction (reverse tr) as [|e l IH]; [done|].
  change (e :: l) with ([e] ++ l). rewrite filter_app, !unlocks_app, IH. f_equal.
  unfold unlocks, is_unlock, is_sink.
  destruct e as [t p a]. by destruct a.
Qed.

Lemma unlocks_sections c recs : unlocks (sections c recs) = length recs.
Proof.
  induction recs as [|r recs IH]; [done|].
  unfold sections in *. rewrite bind_cons, unlocks_app, IH. done.
Qed.

Lemma unlocks_partial c r k : (k < 5)%nat → unlocks (take k (section_events c r)) = 0%nat.
Proof.
  intros Hk. do 5 (destruct k as [|k]; [done|]). lia.
Qed.

Lemma finished_print_lock_free c st : inv c st → finished st → print_lock st = None.
Proof.
  intros Hinv Hf. destruct (print_lock st) as [t|] eqn:Hp; [|done].
  destruct (lookup_lt_is_Some_2 _ _ (inv_p_holder _ _ Hinv _ Hp)) as [th Ht].
  pose proof (proj2 (L_plock _ _ _ _ (inv_L _ _ Hinv _ _ Ht)) Hp) as Hc.
  apply list_elem_of_lookup_2 in Ht.
  rewrite (proj1 (Forall_forall _ _) Hf th Ht) in Hc. done.
Qed.

(** C4.  In every run, under every schedule, the events of the output
    section are whole runs of the section one after the other (lock,
    [printf], [fprintf], [fflush], unlock, all of one thread and one port),
    followed by at most one unfinished run, that of the thread holding
    [print_lock].  The console and the log hold the lines of the whole runs
    in that order, then what the unfinished run has written so far; the
    flushed log holds whole lines only, one for each run that has flushed.
    There are as many whole records as unlocks of [print_lock], and when
    all workers have returned the log is these records and nothing else. *)
Theorem C4_records_do_not_interleave (c : config) (num_threads : Z) (sched : list nat) :
  range_ok c →
  let st := run c sched (init c num_threads) in
  ∃ recs k r,
    (k < 5)%nat ∧
    sink_events (trace st) = sections c recs ++ take k (section_events c r) ∧
    console st =
      screen_text c recs +:+ (if bool_decide (2 ≤ k)%nat then console_text c r else "") ∧
    file_disk st =
      log_text c recs +:+ (if bool_decide (4 ≤ k)%nat then file_text c r else "") ∧
    file_buf st = (if bool_decide (k = 3%nat) then file_text c r else "") ∧
    (print_lock st = None → k = 0%nat) ∧
    unlocks (trace st) = length recs ∧
    (finished st → k = 0%nat ∧ file_disk st = log_text c recs ∧ file_buf st = "").
Proof.
  intros Hr st.
  pose proof (inv_run c num_threads sched Hr) as Hinv. fold st in Hinv.
  destruct (run_sink c num_threads sched Hr) as (recs & k & r & [H1 H2 H3 H4] & Hk & Hnone).
  fold st in H1, H2, H3, H4, Hnone.
  exists recs, k, r. do 6 (split; [done|]). split.
  - rewrite <- unlocks_sink, H1, unlocks_app, unlocks_sections, unlocks_partial by done.
    lia.
  - intros Hf. pose proof (Hnone (finished_print_lock_free c st Hinv Hf)) as ->.
    split; [done|]. rewrite H3, H4. simpl. by rewrite append_nil_r.
Qed.

Lemma C4_witness :
  range_ok demo ∧
  ∃ recs, file_disk (run demo (round_robin 2 40) (init demo 2)) = log_text demo recs.
Proof.
  assert (range_ok demo) as Hr by (unfold range_ok; simpl; vm_compute; discriminate).
  split; [exact Hr|].
  destruct (C4_records_do_not_interleave demo 2 (round_robin 2 40) Hr)
    as (recs & k & r & _ & _ & _ & _ & _ & _ & _ & H).
  exists recs. apply H. apply (bool_decide_unpack _). vm_compute. exact I.
Defined.

(** ** What a finished scan has reported *)

Lemma elem_of_reported st p :
  p ∈ reported st ↔ ∃ e, e ∈ trace st ∧ is_fprintf e ∧ ev_port e = p.
Proof.
  unfold reported, history. rewrite list_elem_of_fmap. split.
  - intros (e & Hp & [Hf He]%list_elem_of_filter).
    apply (proj1 (elem_of_reverse _ _)) in He. exists e. by rewrite Hp.
  - intros (e & He & Hf & Hp). exists e. split; [done|].
    apply list_elem_of_filter. split; [done|]. by apply elem_of_reverse.
Qed.

Lemma probe_events_fprintf c t p h :
  p ≠ -1 → connect_result c p = 0 →
  Ev t p (AFprintf (file_text c (t, p))) ∈ probe_events c t p (Some h).
Proof.
  intros Hp Hc. unfold probe_events.
  rewrite (bool_decide_eq_false_2 _ Hp), (bool_decide_eq_true_2 _ Hc).
  do 3 right. apply elem_of_app. left. apply elem_of_app. right.
  do 2 right. left.
Qed.

Lemma probe_events_socket_none c t p :
  p ≠ -1 → Ev t p (ASocket None) ∈ probe_events c t p None.
Proof.
  intros Hp. unfold probe_events. rewrite (bool_decide_eq_false_2 _ Hp). right. left.
Qed.

(** A scan that has finished without a failed [socket] call has reported
    the ports of the range that accept the connection, and no other. *)
Lemma reported_open_ports c num_threads sched p :
  1 ≤ start c → start c ≤ end_ c → end_ c ≤ 65535 →
  finished (run c sched (init c num_threads)) →
  no_socket_failure (run c sched (init c num_threads)) →
  p ∈ reported (run c sched (init c num_threads)) ↔
  start c ≤ p ≤ end_ c ∧ connect_result c p = 0.
Proof.
  intros H1 H2 H3 Hf Hnf.
  pose proof (port_range_ok c H1 H2 H3) as Hr.
  pose proof (inv_run c num_threads sched Hr) as Hinv.
  destruct (init_queue_ports (start c) (end_ c)) as [Hports Hsize];
    [unfold INT_MIN; lia|unfold INT_MAX; lia|unfold INT_MAX; lia|].
  destruct (run_ports c sched (init c num_threads)) as [Hp Hs].
  change (q (init c num_threads)) with (init_queue (start c) (end_ c)) in Hp, Hs.
  assert (∀ e, e ∈ trace (run c sched (init c num_threads)) → start c ≤ ev_port e ≤ end_ c)
    as Hrange.
  { intros e He. pose proof (trace_port_in_range c num_threads sched e Hr He) as Hin.
    rewrite Hports in Hin. apply elem_of_seqZ in Hin. lia. }
  rewrite elem_of_reported. split.
  - intros (e & He & Hfp & <-). split; [by apply Hrange|].
    destruct (run_event_ok c num_threads sched e Hr He) as (h & _ & _ & Hok).
    unfold is_fprintf in Hfp. destruct (ev_act e); try done. tauto.
  - intros [Hin Hc].
    assert (index (q (run c sched (init c num_threads))) =
            size (q (run c sched (init c num_threads)))) as Hx.
    { apply (finished_exhausted c); try done.
      - apply run_threads_nonempty.
      - by apply Forall_forall.
      - intros e He Hm. specialize (Hrange e He). lia. }
    assert (p ≠ -1) as Hp1 by lia.
    assert (ports (init_queue (start c) (end_ c)) !! Z.to_nat (p - start c) = Some p) as Hl.
    { rewrite Hports. rewrite lookup_seqZ. split; lia. }
    destruct (finished_complete c _ (p - start c) p Hinv Hf) as (t & h & Hh).
    { rewrite Hx, Hs, Hsize. lia. }
    { apply read_port_Some. rewrite Hp. split; [lia|done]. }
    destruct h as [h|].
    + exists (Ev t p (AFprintf (file_text c (t, p)))). split; [|done].
      pose proof (probe_events_fprintf c t p h Hp1 Hc) as Hin'.
      rewrite <- Hh in Hin'. by apply events_on_elem in Hin' as [? _].
    + pose proof (probe_events_socket_none c t p Hp1) as Hin'.
      rewrite <- Hh in Hin'. apply events_on_elem in Hin' as [Hin' _].
      by destruct (proj1 (Forall_forall _ _) Hnf _ Hin').
Qed.

Lemma run_app c sched more st : run c (sched ++ more) st = run c more (run c sched st).
Proof. unfold run. by rewrite foldl_app. Qed.

(** Every run can be continued until all workers have returned. *)
Lemma scan_can_complete c num_threads sched :
  range_ok c → ∃ more, finished (run c (sched ++ more) (init c num_threads)).
Proof.
  intros Hr. destruct (can_finish c _ (inv_run c num_threads sched Hr)) as [more Hf].
  exists more. by rewrite run_app.
Qed.

(** C3, as amended.  For a range of valid ports and a fixed answer of the
    network for each port, two scans that have finished, with any two
    numbers of threads and under any two schedules, have reported the same
    set of ports, provided that no [socket] call failed in either; the set
    is that of the ports of the range whose connection succeeds. *)
Theorem C3_same_ports_for_every_worker_count
    (c : config) (n1 n2 : Z) (sched1 sched2 : list nat) :
  1 ≤ start c → start c ≤ end_ c → end_ c ≤ 65535 →
  let st1 := run c sched1 (init c n1) in
  let st2 := run c sched2 (init c n2) in
  finished st1 → finished st2 →
  no_socket_failure st1 → no_socket_failure st2 →
  (∀ p, p ∈ reported st1 ↔ p ∈ reported st2) ∧
  (∀ p, p ∈ reported st1 ↔ start c ≤ p ≤ end_ c ∧ connect_result c p = 0).
Proof.
  intros H1 H2 H3 st1 st2 Hf1 Hf2 Hn1 Hn2.
  split; intros p.
  - unfold st1, st2. by rewrite !reported_open_ports.
  - unfold st1. by rewrite reported_open_ports.
Qed.

Lemma C3_witness :
  (1 ≤ start demo ∧ start demo ≤ end_ demo ∧ end_ demo ≤ 65535) ∧
  (finished (run demo (round_robin 1 80) (init demo 1)) ∧
   finished (run demo (round_robin 4 40) (init demo 4))) ∧
  (no_socket_failure (run demo (round_robin 1 80) (init demo 1)) ∧
   no_socket_failure (run demo (round_robin 4 40) (init demo 4))) ∧
  (80 ∈ reported (run demo (round_robin 1 80) (init demo 1)) ↔
   80 ∈ reported (run demo (round_robin 4 40) (init demo 4))).
Proof.
  assert (finished (run demo (round_robin 1 80) (init demo 1))) as Hf1
    by (apply (bool_decide_unpack _); vm_compute; exact I).
  assert (finished (run demo (round_robin 4 40) (init demo 4))) as Hf2
    by (apply (bool_decide_unpack _); vm_compute; exact I).
  assert (no_socket_failure (run demo (round_robin 1 80) (init demo 1))) as Hn1
    by (apply (bool_decide_unpack _); vm_compute; exact I).
  assert (no_socket_failure (run demo (round_robin 4 40) (init demo 4))) as Hn2
    by (apply (bool_decide_unpack _); vm_compute; exact I).
  split; [simpl; lia|].
  split; [exact (conj Hf1 Hf2)|]. split; [exact (conj Hn1 Hn2)|].
  exact (proj1 (C3_same_ports_for_every_worker_count demo 1 4 (round_robin 1 80)
                  (round_robin 4 40) ltac:(simpl; lia) ltac:(simpl; lia) ltac:(simpl; lia)
                  Hf1 Hf2 Hn1 Hn2) 80).
Defined.

(** C3, as stated, fails: with the same ports, the same mode, the same
    answers of the network and a system that gives the process one socket
    at a time, one thread reports ports 1 and 2, and two threads, under the
    schedule above, report port 1 only: the second thread took port 2, got
    no socket, and returned. *)
Lemma C3_worker_count_changes_the_result :
  finished (run one_socket (round_robin 1 60) (init one_socket 1)) ∧
  finished (run one_socket starved_schedule (init one_socket 2)) ∧
  reported (run one_socket (round_robin 1 60) (init one_socket 1)) = [1; 2] ∧
  reported (run one_socket starved_schedule (init one_socket 2)) = [1] ∧
  file_disk (run one_socket (round_robin 1 60) (init one_socket 1)) =
    "[Thread 0] Port 1 OPEN" +:+ NL +:+ "[Thread 0] Port 2 OPEN" +:+ NL ∧
  file_disk (run one_socket starved_schedule (init one_socket 2)) =
    "[Thread 0] Port 1 OPEN" +:+ NL.
Proof.
  split; [apply (bool_decide_unpack _); vm_compute; exact I|].
  split; [apply (bool_decide_unpack _); vm_compute; exact I|].
  repeat split; vm_compute; reflexivity.
Qed.

(** When all workers have returned nothing happens any more. *)
Lemma finished_step c t st : finished st → step c t st = st.
Proof.
  intros Hf. unfold step. destruct (threads st !! t) as [th|] eqn:Ht; [|done].
  assert (at_pc th = PDone) as Hd.
  { apply (proj1 (Forall_forall _ _) Hf). by apply list_elem_of_lookup_2 in Ht. }
  unfold worker_step. rewrite Hd. simpl.
  destruct st. unfold set_thread. simpl in *. f_equal. by apply list_insert_id.
Qed.

Lemma finished_run c sched st : finished st → run c sched st = st.
Proof.
  intros Hf. induction sched as [|t sched IH]; [done|].
  change (run c (t :: sched) st) with (run c sched (step c t st)).
  by rewrite finished_step.
Qed.

(** A thread whose [socket] call fails returns. *)
Lemma socket_failure_returns c t th st :
  at_pc th = PSocket →
  socket_ok c (length (open_socks st)) (sock_calls st) = false →
  at_pc (worker_step c t th st).1 = PDone.
Proof. intros Hpc Hs. unfold worker_step. by rewrite Hpc, Hs. Qed.

(** C2: what the code does.  With one thread, ports 1 to 3 and a first
    [socket] call that fails, the worker takes port 1, gets no socket and
    returns (line 248): the scan is over with ports 2 and 3 still in the
    queue, never handed out and never probed, and nothing in the log,
    although all three ports are open and every later [socket] call would
    have succeeded. *)
Theorem C2_socket_failure_ends_the_worker :
  finished (run first_socket_fails (round_robin 1 10) (init first_socket_fails 1)) ∧
  history (run first_socket_fails (round_robin 1 10) (init first_socket_fails 1)) =
    [Ev 0 1 ADispense; Ev 0 1 (ASocket None)] ∧
  index (q (run first_socket_fails (round_robin 1 10) (init first_socket_fails 1))) = 1 ∧
  size (q (run first_socket_fails (round_robin 1 10) (init first_socket_fails 1))) = 3 ∧
  file_disk (run first_socket_fails (round_robin 1 10) (init first_socket_fails 1)) = "" ∧
  (∀ more,
     run first_socket_fails (round_robin 1 10 ++ more) (init first_socket_fails 1) =
     run first_socket_fails (round_robin 1 10) (init first_socket_fails 1)).
Proof.
  assert (finished (run first_socket_fails (round_robin 1 10) (init first_socket_fails 1)))
    as Hf by (apply (bool_decide_unpack _); vm_compute; exact I).
  split; [exact Hf|].
  split; [vm_compute; reflexivity|].
  split; [vm_compute; reflexivity|].
  split; [vm_compute; reflexivity|].
  split; [vm_compute; reflexivity|].
  intros more. rewrite run_app. by apply finished_run.
Qed.

(** * Further properties of the scanner *)

(** As before, [range_ok] says that [q.size] is not negative, and a run is
    any schedule of the workers from the state in which [main] starts
    them. *)

(** ** The two mutexes *)

(** X1.  Mutual exclusion.  In every run a thread between the lock and the
    unlock of [q->lock] (lines 313-321) holds it, a thread between the lock
    and the unlock of [print_lock] (lines 264-302) holds that one, and no
    two threads are inside the same section at the same time. *)
Theorem X1_mutual_exclusion (c : config) (num_threads : Z) (sched : list nat)
    (t t' : nat) (th th' : thread) :
  range_ok c →
  let st := run c sched (init c num_threads) in
  threads st !! t = Some th → threads st !! t' = Some th' →
  (in_q_crit (at_pc th) → q_lock st = Some t) ∧
  (in_p_crit (at_pc th) → print_lock st = Some t) ∧
  (in_q_crit (at_pc th) → in_q_crit (at_pc th') → t = t') ∧
  (in_p_crit (at_pc th) → in_p_crit (at_pc th') → t = t').
Proof.
  intros Hr st Ht Ht'.
  pose proof (inv_run c num_threads sched Hr) as Hinv. fold st in Hinv.
  pose proof (inv_L _ _ Hinv _ _ Ht) as HL.
  pose proof (inv_L _ _ Hinv _ _ Ht') as HL'.
  split; [apply HL|]. split; [apply HL|]. split.
  - intros H1 H2. apply (L_qlock _ _ _ _ HL) in H1. apply (L_qlock _ _ _ _ HL') in H2.
    congruence.
  - intros H1 H2. apply (L_plock _ _ _ _ HL) in H1. apply (L_plock _ _ _ _ HL') in H2.
    congruence.
Qed.

Lemma X1_witness :
  range_ok demo ∧ q_lock (run demo [0; 1]%nat (init demo 2)) = Some 0%nat.
Proof.
  assert (range_ok demo) as Hr by (unfold range_ok; simpl; vm_compute; discriminate).
  split; [exact Hr|].
  exact (proj1 (X1_mutual_exclusion demo 2 [0; 1]%nat 0 1 (goto PCheck new_thread) new_thread
                  Hr eq_refl eq_refl) I).
Defined.

Lemma finished_q_lock_free c st : inv c st → finished st → q_lock st = None.
Proof.
  intros Hinv Hf. destruct (q_lock st) as [t|] eqn:Hq; [|done].
  destruct (lookup_lt_is_Some_2 _ _ (inv_q_holder _ _ Hinv _ Hq)) as [th Ht].
  pose proof (proj2 (L_qlock _ _ _ _ (inv_L _ _ Hinv _ _ Ht)) Hq) as Hc.
  rewrite (proj1 (Forall_forall _ _) Hf th (list_elem_of_lookup_2 _ _ _ Ht)) in Hc.
  done.
Qed.

(** X2.  In every run a worker that has returned holds neither mutex, also
    after the early return of line 248, and once all workers have returned
    both mutexes are free, so that [pthread_mutex_destroy] (line 201) is
    given an unlocked [q.lock]. *)
Theorem X2_no_lock_is_left_held (c : config) (num_threads : Z) (sched : list nat)
    (t : nat) (th : thread) :
  range_ok c →
  let st := run c sched (init c num_threads) in
  threads st !! t = Some th → at_pc th = PDone →
  q_lock st ≠ Some t ∧ print_lock st ≠ Some t ∧
  (finished st → q_lock st = None ∧ print_lock st = None).
Proof.
  intros Hr st Ht Hpc.
  pose proof (inv_run c num_threads sched Hr) as Hinv. fold st in Hinv.
  pose proof (inv_L _ _ Hinv _ _ Ht) as HL.
  split; [|split].
  - intros Hq. apply (L_qlock _ _ _ _ HL) in Hq. by rewrite Hpc in Hq.
  - intros Hp. apply (L_plock _ _ _ _ HL) in Hp. by rewrite Hpc in Hp.
  - intros Hf. split; [by apply (finished_q_lock_free c)|by apply (finished_print_lock_free c)].
Qed.

Lemma X2_witness :
  range_ok first_socket_fails ∧
  q_lock (run first_socket_fails (round_robin 1 10) (init first_socket_fails 1)) ≠ Some 0%nat.
Proof.
  assert (range_ok first_socket_fails) as Hr
    by (unfold range_ok; simpl; vm_compute; discriminate).
  split; [exact Hr|].
  exact (proj1 (X2_no_lock_is_left_held first_socket_fails 1 (round_robin 1 10) 0
                  (mkThread PDone 1 0 0 0 0 [] "") Hr eq_refl eq_refl)).
Defined.

(** ** Progress *)

(** A step that leaves the program point where it is changes nothing. *)
Lemma worker_step_stuck c t th st :
  at_pc (worker_step c t th st).1 = at_pc th → worker_step c t th st = (th, st).
Proof.
  unfold worker_step.
  destruct (at_pc th) eqn:Hpc;
    repeat first
      [ case_bool_decide
      | match goal with
        | |- context [match q_lock ?s with _ => _ end] => destruct (q_lock s) eqn:?
        | |- context [match print_lock ?s with _ => _ end] => destruct (print_lock s) eqn:?
        | |- context [match read_port ?a ?b with _ => _ end] => destruct (read_port a b) eqn:?
        | |- context [if socket_ok ?a ?b ?d then _ else _] => destruct (socket_ok a b d) eqn:?
        end ];
    simpl; intros Hstuck; try done; try (rewrite Hpc in Hstuck; discriminate Hstuck).
Qed.

Lemma set_thread_id t th st : threads st !! t = Some th → set_thread t th st = st.
Proof.
  intros H. destruct st. unfold set_thread. simpl in *. by rewrite list_insert_id.
Qed.

Lemma step_not_enabled c t st : ¬ enabled c t st → step c t st = st.
Proof.
  intros Hne. unfold step. destruct (threads st !! t) as [th|] eqn:Ht; [|done].
  destruct (decide (at_pc (worker_step c t th st).1 = at_pc th)) as [He|He].
  - rewrite (worker_step_stuck c t th st He). simpl. by apply set_thread_id.
  - destruct Hne. by exists th.
Qed.

(** Running a list of threads never raises the measure, and lowers it when
    one of them can move. *)
Lemma run_measure c l st :
  inv c st →
  (measure (run c l st) ≤ measure st)%nat ∧
  ((∃ t, t ∈ l ∧ enabled c t st) → (measure (run c l st) < measure st)%nat).
Proof.
  revert st. induction l as [|t0 l IH]; intros st Hinv.
  { split; [done|]. intros (t & Ht & _). by apply elem_of_nil in Ht. }
  change (run c (t0 :: l) st) with (run c l (step c t0 st)).
  destruct (decide (enabled c t0 st)) as [He|He].
  - pose proof (step_measure c t0 st Hinv He) as Hlt.
    destruct (IH (step c t0 st) (inv_step c t0 st Hinv)) as [Hle _].
    split; [lia|intros _; lia].
  - rewrite (step_not_enabled c t0 st He).
    destruct (IH st Hinv) as [Hle Hlt]. split; [done|].
    intros (t & Ht & Hen). apply Hlt. exists t. split; [|done].
    apply elem_of_cons in Ht as [->|Ht]; [done|done].
Qed.

Lemma can_finish_within c st :
  inv c st → ∃ sched, (length sched ≤ measure st)%nat ∧ finished (run c sched st).
Proof.
  remember (measure st) as m eqn:Hm. revert st Hm.
  induction m as [m IH] using lt_wf_ind. intros st -> Hinv.
  destruct (decide (finished st)) as [Hf|Hnf].
  { exists []. split; [simpl; lia|done]. }
  destruct (some_thread_enabled c st Hinv Hnf) as [t Hen].
  pose proof (step_measure c t st Hinv Hen) as Hlt.
  destruct (IH (measure (step c t st)) Hlt (step c t st) eq_refl (inv_step c t st Hinv))
    as (sched & Hlen & Hs).
  exists (t :: sched). split; [simpl; lia|done].
Qed.

Lemma measure_init c num_threads :
  range_ok c →
  measure (init c num_threads) =
  (4 * Z.to_nat (clamp_threads num_threads) +
   14 * Z.to_nat (wrap_int (end_ c - start c + 1)))%nat.
Proof.
  intros Hr. unfold measure, init. simpl.
  rewrite Z.sub_0_r. f_equal.
  induction (Z.to_nat (clamp_threads num_threads)) as [|k IH]; simpl; [done|].
  rewrite IH. lia.
Qed.

(** X3.  No deadlock, and the scan can always end.  In every state a run
    reaches, unless every worker has returned some thread can execute its
    next statement; and some continuation of the run, of at most 4 steps
    per thread and 14 per port, lets every worker return, so that the
    [pthread_join] calls of lines 186-187 return. *)
Theorem X3_scan_can_always_complete (c : config) (num_threads : Z) (sched : list nat) :
  range_ok c →
  let st := run c sched (init c num_threads) in
  (¬ finished st → ∃ t, enabled c t st) ∧
  ∃ more,
    (length more ≤ 4 * Z.to_nat (clamp_threads num_threads) +
                   14 * Z.to_nat (wrap_int (end_ c - start c + 1)))%nat ∧
    finished (run c (sched ++ more) (init c num_threads)).
Proof.
  intros Hr st.
  pose proof (inv_run c num_threads sched Hr) as Hinv. fold st in Hinv.
  split; [by apply some_thread_enabled|].
  destruct (can_finish_within c st Hinv) as (more & Hlen & Hf).
  exists more. split; [|by rewrite run_app].
  pose proof (run_measure c sched (init c num_threads) (inv_init c num_threads Hr)) as [Hle _].
  rewrite (measure_init c num_threads Hr) in Hle. fold st in Hle. lia.
Qed.

Lemma X3_witness :
  range_ok demo ∧
  ∃ more, (length more ≤ 64)%nat ∧ finished (run demo ([0; 1]%nat ++ more) (init demo 2)).
Proof.
  assert (range_ok demo) as Hr by (unfold range_ok; simpl; vm_compute; discriminate).
  split; [exact Hr|].
  exact (proj2 (X3_scan_can_always_complete demo 2 [0; 1]%nat Hr)).
Defined.

Lemma inv_run_from c l st : inv c st → inv c (run c l st).
Proof.
  revert st. induction l as [|t l IH]; intros st Hinv; [done|].
  change (run c (t :: l) st) with (run c l (step c t st)).
  apply IH. by apply inv_step.
Qed.

Lemma round_progress c st :
  inv c st → ¬ finished st →
  (measure (run c (seq 0 (length (threads st))) st) < measure st)%nat.
Proof.
  intros Hinv Hnf.
  destruct (some_thread_enabled c st Hinv Hnf) as [t Hen].
  apply (run_measure c _ st Hinv). exists t. split; [|done].
  destruct Hen as (th & Ht & _). apply elem_of_seq.
  pose proof (lookup_lt_Some _ _ _ Ht). lia.
Qed.

Lemma round_robin_S T k : round_robin T (S k) = seq 0 T ++ round_robin T k.
Proof. done. Qed.

Lemma rounds_finish c T k st :
  inv c st → length (threads st) = T → (measure st ≤ k)%nat →
  finished (run c (round_robin T k) st).
Proof.
  revert st. induction k as [|k IH]; intros st Hinv HT Hm.
  - destruct (decide (finished st)) as [Hf|Hnf]; [done|].
    pose proof (round_progress c st Hinv Hnf). lia.
  - destruct (decide (finished st)) as [Hf|Hnf].
    { by rewrite finished_run. }
    rewrite round_robin_S, run_app.
    pose proof (round_progress c st Hinv Hnf) as Hlt. rewrite HT in Hlt.
    apply IH; [by apply inv_run_from|by rewrite run_length|lia].
Qed.

(** X4.  Under round-robin scheduling the scan ends: after
    4 * threads + 14 * ports rounds, in each of which every thread is given
    one step, every worker has returned. *)
Theorem X4_round_robin_scan_terminates (c : config) (num_threads : Z) (rounds : nat) :
  range_ok c →
  (4 * Z.to_nat (clamp_threads num_threads) +
   14 * Z.to_nat (wrap_int (end_ c - start c + 1)) ≤ rounds)%nat →
  finished (run c (round_robin (Z.to_nat (clamp_threads num_threads)) rounds)
              (init c num_threads)).
Proof.
  intros Hr Hk. apply rounds_finish.
  - by apply inv_init.
  - simpl. by rewrite length_replicate.
  - by rewrite measure_init.
Qed.

Lemma X4_witness :
  range_ok demo ∧ finished (run demo (round_robin 2 64) (init demo 2)).
Proof.
  assert (range_ok demo) as Hr by (unfold range_ok; simpl; vm_compute; discriminate).
  split; [exact Hr|].
  apply (X4_round_robin_scan_terminates demo 2 64 Hr). vm_compute. lia.
Defined.

(** ** [get_next_port] under interleaving *)

(** X5.  The interleaved calls of [get_next_port] are as good as calls made
    one after the other: in every run, the threads that were handed a port,
    in the order in which they were, calling the function in turn on the
    queue [main] built, are handed exactly the ports the run handed them,
    and leave the queue the run has. *)
Theorem X5_interleaved_calls_are_sequential (c : config) (num_threads : Z) (sched : list nat) :
  range_ok c →
  let st := run c sched (init c num_threads) in
  calls (dispensed st).*1 (init_queue (start c) (end_ c)) = Some (dispensed st, q st).
Proof.
  intros Hr st.
  pose proof (inv_run c num_threads sched Hr) as Hinv. fold st in Hinv.
  pose proof (inv_G _ _ Hinv) as HG.
  destruct (run_ports c sched (init c num_threads)) as [Hp Hs]. fold st in Hp, Hs.
  change (q (init c num_threads)) with (init_queue (start c) (end_ c)) in Hp, Hs.
  set (q0 := init_queue (start c) (end_ c)) in *.
  pose proof (G_dispensed _ HG) as Hd. fold (dispensed st) in Hd. rewrite Hp in Hd.
  pose proof (G_index _ HG) as Hi. pose proof (G_size _ HG) as Hsz.
  rewrite Hp in Hsz.
  assert (length (dispensed st) = Z.to_nat (index (q st))) as Hlen.
  { rewrite <- (length_fmap snd), Hd, length_take. lia. }
  rewrite (calls_spec _ _ (init_queue_wf _ _ Hr)). fold q0.
  rewrite length_fmap, Hlen. change (index q0) with 0.
  change (Z.to_nat 0) with 0%nat. rewrite drop_0.
  replace (Z.to_nat (index (q st)) - Z.to_nat (size q0 - 0))%nat with 0%nat by lia.
  simpl replicate. rewrite app_nil_r, <- Hd, zip_fst_snd.
  f_equal. f_equal.
  destruct (q st) as [ps sz ix]. simpl in Hp, Hs, Hi. subst ps sz.
  unfold set_index. f_equal. simpl index.
  unfold q0 in Hi. simpl size in Hi. unfold q0. simpl size. lia.
Qed.

Lemma X5_witness :
  range_ok demo ∧
  calls [0; 1; 0; 0]%nat (init_queue 79 82) =
  Some ([(0%nat, 79); (1%nat, 80); (0%nat, 81); (0%nat, 82)],
        q (run demo (round_robin 2 40) (init demo 2))).
Proof.
  assert (range_ok demo) as Hr by (unfold range_ok; simpl; vm_compute; discriminate).
  split; [exact Hr|].
  exact (X5_interleaved_calls_are_sequential demo 2 (round_robin 2 40) Hr).
Defined.

Lemma step_at c t th st :
  threads st !! t = Some th →
  step c t st = set_thread t (worker_step c t th st).1 (worker_step c t th st).2.
Proof. intros H. unfold step. by rewrite H. Qed.

(** X6.  The statements of [get_next_port] (lines 313-322) and the test of
    line 238, executed by one thread without interruption from a state in
    which [q->lock] is free, do what the function [get_next_port] says:
    they leave the queue it returns and the lock free, and the thread has
    the value it returns in [port], out of the loop when that value is -1
    and about to create its socket otherwise. *)
Theorem X6_get_next_port_statements_compose
    (c : config) (t : nat) (th : thread) (st : state) (r : Z) (q' : JobQueue) :
  threads st !! t = Some th → at_pc th = PGet → q_lock st = None →
  get_next_port (q st) = Some (r, q') →
  q (run c (replicate 5 t) st) = q' ∧
  q_lock (run c (replicate 5 t) st) = None ∧
  ∃ th', threads (run c (replicate 5 t) st) !! t = Some th' ∧
         port th' = r ∧
         at_pc th' = if bool_decide (r = -1) then PDone else PSocket.
Proof.
  intros Ht Hpc Hq Hg.
  pose proof (lookup_lt_Some _ _ _ Ht) as Hlt.
  unfold get_next_port in Hg.
  change (run c (replicate 5 t) st)
    with (step c t (step c t (step c t (step c t (step c t st))))).
  (* line 313 *)
  set (st1 := set_thread t (goto PCheck th) (set_q_lock (Some t) st)).
  assert (step c t st = st1) as ->.
  { rewrite (step_at c t th st Ht). unfold worker_step. by rewrite Hpc, Hq. }
  assert (threads st1 !! t = Some (goto PCheck th)) as Ht1
    by (by apply list_lookup_insert_eq).
  (* line 315 *)
  destruct (decide (size (q st) ≤ index (q st))) as [Hx|Hx].
  - rewrite bool_decide_eq_true_2 in Hg by done.
    injection Hg as <- <-.
    set (th2 := goto PUnlockEmpty (goto PCheck th)).
    set (st2 := set_thread t th2 st1).
    assert (step c t st1 = st2) as ->.
    { rewrite (step_at c t _ st1 Ht1). unfold worker_step. simpl at_pc. cbv iota.
      change (q st1) with (q st). by rewrite bool_decide_eq_true_2. }
    assert (threads st2 !! t = Some th2) as Ht2.
    { apply list_lookup_insert_eq. unfold st1. simpl. by rewrite length_insert. }
    (* lines 316-317 and 238-239 *)
    set (th3 := goto PDone (set_port (-1) th2)).
    set (st3 := set_thread t th3 (set_q_lock None st2)).
    assert (step c t st2 = st3) as ->.
    { rewrite (step_at c t _ st2 Ht2). unfold worker_step, th2. simpl at_pc. cbv iota.
      case_bool_decide as Hb; [reflexivity|by destruct Hb]. }
    assert (threads st3 !! t = Some th3) as Ht3.
    { apply list_lookup_insert_eq. unfold st2, st1. simpl. by rewrite !length_insert. }
    (* the thread has returned *)
    set (st4 := set_thread t th3 st3).
    assert (step c t st3 = st4) as ->
      by (rewrite (step_at c t _ st3 Ht3); reflexivity).
    assert (threads st4 !! t = Some th3) as Ht4.
    { apply list_lookup_insert_eq. unfold st3, st2, st1. simpl.
      by rewrite !length_insert. }
    rewrite (step_at c t _ st4 Ht4).
    split; [reflexivity|]. split; [reflexivity|].
    exists th3. split; [|split; reflexivity].
    apply list_lookup_insert_eq. unfold st4, st3, st2, st1. simpl.
    by rewrite !length_insert.
  - rewrite bool_decide_eq_false_2 in Hg by done.
    destruct (read_port (q st) (index (q st))) as [p|] eqn:Hrd; [|done].
    injection Hg as <- <-.
    set (th2 := goto PRead (goto PCheck th)).
    set (st2 := set_thread t th2 st1).
    assert (step c t st1 = st2) as ->.
    { rewrite (step_at c t _ st1 Ht1). unfold worker_step. simpl at_pc. cbv iota.
      change (q st1) with (q st). by rewrite bool_decide_eq_false_2. }
    assert (threads st2 !! t = Some th2) as Ht2.
    { apply list_lookup_insert_eq. unfold st1. simpl. by rewrite length_insert. }
    (* line 320, the loads *)
    set (th3 := goto PInc (set_port p (set_i (index (q st)) th2))).
    set (st3 := set_thread t th3 st2).
    assert (step c t st2 = st3) as ->.
    { rewrite (step_at c t _ st2 Ht2). unfold worker_step, th2. simpl at_pc. cbv iota.
      change (q st2) with (q st). by rewrite Hrd. }
    assert (threads st3 !! t = Some th3) as Ht3.
    { apply list_lookup_insert_eq. unfold st2, st1. simpl. by rewrite !length_insert. }
    (* line 320, the store *)
    set (st4 := set_thread t (goto PUnlock th3)
                  (emit (Ev t p ADispense)
                     (set_q (set_index (wrap_int (index (q st) + 1)) (q st)) st3))).
    assert (step c t st3 = st4) as ->
      by (rewrite (step_at c t _ st3 Ht3); reflexivity).
    assert (threads st4 !! t = Some (goto PUnlock th3)) as Ht4.
    { apply list_lookup_insert_eq. unfold st3, st2, st1. simpl.
      by rewrite !length_insert. }
    (* lines 321-322 and 238 *)
    rewrite (step_at c t _ st4 Ht4). unfold worker_step, th3. simpl at_pc. cbv iota.
    case_bool_decide as Hb; [|by destruct Hb].
    simpl fst. simpl snd.
    split; [reflexivity|]. split; [reflexivity|].
    eexists. split.
    + apply list_lookup_insert_eq. unfold st4, st3, st2, st1. simpl.
      by rewrite !length_insert.
    + split; reflexivity.
Qed.

Lemma X6_witness :
  q (run demo (replicate 5 0%nat) (init demo 1)) = set_index 1 (init_queue 79 82).
Proof.
  exact (proj1 (X6_get_next_port_statements_compose demo 0 new_thread (init demo 1) 79
                  (set_index 1 (init_queue 79 82)) eq_refl eq_refl eq_refl eq_refl)).
Defined.

(** ** Once per port *)

(** The events about a port are an initial part of one iteration. *)
Lemma events_on_prefix c st p :
  inv c st → ∃ t h k, events_on p (trace st) = take k (probe_events c t p h).
Proof.
  intros Hinv. pose proof (inv_G _ _ Hinv) as HG.
  destruct (decide (Exists (λ e, ev_port e = p) (trace st)))
    as [(e & He & Hp)%Exists_exists|Hno].
  - destruct (G_events _ HG e He) as (k & Hk & Hrd). rewrite Hp in Hrd.
    destruct (inv_done _ _ Hinv k p Hk Hrd) as [(t & th & Ht & Hc & Hi)|(t & h & Hev)].
    + pose proof (inv_L _ _ Hinv _ _ Ht) as HL.
      destruct (L_claim _ _ _ _ HL Hc) as [_ Hrd']. rewrite Hi in Hrd'.
      assert (port th = p) as Hpp by congruence.
      pose proof (L_hist _ _ _ _ HL Hc) as Hh. rewrite Hpp in Hh.
      by exists t, (Some (s th)), (emitted c th).
    + exists t, h, (length (probe_events c t p h)). by rewrite firstn_all.
  - exists 0%nat, None, 0%nat. rewrite take_0. apply events_on_nil.
    intros e He Hp. apply Hno, Exists_exists. by exists e.
Qed.

Lemma length_filter_take {A} (P : A → Prop) `{!∀ x, Decision (P x)} (l : list A) k :
  (length (filter P (take k l)) ≤ length (filter P l))%nat.
Proof.
  revert k. induction l as [|x l IH]; intros [|k]; simpl; try lia.
  rewrite !filter_cons. specialize (IH k). destruct (decide (P x)); simpl; lia.
Qed.

(** When the events about each port hold at most one event of a kind, the
    ports of the events of that kind are all different. *)
Lemma ports_once (f : event → bool) (l : list event) :
  (∀ p, (length (filter (λ e, f e) (filter (λ e, ev_port e = p) l)) ≤ 1)%nat) →
  NoDup (ev_port <$> filter (λ e, f e) l).
Proof.
  induction l as [|e l IH]; intros H; [constructor|].
  assert (NoDup (ev_port <$> filter (λ e, f e) l)) as HND.
  { apply IH. intros p. specialize (H p). rewrite filter_cons in H.
    destruct (decide (ev_port e = p)); [|done].
    rewrite filter_cons in H. destruct (decide (f e)); simpl in H; lia. }
  rewrite filter_cons. destruct (decide (f e)) as [Hf|Hf]; [|done].
  rewrite fmap_cons. apply NoDup_cons. split; [|done].
  intros (e' & Hp & [Hf' He']%list_elem_of_filter)%list_elem_of_fmap.
  specialize (H (ev_port e)).
  rewrite filter_cons, decide_True in H by done.
  rewrite filter_cons, decide_True in H by done.
  assert (e' ∈ filter (λ e0, f e0) (filter (λ e0, ev_port e0 = ev_port e) l)) as Hin.
  { apply list_elem_of_filter. split; [done|]. apply list_elem_of_filter. by split. }
  destruct (filter (λ e0, f e0) (filter (λ e0, ev_port e0 = ev_port e) l));
    [by apply elem_of_nil in Hin|simpl in H; lia].
Qed.

Lemma probe_events_one_fprintf c t p h :
  (length (filter (λ e, is_fprintf e) (probe_events c t p h)) ≤ 1)%nat.
Proof.
  unfold probe_events. destruct h; repeat case_bool_decide; vm_compute; lia.
Qed.

(** X7.  In every run, under every schedule and with any number of
    workers, no port is written to the log twice. *)
Theorem X7_no_port_is_reported_twice (c : config) (num_threads : Z) (sched : list nat) :
  range_ok c → NoDup (reported (run c sched (init c num_threads))).
Proof.
  intros Hr. pose proof (inv_run c num_threads sched Hr) as Hinv.
  set (st := run c sched (init c num_threads)) in *.
  unfold reported, history. apply (ports_once is_fprintf). intros p.
  destruct (events_on_prefix c st p Hinv) as (t & h & k & Hev).
  unfold events_on in Hev. rewrite Hev.
  etrans; [|apply (probe_events_one_fprintf c t p h)].
  apply length_filter_take.
Qed.

Lemma X7_witness :
  range_ok demo ∧ NoDup (reported (run demo (round_robin 2 40) (init demo 2))).
Proof.
  assert (range_ok demo) as Hr by (unfold range_ok; simpl; vm_compute; discriminate).
  split; [exact Hr|].
  exact (X7_no_port_is_reported_twice demo 2 (round_robin 2 40) Hr).
Defined.

(** Ranges of [int] values whose size fits an [int]. *)
Lemma wide_range_ok c :
  INT_MIN ≤ start c → start c ≤ end_ c → end_ c ≤ INT_MAX →
  end_ c - start c < INT_MAX → range_ok c.
Proof.
  intros. unfold range_ok. rewrite wrap_int_id; unfold INT_MIN, INT_MAX in *; lia.
Qed.

Lemma wide_range_ports c num_threads sched e :
  INT_MIN ≤ start c → start c ≤ end_ c → end_ c ≤ INT_MAX →
  end_ c - start c < INT_MAX →
  e ∈ trace (run c sched (init c num_threads)) → start c ≤ ev_port e ≤ end_ c.
Proof.
  intros H1 H2 H3 H4 He.
  pose proof (trace_port_in_range c num_threads sched e (wide_range_ok c H1 H2 H3 H4) He)
    as Hin.
  destruct (init_queue_ports (start c) (end_ c)) as [Hp _]; [done|done|lia|].
  rewrite Hp in Hin. apply elem_of_seqZ in Hin. lia.
Qed.

Lemma probe_events_one_connect c t p h :
  (length (filter (λ e, is_connect e) (probe_events c t p h)) ≤ 1)%nat.
Proof.
  unfold probe_events. destruct h; repeat case_bool_decide; vm_compute; lia.
Qed.

Lemma connected_NoDup c st : inv c st → NoDup (connected st).
Proof.
  intros Hinv. unfold connected, history. apply ports_once. intros p.
  destruct (events_on_prefix c st p Hinv) as (t & h & k & Hev).
  unfold events_on in Hev. rewrite Hev.
  etrans; [|apply (probe_events_one_connect c t p h)].
  apply length_filter_take.
Qed.

Lemma elem_of_connected st p :
  p ∈ connected st ↔ ∃ e, e ∈ trace st ∧ is_connect e ∧ ev_port e = p.
Proof.
  unfold connected, history. rewrite list_elem_of_fmap. split.
  - intros (e & -> & [Hc He]%list_elem_of_filter). exists e.
    by apply (proj1 (elem_of_reverse _ _)) in He.
  - intros (e & He & Hc & <-). exists e. split; [done|].
    apply list_elem_of_filter. split; [done|]. by apply elem_of_reverse.
Qed.

Lemma probe_events_connect c t p h :
  p ≠ -1 → Ev t p (AConnect (connect_result c p)) ∈ probe_events c t p (Some h).
Proof.
  intros Hp. unfold probe_events. rewrite bool_decide_eq_false_2 by done.
  do 2 right. left.
Qed.

(** X8.  For a range that does not hold the value -1: in every run
    [connect] is called at most once for a port, and for ports of the range
    only; and a scan in which all workers have returned and no [socket]
    call has failed has called it for every port of the range. *)
Theorem X8_every_port_is_connected_to_once
    (c : config) (num_threads : Z) (sched : list nat) :
  INT_MIN ≤ start c → start c ≤ end_ c → end_ c ≤ INT_MAX →
  end_ c - start c < INT_MAX → (end_ c < -1 ∨ -1 < start c) →
  let st := run c sched (init c num_threads) in
  NoDup (connected st) ∧
  (∀ p, p ∈ connected st → start c ≤ p ≤ end_ c) ∧
  (finished st → no_socket_failure st →
   connected st ≡ₚ seqZ (start c) (end_ c - start c + 1)).
Proof.
  intros H1 H2 H3 H4 H5 st.
  pose proof (wide_range_ok c H1 H2 H3 H4) as Hr.
  pose proof (inv_run c num_threads sched Hr) as Hinv. fold st in Hinv.
  pose proof (λ e, wide_range_ports c num_threads sched e H1 H2 H3 H4) as Hrange.
  assert (∀ p, p ∈ connected st → start c ≤ p ≤ end_ c) as Hin.
  { intros p (e & He & _ & <-)%elem_of_connected. by apply Hrange. }
  split; [by apply (connected_NoDup c)|]. split; [done|].
  intros Hf Hnf. apply NoDup_Permutation.
  - by apply (connected_NoDup c).
  - apply NoDup_seqZ.
  - intros p. rewrite elem_of_seqZ. split.
    { intros Hp. specialize (Hin p Hp). lia. }
    intros Hp.
    destruct (init_queue_ports (start c) (end_ c)) as [Hports Hsize]; [done|done|lia|].
    destruct (run_ports c sched (init c num_threads)) as [Hp0 Hs0]. fold st in Hp0, Hs0.
    change (q (init c num_threads)) with (init_queue (start c) (end_ c)) in Hp0, Hs0.
    assert (index (q st) = size (q st)) as Hx.
    { apply (finished_exhausted c); try done.
      - apply run_threads_nonempty.
      - by apply Forall_forall.
      - intros e He Hm. specialize (Hrange e He). lia. }
    assert (p ≠ -1) as Hp1 by lia.
    destruct (finished_complete c _ (p - start c) p Hinv Hf) as (t & h & Hh).
    { rewrite Hx, Hs0, Hsize. lia. }
    { apply read_port_Some. rewrite Hp0, Hports, lookup_seqZ. split; [lia|]. split; lia. }
    apply elem_of_connected. destruct h as [h|].
    + exists (Ev t p (AConnect (connect_result c p))). split; [|done].
      pose proof (probe_events_connect c t p h Hp1) as Hin'.
      rewrite <- Hh in Hin'. by apply events_on_elem in Hin' as [? _].
    + pose proof (probe_events_socket_none c t p Hp1) as Hin'.
      rewrite <- Hh in Hin'. apply events_on_elem in Hin' as [Hin' _].
      by destruct (proj1 (Forall_forall _ _) Hnf _ Hin').
Qed.

Lemma X8_witness :
  NoDup (connected (run demo (round_robin 2 40) (init demo 2))).
Proof.
  exact (proj1 (X8_every_port_is_connected_to_once demo 2 (round_robin 2 40)
                  ltac:(vm_compute; discriminate) ltac:(vm_compute; discriminate)
                  ltac:(vm_compute; discriminate) ltac:(vm_compute; reflexivity)
                  ltac:(right; vm_compute; reflexivity))).
Defined.

(** ** Resources and names *)

(** X9.  In every run the number of sockets open at a time is at most the
    number of worker threads, which is [num_threads] clamped to 1..5000. *)
Theorem X9_open_sockets_bounded_by_workers (c : config) (num_threads : Z) (sched : list nat) :
  range_ok c →
  let st := run c sched (init c num_threads) in
  (length (open_socks st) ≤ length (threads st))%nat ∧
  length (threads st) = Z.to_nat (clamp_threads num_threads) ∧
  (length (open_socks st) ≤ 5000)%nat.
Proof.
  intros Hr st. pose proof (inv_run c num_threads sched Hr) as Hinv. fold st in Hinv.
  assert (length (open_socks st) ≤ length (threads st))%nat as Hle.
  { rewrite <- (length_fmap s (threads st)).
    apply submseteq_length, NoDup_submseteq; [apply (G_socks _ (inv_G _ _ Hinv))|].
    intros h Hh. destruct (inv_socks _ _ Hinv h Hh) as (t & th & Ht & _ & Hs).
    apply list_elem_of_fmap. exists th. split; [done|].
    by apply list_elem_of_lookup_2 in Ht. }
  assert (length (threads st) = Z.to_nat (clamp_threads num_threads)) as Hlen.
  { unfold st. rewrite run_length. simpl. by rewrite length_replicate. }
  split; [done|]. split; [done|].
  pose proof (clamp_threads_pos num_threads). lia.
Qed.

Lemma X9_witness :
  range_ok demo ∧ (length (open_socks (run demo (round_robin 2 3) (init demo 2))) ≤ 2)%nat.
Proof.
  assert (range_ok demo) as Hr by (unfold range_ok; simpl; vm_compute; discriminate).
  split; [exact Hr|].
  destruct (X9_open_sockets_bounded_by_workers demo 2 (round_robin 2 3) Hr) as (H1 & H2 & _).
  rewrite H2 in H1. exact H1.
Defined.

Lemma step_tid c t st e :
  e ∈ trace (step c t st) → e ∈ trace st ∨ (ev_tid e < length (threads st))%nat.
Proof.
  unfold step. destruct (threads st !! t) as [th|] eqn:Ht; [|by left].
  simpl. destruct (step_trace c t th st) as [->|(e' & -> & _ & Htid & _)]; [by left|].
  intros [->|He]%elem_of_cons; [|by left].
  right. rewrite Htid. by apply lookup_lt_Some in Ht.
Qed.

Lemma run_tid c sched st e :
  e ∈ trace (run c sched st) → e ∈ trace st ∨ (ev_tid e < length (threads st))%nat.
Proof.
  revert st. induction sched as [|t sched IH]; intros st He; [by left|].
  change (run c (t :: sched) st) with (run c sched (step c t st)) in He.
  destruct (IH _ He) as [H|H].
  - by apply step_tid in H.
  - right. by rewrite step_length in H.
Qed.

(** X10.  Every event of a run, and so every line printed or logged, names
    a thread id from 0 to the clamped [num_threads] - 1 and a port of the
    range [start, end]. *)
Theorem X10_events_name_a_worker_and_a_port_of_the_range
    (c : config) (num_threads : Z) (sched : list nat) (e : event) :
  INT_MIN ≤ start c → start c ≤ end_ c → end_ c ≤ INT_MAX →
  end_ c - start c < INT_MAX →
  e ∈ trace (run c sched (init c num_threads)) →
  0 ≤ Z.of_nat (ev_tid e) < clamp_threads num_threads ∧
  start c ≤ ev_port e ≤ end_ c.
Proof.
  intros H1 H2 H3 H4 He.
  assert (range_ok c) as Hr.
  { unfold range_ok. rewrite wrap_int_id; unfold INT_MIN, INT_MAX in *; lia. }
  split.
  - destruct (run_tid _ _ _ _ He) as [Hn|Hlt]; [by apply elem_of_nil in Hn|].
    simpl in Hlt. rewrite length_replicate in Hlt.
    pose proof (clamp_threads_pos num_threads). lia.
  - pose proof (trace_port_in_range c num_threads sched e Hr He) as Hin.
    destruct (init_queue_ports (start c) (end_ c)) as [Hp _]; [done|done|lia|].
    rewrite Hp in Hin. apply elem_of_seqZ in Hin. lia.
Qed.

Lemma X10_witness :
  Ev 1 80 AFlush ∈ trace (run demo (round_robin 2 40) (init demo 2)) ∧
  0 ≤ Z.of_nat 1 < clamp_threads 2 ∧ 79 ≤ 80 ≤ 82.
Proof.
  assert (Ev 1 80 AFlush ∈ trace (run demo (round_robin 2 40) (init demo 2))) as He
    by (apply (bool_decide_unpack _); vm_compute; exact I).
  split; [exact He|].
  apply (X10_events_name_a_worker_and_a_port_of_the_range demo 2 (round_robin 2 40)
           (Ev 1 80 AFlush)); [vm_compute; discriminate..|reflexivity|exact He].
Defined.

(** ** A failed [socket] call *)

Lemma socket_failure_event c t th st e :
  trace (worker_step c t th st).2 = e :: trace st → ev_act e = ASocket None →
  at_pc (worker_step c t th st).1 = PDone.
Proof.
  unfold worker_step.
  destruct (at_pc th) eqn:Hpc;
    repeat first
      [ case_bool_decide
      | match goal with
        | |- context [match q_lock ?s with _ => _ end] => destruct (q_lock s) eqn:?
        | |- context [match print_lock ?s with _ => _ end] => destruct (print_lock s) eqn:?
        | |- context [match read_port ?a ?b with _ => _ end] => destruct (read_port a b) eqn:?
        | |- context [if socket_ok ?a ?b ?d then _ else _] => destruct (socket_ok a b d) eqn:?
        end ];
    simpl; intros Htr Hact;
    try (by apply (f_equal length) in Htr; simpl in Htr; lia);
    try (injection Htr as <-; simpl in Hact; done).
Qed.

Lemma failed_worker_has_returned c sched st :
  (∀ t p, Ev t p (ASocket None) ∈ trace st →
          ∃ th, threads st !! t = Some th ∧ at_pc th = PDone) →
  ∀ t p, Ev t p (ASocket None) ∈ trace (run c sched st) →
         ∃ th, threads (run c sched st) !! t = Some th ∧ at_pc th = PDone.
Proof.
  revert st. induction sched as [|t0 sched IH]; intros st H; [done|].
  change (run c (t0 :: sched) st) with (run c sched (step c t0 st)).
  apply IH. clear IH. intros t p He.
  unfold step in *. destruct (threads st !! t0) as [th0|] eqn:Ht0; [|by apply (H t p)].
  simpl in *. rewrite step_threads.
  pose proof (lookup_lt_Some _ _ _ Ht0) as Hlt.
  destruct (step_trace c t0 th0 st) as [Htr|(e & Htr & _ & Htid & _)].
  - rewrite Htr in He. destruct (H t p He) as (th & Ht & Hd).
    destruct (decide (t = t0)) as [->|Hne].
    + rewrite list_lookup_insert_eq by done. eexists. split; [done|].
      assert (th0 = th) as -> by congruence. unfold worker_step. by rewrite Hd.
    + rewrite list_lookup_insert_ne by done. by exists th.
  - rewrite Htr in He. apply elem_of_cons in He as [He|He].
    + subst e. simpl in Htid. subst t0.
      rewrite list_lookup_insert_eq by done. eexists. split; [done|].
      by apply (socket_failure_event c t th0 st _ Htr).
    + destruct (H t p He) as (th & Ht & Hd).
      destruct (decide (t = t0)) as [->|Hne].
      * rewrite list_lookup_insert_eq by done. eexists. split; [done|].
        assert (th0 = th) as -> by congruence. unfold worker_step. by rewrite Hd.
      * rewrite list_lookup_insert_ne by done. by exists th.
Qed.

(** X11.  When [socket] fails (line 247), in every run: the port the thread
    had taken has been handed out and nothing else is ever done about it,
    no [connect] and no line of output, and the thread has returned. *)
Theorem X11_failed_socket_loses_the_port_and_the_worker
    (c : config) (num_threads : Z) (sched : list nat) (t : nat) (p : Z) :
  range_ok c →
  let st := run c sched (init c num_threads) in
  Ev t p (ASocket None) ∈ trace st →
  port_events p st = [Ev t p ADispense; Ev t p (ASocket None)] ∧
  (∃ th, threads st !! t = Some th ∧ at_pc th = PDone) ∧
  (p ∉ connected st) ∧ (p ∉ reported st).
Proof.
  intros Hr st He.
  pose proof (inv_run c num_threads sched Hr) as Hinv. fold st in Hinv.
  assert (port_events p st = [Ev t p ADispense; Ev t p (ASocket None)]) as Hev.
  { unfold port_events.
    destruct (events_on_prefix c st p Hinv) as (t' & h & k & Hk).
    assert (Ev t p (ASocket None) ∈ take k (probe_events c t' p h)) as Hin.
    { rewrite <- Hk. by apply elem_of_events_on. }
    pose proof (probe_events_ok c t' p h _ (subseteq_take _ _ _ Hin)) as (Ht & _ & Hh & Hp).
    simpl in Ht, Hh, Hp. subst t' h. rewrite Hk.
    unfold probe_events in *. rewrite bool_decide_eq_false_2 in * by done.
    destruct k as [|[|[|k]]]; simpl in *; try done.
    - by apply elem_of_nil in Hin.
    - apply elem_of_cons in Hin as [Hin|Hin]; [done|by apply elem_of_nil in Hin]. }
  split; [done|]. split.
  - apply (failed_worker_has_returned c sched (init c num_threads)) with p; [|done].
    intros ? ? Hn. by apply elem_of_nil in Hn.
  - split.
    + intros (e & Hin & Hc & Hp)%elem_of_connected.
      pose proof (elem_of_events_on p e _ Hin Hp) as Hin'.
      fold (port_events p st) in Hin'. rewrite Hev in Hin'.
      repeat (apply elem_of_cons in Hin' as [->|Hin']; [done|]).
      by apply elem_of_nil in Hin'.
    + intros (e & Hin & Hc & Hp)%elem_of_reported.
      pose proof (elem_of_events_on p e _ Hin Hp) as Hin'.
      fold (port_events p st) in Hin'. rewrite Hev in Hin'.
      repeat (apply elem_of_cons in Hin' as [->|Hin']; [done|]).
      by apply elem_of_nil in Hin'.
Qed.

Lemma X11_witness :
  range_ok first_socket_fails ∧
  Ev 0 1 (ASocket None)
    ∈ trace (run first_socket_fails (round_robin 1 10) (init first_socket_fails 1)) ∧
  (1 ∉ reported (run first_socket_fails (round_robin 1 10) (init first_socket_fails 1))).
Proof.
  assert (range_ok first_socket_fails) as Hr
    by (unfold range_ok; simpl; vm_compute; discriminate).
  assert (Ev 0 1 (ASocket None)
            ∈ trace (run first_socket_fails (round_robin 1 10) (init first_socket_fails 1)))
    as He by (apply (bool_decide_unpack _); vm_compute; exact I).
  split; [exact Hr|]. split; [exact He|].
  destruct (X11_failed_socket_loses_the_port_and_the_worker first_socket_fails 1
              (round_robin 1 10) 0 1 Hr He) as (_ & _ & _ & H).
  exact H.
Defined.

(** ** The banner *)

Lemma probe_recv_junk c junk p :
  (probe_recv (set_junk junk c) p).1 = (probe_recv c p).1.
Proof.
  unfold probe_recv. simpl. case_bool_decide; [done|].
  unfold recv. simpl. by destruct (recv_data c p).
Qed.

(** With a banner, [%s] prints the bytes received, up to the first NUL. *)
Lemma c_str_probe_banner c p :
  0 < (probe_recv c p).1 →
  ∃ data, recv_data c p = Some data ∧ FULL_MODE c ≠ 0 ∧
          (probe_recv c p).1 = Z.of_nat (length (take RECV_LEN data)) ∧
          c_str (probe_banner c p) = c_str (take RECV_LEN data).
Proof.
  intros Hn.
  destruct (decide (FULL_MODE c = 0)) as [Hf|Hf].
  { rewrite (probe_recv_fast c p Hf) in Hn. simpl in Hn. lia. }
  destruct (probe_recv_bounds c p) as [Hle Hlen].
  unfold probe_banner, terminate. rewrite bool_decide_eq_true_2 by done.
  rewrite c_str_terminated by (rewrite Hlen; unfold BANNER_SIZE, RECV_LEN in *; lia).
  rewrite (probe_recv_full c p Hf) in *.
  destruct (recv_positive c p (alloc_banner c) RECV_LEN) as (data & Hd & Hn' & Ht);
    [rewrite alloc_banner_length; unfold BANNER_SIZE, RECV_LEN; lia|done|].
  exists data. by rewrite Ht.
Qed.

Lemma c_str_probe_banner_junk c junk p :
  0 < (probe_recv c p).1 →
  c_str (probe_banner (set_junk junk c) p) = c_str (probe_banner c p).
Proof.
  intros Hn.
  destruct (c_str_probe_banner c p Hn) as (data & Hd & _ & _ & ->).
  assert (0 < (probe_recv (set_junk junk c) p).1) as Hn' by by rewrite probe_recv_junk.
  destruct (c_str_probe_banner _ p Hn') as (data' & Hd' & _ & _ & ->).
  simpl in Hd'. congruence.
Qed.

Lemma file_line_banner t p n b b' sv :
  (0 < n → c_str b = c_str b') → file_line t p n b sv = file_line t p n b' sv.
Proof. intros H. unfold file_line. case_bool_decide; [by rewrite H|done]. Qed.

Lemma console_line_banner t p n b b' sv :
  (0 < n → c_str b = c_str b') → console_line t p n b sv = console_line t p n b' sv.
Proof. intros H. unfold console_line. case_bool_decide; [by rewrite H|done]. Qed.

Lemma file_text_junk c junk r : file_text (set_junk junk c) r = file_text c r.
Proof.
  unfold file_text. rewrite probe_recv_junk.
  apply file_line_banner. apply c_str_probe_banner_junk.
Qed.

Lemma console_text_junk c junk r : console_text (set_junk junk c) r = console_text c r.
Proof.
  unfold console_text. rewrite probe_recv_junk.
  apply console_line_banner. apply c_str_probe_banner_junk.
Qed.

Lemma c_str_length (buf : list ascii) : (String.length (c_str buf) ≤ length buf)%nat.
Proof.
  induction buf as [|a buf IH]; simpl; [done|]. case_bool_decide; simpl; lia.
Qed.

(** X12.  The bytes of the uninitialised [banner] array never reach the
    output: every line a run prints or logs is the line the same scan
    prints with any other contents of that array.  The banner shown is the
    bytes received, at most 511 of them, up to their first NUL byte. *)
Theorem X12_uninitialised_bytes_are_never_printed
    (c : config) (num_threads : Z) (sched : list nat) (junk : list ascii)
    (e : event) (line : string) :
  range_ok c →
  e ∈ trace (run c sched (init c num_threads)) →
  (ev_act e = APrintf line →
   line = console_text (set_junk junk c) (ev_tid e, ev_port e)) ∧
  (ev_act e = AFprintf line →
   line = file_text (set_junk junk c) (ev_tid e, ev_port e)) ∧
  (0 < (probe_recv c (ev_port e)).1 →
   ∃ data, recv_data c (ev_port e) = Some data ∧
           (probe_recv c (ev_port e)).1 = Z.of_nat (length (take 511 data)) ∧
           c_str (probe_banner c (ev_port e)) = c_str (take 511 data) ∧
           (String.length (c_str (probe_banner c (ev_port e))) ≤ 511)%nat).
Proof.
  intros Hr He.
  destruct (run_event_ok c num_threads sched e Hr He) as (h & _ & _ & Hact).
  split; [|split].
  - intros Ha. rewrite Ha in Hact. destruct Hact as [-> _]. by rewrite console_text_junk.
  - intros Ha. rewrite Ha in Hact. destruct Hact as [-> _]. by rewrite file_text_junk.
  - intros Hn. destruct (c_str_probe_banner c _ Hn) as (data & Hd & _ & Hl & Hc).
    exists data. split; [done|]. split; [done|]. split; [done|].
    rewrite Hc. etrans; [apply c_str_length|]. rewrite length_take. unfold RECV_LEN. lia.
Qed.

Lemma X12_witness :
  range_ok demo ∧
  Ev 1 80 AFlush ∈ trace (run demo (round_robin 2 40) (init demo 2)) ∧
  file_text demo (1%nat, 80) = file_text (set_junk ["x"; "y"]%char demo) (1%nat, 80).
Proof.
  assert (range_ok demo) as Hr by (unfold range_ok; simpl; vm_compute; discriminate).
  assert (Ev 1 80 (AFprintf (file_text demo (1%nat, 80)))
            ∈ trace (run demo (round_robin 2 40) (init demo 2))) as He
    by (apply (bool_decide_unpack _); vm_compute; exact I).
  split; [exact Hr|]. split; [apply (bool_decide_unpack _); vm_compute; exact I|].
  destruct (X12_uninitialised_bytes_are_never_printed demo 2 (round_robin 2 40)
              ["x"; "y"]%char _ (file_text demo (1%nat, 80)) Hr He) as (_ & H & _).
  exact (H eq_refl).
Defined.

(** X13.  The line printed on the console is the line written to the log
    with the two colour codes added: green in front, reset after [OPEN]
    and, when there is no banner, after the service name. *)
Theorem X13_console_line_is_the_log_line_in_colour
    (thread_id port n : Z) (banner : list ascii) (svc : string) :
  let head :=
    "[Thread " +:+ pretty thread_id +:+ "] Port " +:+ pretty port +:+ " OPEN" +:+
    (if bool_decide (0 < n) then ""
     else if nonempty svc then " (" +:+ svc +:+ ")" else "") in
  ∃ tail,
    file_line thread_id port n banner svc = head +:+ tail ∧
    console_line thread_id port n banner svc =
      COLOR_GREEN +:+ head +:+ COLOR_RESET +:+ tail.
Proof.
  unfold file_line, console_line.
  case_bool_decide; destruct (nonempty svc); cbv zeta.
  - exists (" - banner: " +:+ c_str banner +:+ " (" +:+ svc +:+ ")" +:+ NL).
    rewrite ?append_nil_r, ?append_assoc. split; reflexivity.
  - exists (" - banner: " +:+ c_str banner +:+ NL).
    rewrite ?append_nil_r, ?append_assoc. split; reflexivity.
  - exists NL. rewrite ?append_nil_r, ?append_assoc. split; reflexivity.
  - exists NL. rewrite ?append_nil_r, ?append_assoc. split; reflexivity.
Qed.

(** ** Ranges that are not port ranges *)




(** What a finished scan has reported, for any range that does not hold
    the value -1. *)
Lemma reported_ports c num_threads sched p :
  INT_MIN ≤ start c → start c ≤ end_ c → end_ c ≤ INT_MAX →
  end_ c - start c < INT_MAX → (end_ c < -1 ∨ -1 < start c) →
  finished (run c sched (init c num_threads)) →
  no_socket_failure (run c sched (init c num_threads)) →
  p ∈ reported (run c sched (init c num_threads)) ↔
  start c ≤ p ≤ end_ c ∧ connect_result c p = 0.
Proof.
  intros H1 H2 H3 H4 H5 Hf Hnf.
  pose proof (wide_range_ok c H1 H2 H3 H4) as Hr.
  pose proof (inv_run c num_threads sched Hr) as Hinv.
  destruct (init_queue_ports (start c) (end_ c)) as [Hports Hsize]; [done|done|lia|].
  destruct (run_ports c sched (init c num_threads)) as [Hp Hs].
  change (q (init c num_threads)) with (init_queue (start c) (end_ c)) in Hp, Hs.
  pose proof (λ e, wide_range_ports c num_threads sched e H1 H2 H3 H4) as Hrange.
  rewrite elem_of_reported. split.
  - intros (e & He & Hfp & <-). split; [by apply Hrange|].
    destruct (run_event_ok c num_threads sched e Hr He) as (h & _ & _ & Hok).
    unfold is_fprintf in Hfp. destruct (ev_act e); try done. tauto.
  - intros [Hin Hc].
    assert (index (q (run c sched (init c num_threads))) =
            size (q (run c sched (init c num_threads)))) as Hx.
    { apply (finished_exhausted c); try done.
      - apply run_threads_nonempty.
      - by apply Forall_forall.
      - intros e He Hm. specialize (Hrange e He). lia. }
    assert (p ≠ -1) as Hp1 by lia.
    assert (ports (init_queue (start c) (end_ c)) !! Z.to_nat (p - start c) = Some p) as Hl.
    { rewrite Hports. rewrite lookup_seqZ. split; lia. }
    destruct (finished_complete c _ (p - start c) p Hinv Hf) as (t & h & Hh).
    { rewrite Hx, Hs, Hsize. lia. }
    { apply read_port_Some. rewrite Hp. split; [lia|done]. }
    destruct h as [h|].
    + exists (Ev t p (AFprintf (file_text c (t, p)))). split; [|done].
      pose proof (probe_events_fprintf c t p h Hp1 Hc) as Hin'.
      rewrite <- Hh in Hin'. by apply events_on_elem in Hin' as [? _].
    + pose proof (probe_events_socket_none c t p Hp1) as Hin'.
      rewrite <- Hh in Hin'. apply events_on_elem in Hin' as [Hin' _].
      by destruct (proj1 (Forall_forall _ _) Hnf _ Hin').
Qed.

(** X15.  Port numbers are not checked against 65535: [htons] (line 244)
    keeps the low 16 bits, so a scan that has ended without a failed
    [socket] call has reported a port [p] of its range exactly when the
    target accepts a connection on port [p mod 65536]; [p] and
    [p + 65536] get the same answer. *)
Theorem X15_ports_are_probed_modulo_65536
    (net : Z → Z) (c : config) (num_threads : Z) (sched : list nat) (p : Z) :
  0 ≤ start c → start c ≤ end_ c → end_ c < INT_MAX →
  let st := run (on_network net c) sched (init (on_network net c) num_threads) in
  finished st → no_socket_failure st →
  (p ∈ reported st ↔ start c ≤ p ≤ end_ c ∧ net (p `mod` 65536) = 0) ∧
  connect_result (on_network net c) (p + 65536) = connect_result (on_network net c) p.
Proof.
  intros H1 H2 H3 st Hf Hnf. split.
  - apply (reported_ports (on_network net c) num_threads sched p); simpl;
      unfold INT_MIN, INT_MAX in *; try lia; done.
  - simpl. unfold sin_port. f_equal.
    rewrite <- (Z.mul_1_l 65536) at 1. by rewrite Z.mod_add.
Qed.

Lemma X15_witness :
  finished (run (on_network web_server high_port) (round_robin 1 30)
              (init (on_network web_server high_port) 1)) ∧
  65616 ∈ reported (run (on_network web_server high_port) (round_robin 1 30)
                      (init (on_network web_server high_port) 1)).
Proof.
  assert (finished (run (on_network web_server high_port) (round_robin 1 30)
                      (init (on_network web_server high_port) 1))) as Hf
    by (apply (bool_decide_unpack _); vm_compute; exact I).
  assert (no_socket_failure (run (on_network web_server high_port) (round_robin 1 30)
                               (init (on_network web_server high_port) 1))) as Hn
    by (apply (bool_decide_unpack _); vm_compute; exact I).
  split; [exact Hf|].
  destruct (X15_ports_are_probed_modulo_65536 web_server high_port 1 (round_robin 1 30) 65616
              ltac:(simpl; lia) ltac:(simpl; lia) ltac:(vm_compute; reflexivity) Hf Hn)
    as [H _].
  apply H. split; [simpl; lia|reflexivity].
Defined.

Lemma idle_init c num_threads :
  wrap_int (end_ c - start c + 1) ≤ 0 → idle (init c num_threads).
Proof.
  intros Hs. constructor; try done.
  intros t th [-> _]%lookup_replicate. simpl. split; [by left|]. split; [done|done].
Qed.

Lemma idle_step c t st :
  idle st →
  idle (step c t st) ∧
  (pc_sum (step c t st) ≤ pc_sum st)%nat ∧
  (enabled c t st → (pc_sum (step c t st) < pc_sum st)%nat).
Proof.
  intros Hidle. pose proof Hidle as [Hi Hs Htr Hco Hd Hb Hso Hca Hh Hth].
  unfold step, enabled. destruct (threads st !! t) as [th|] eqn:Ht.
  2:{ split; [done|]. split; [done|]. by intros (th & ? & _). }
  destruct (Hth t th Ht) as [Hpc Hlock].
  pose proof (lookup_lt_Some _ _ _ Ht) as Hlt.
  assert (∀ th1 st1, threads st1 = threads st →
            (weight (at_pc th1) ≤ weight (at_pc th))%nat →
            (pc_sum (set_thread t th1 st1) ≤ pc_sum st)%nat ∧
            ((weight (at_pc th1) < weight (at_pc th))%nat →
             (pc_sum (set_thread t th1 st1) < pc_sum st)%nat)) as Hsum.
  { intros th1 st1 Heq Hw. unfold pc_sum. simpl. rewrite Heq.
    pose proof (sum_list_with_insert (λ th, weight (at_pc th)) (threads st) t th th1 Ht).
    simpl in *. lia. }
  destruct Hpc as [Hpc|[Hpc|[Hpc|Hpc]]]; unfold worker_step; rewrite Hpc.
  - destruct (q_lock st) as [t0|] eqn:Hq.
    + simpl. rewrite set_thread_id by done. split; [done|]. split; [done|].
      intros (th' & [= <-] & Hne).
      rewrite Hpc in Hne. simpl in Hne. congruence.
    + simpl. split; [|destruct (Hsum (goto PCheck th) (set_q_lock (Some t) st) eq_refl)
                         as [H1 H2]; [simpl; rewrite Hpc; simpl; lia|];
                       split; [done|intros _; apply H2; simpl; rewrite Hpc; simpl; lia]].
      constructor; simpl; try done.
      * intros t0 [= <-]. by rewrite length_insert.
      * intros t' th' Ht'. destruct (decide (t' = t)) as [->|Hne].
        -- rewrite list_lookup_insert_eq in Ht' by done. injection Ht' as <-.
           simpl. split; [tauto|done].
        -- rewrite list_lookup_insert_ne in Ht' by done.
           destruct (Hth t' th' Ht') as [Hpc' Hl']. split; [done|].
           split; [intros Hc; apply Hl' in Hc; congruence|intros [= ->]; done].
  - rewrite bool_decide_eq_true_2 by lia. simpl.
    split; [|destruct (Hsum (goto PUnlockEmpty th) st eq_refl)
               as [H1 H2]; [simpl; rewrite Hpc; simpl; lia|];
             split; [done|intros _; apply H2; simpl; rewrite Hpc; simpl; lia]].
    constructor; simpl; try done.
    + intros t0 Hq. rewrite length_insert. by apply Hh.
    + intros t' th' Ht'. destruct (decide (t' = t)) as [->|Hne].
      * rewrite list_lookup_insert_eq in Ht' by done. injection Ht' as <-.
        simpl. split; [tauto|]. rewrite Hpc in Hlock. done.
      * rewrite list_lookup_insert_ne in Ht' by done. by apply Hth.
  - rewrite Hpc in Hlock. rewrite bool_decide_eq_true_2 by (by apply Hlock). simpl.
    split; [|destruct (Hsum (goto PDone (set_port (-1) th)) (set_q_lock None st) eq_refl)
               as [H1 H2]; [simpl; rewrite Hpc; simpl; lia|];
             split; [done|intros _; apply H2; simpl; rewrite Hpc; simpl; lia]].
    constructor; simpl; try done.
    intros t' th' Ht'. destruct (decide (t' = t)) as [->|Hne].
    + rewrite list_lookup_insert_eq in Ht' by done. injection Ht' as <-.
      simpl. split; [tauto|done].
    + rewrite list_lookup_insert_ne in Ht' by done.
      destruct (Hth t' th' Ht') as [Hpc' Hl']. split; [done|].
      rewrite Hl'. split; [|done]. intros Hq'.
      assert (q_lock st = Some t) as Hq by (by apply Hlock). congruence.
  - simpl. rewrite set_thread_id by done. split; [done|]. split; [done|].
    intros (th' & [= <-] & Hne).
    rewrite Hpc in Hne. simpl in Hne. congruence.
Qed.

Lemma idle_run c sched st : idle st → idle (run c sched st).
Proof.
  revert st. induction sched as [|t sched IH]; intros st Hi; [done|].
  change (run c (t :: sched) st) with (run c sched (step c t st)).
  apply IH. by apply idle_step.
Qed.

Lemma idle_enabled c st : idle st → ¬ finished st → ∃ t, enabled c t st.
Proof.
  intros Hi Hnf.
  destruct (q_lock st) as [t0|] eqn:Hq.
  - destruct (lookup_lt_is_Some_2 _ _ (idle_holder _ Hi _ Hq)) as [th Ht].
    destruct (idle_threads _ Hi _ _ Ht) as [Hpc Hl].
    apply Hl in Hq. exists t0, th. split; [done|].
    unfold worker_step.
    destruct Hpc as [Hpc|[Hpc|[Hpc|Hpc]]]; rewrite Hpc in *; try done.
    + rewrite bool_decide_eq_true_2; [done|].
      rewrite (idle_index _ Hi). apply (idle_size _ Hi).
    + rewrite bool_decide_eq_true_2; [done|]. by apply Hl.
  - apply not_Forall_Exists in Hnf; [|apply _].
    apply Exists_exists in Hnf as (th & [t Ht]%list_elem_of_lookup & Hnd).
    destruct (idle_threads _ Hi _ _ Ht) as [Hpc Hl].
    exists t, th. split; [done|]. unfold worker_step.
    destruct Hpc as [Hpc|[Hpc|[Hpc|Hpc]]]; rewrite Hpc in *; try done.
    + by rewrite Hq.
    + destruct Hl as [Hl _]. specialize (Hl I). congruence.
    + destruct Hl as [Hl _]. specialize (Hl I). congruence.
Qed.

Lemma idle_can_finish c st :
  idle st → ∃ sched, (length sched ≤ pc_sum st)%nat ∧ finished (run c sched st).
Proof.
  remember (pc_sum st) as m eqn:Hm. revert st Hm.
  induction m as [m IH] using lt_wf_ind. intros st -> Hi.
  destruct (decide (finished st)) as [Hf|Hnf].
  { exists []. split; [simpl; lia|done]. }
  destruct (idle_enabled c st Hi Hnf) as [t Hen].
  destruct (idle_step c t st Hi) as (Hi' & _ & Hlt). specialize (Hlt Hen).
  destruct (IH _ Hlt _ eq_refl Hi') as (sched & Hlen & Hf).
  exists (t :: sched). split; [simpl; lia|done].
Qed.

Lemma idle_pc_sum c l st : idle st → (pc_sum (run c l st) ≤ pc_sum st)%nat.
Proof.
  revert st. induction l as [|t l IH]; intros st Hi; [done|].
  change (run c (t :: l) st) with (run c l (step c t st)).
  destruct (idle_step c t st Hi) as (Hi1 & Hle & _).
  specialize (IH _ Hi1). lia.
Qed.

(** X16.  An empty range, or one given the wrong way round ([q.size] at
    most 0): in every run no port is handed out, no socket is created,
    nothing is printed or logged, no thread reads outside the array, and
    the run can be continued, by at most 4 steps per thread, until every
    worker has returned. *)
Theorem X16_empty_range_scans_nothing (c : config) (num_threads : Z) (sched : list nat) :
  wrap_int (end_ c - start c + 1) ≤ 0 →
  let st := run c sched (init c num_threads) in
  trace st = [] ∧ console st = "" ∧ file_disk st = "" ∧ file_buf st = "" ∧
  sock_calls st = 0%nat ∧
  Forall (λ th, at_pc th ≠ PFault) (threads st) ∧
  ∃ more, (length more ≤ 4 * Z.to_nat (clamp_threads num_threads))%nat ∧
          finished (run c (sched ++ more) (init c num_threads)).
Proof.
  intros Hs st.
  pose proof (idle_run c sched _ (idle_init c num_threads Hs)) as Hidle. fold st in Hidle.
  pose proof Hidle as [Hi Hsz Htr Hco Hd Hb Hso Hca Hh Hth].
  repeat (split; [done|]). split.
  - apply Forall_forall. intros th [t Ht]%list_elem_of_lookup.
    destruct (Hth t th Ht) as [[Hpc|[Hpc|[Hpc|Hpc]]] _]; by rewrite Hpc.
  - destruct (idle_can_finish c st Hidle) as (more & Hlen & Hf).
    exists more. split; [|by rewrite run_app].
    etrans; [exact Hlen|].
    etrans; [apply (idle_pc_sum c sched _ (idle_init c num_threads Hs))|].
    unfold pc_sum, init. simpl.
    induction (Z.to_nat (clamp_threads num_threads)) as [|k IH]; simpl; lia.
Qed.

Lemma X16_witness :
  wrap_int (end_ inverted - start inverted + 1) ≤ 0 ∧
  trace (run inverted (round_robin 3 5) (init inverted 3)) = [].
Proof.
  assert (wrap_int (end_ inverted - start inverted + 1) ≤ 0) as Hs
    by (vm_compute; discriminate).
  split; [exact Hs|].
  exact (proj1 (X16_empty_range_scans_nothing inverted 3 (round_robin 3 5) Hs)).
Defined.

(** ** [service_name] *)

Lemma service_name_known port : service_name port ≠ "" → port ∈ known_ports.
Proof.
  unfold service_name, known_ports.
  repeat (match goal with
          | |- context [match ?x with _ => _ end] => destruct x
          end; try done);
  intros _; apply (bool_decide_unpack _); vm_compute; exact I.
Qed.

Lemma service_name_chars port a :
  a ∈ String.list_ascii_of_string (service_name port) →
  a ∉ [NUL; "010"; "("; ")"; " "]%char.
Proof.
  destruct (decide (service_name port = "")) as [->|Hn].
  { by intros ?%elem_of_nil. }
  apply service_name_known in Hn. revert a.
  apply Forall_forall.
  unfold known_ports in Hn.
  repeat (apply elem_of_cons in Hn as [->|Hn];
          [apply (bool_decide_unpack _); vm_compute; exact I|]).
  by apply elem_of_nil in Hn.
Qed.

(** X17.  [service_name] returns a label exactly for the fifteen ports of
    its table; different ports have different labels, except 20 and 21
    (both FTP); and a label has at most 7 characters, none of them a NUL, a
    newline, a blank or a parenthesis. *)
Theorem X17_service_names (p1 p2 : Z) :
  (service_name p1 ≠ "" ↔ p1 ∈ known_ports) ∧
  (service_name p1 ≠ "" → service_name p1 = service_name p2 →
   p1 = p2 ∨ (p1 = 20 ∧ p2 = 21) ∨ (p1 = 21 ∧ p2 = 20)) ∧
  (String.length (service_name p1) ≤ 7)%nat ∧
  (∀ a, a ∈ String.list_ascii_of_string (service_name p1) →
        a ∉ [NUL; "010"; "("; ")"; " "]%char).
Proof.
  split; [|split; [|split]].
  - split; [apply service_name_known|].
    unfold known_ports. intros Hin.
    repeat (apply elem_of_cons in Hin as [->|Hin]; [done|]).
    by apply elem_of_nil in Hin.
  - intros Hn Heq.
    assert (service_name p2 ≠ "") as Hn2 by congruence.
    apply service_name_known in Hn, Hn2. unfold known_ports in *.
    repeat (apply elem_of_cons in Hn as [->|Hn];
      [repeat (apply elem_of_cons in Hn2 as [->|Hn2];
               [first [by left | by (right; left) | by (right; right) | discriminate Heq]|]);
       by apply elem_of_nil in Hn2|]).
    by apply elem_of_nil in Hn.
  - destruct (decide (service_name p1 = "")) as [->|Hn]; [simpl; lia|].
    apply service_name_known in Hn. unfold known_ports in Hn.
    repeat (apply elem_of_cons in Hn as [->|Hn]; [vm_compute; lia|]).
    by apply elem_of_nil in Hn.
  - apply service_name_chars.
Qed.

(** ** [main]: the command line *)

Lemma parse_flags_mode h args fm tm :
  fm = 0 ∨ fm = 1 → (parse_flags h args fm tm).1 = 0 ∨ (parse_flags h args fm tm).1 = 1.
Proof.
  revert fm tm. induction args as [|a rest IH]; intros fm tm Hfm; [done|].
  simpl. apply IH. repeat case_bool_decide; tauto.
Qed.

Lemma first_failure_None ok n i :
  first_failure ok n = None → (i < n)%nat → ok i = true.
Proof.
  unfold first_failure. intros Hh Hi.
  destruct (filter (λ i, ok i = false) (seq 0 n)) as [|x l] eqn:Hf; [|done].
  destruct (ok i) eqn:Hok; [done|].
  assert (i ∈ filter (λ i, ok i = false) (seq 0 n)) as Hin.
  { apply list_elem_of_filter. split; [done|]. apply elem_of_seq. lia. }
  rewrite Hf in Hin. by apply elem_of_nil in Hin.
Qed.

(** What [main] has done when it has started all workers. *)
Lemma main_Scan h prog args out s e n f tm :
  main h prog args = Scan out s e n f tm →
  WSAStartup_ok h = true ∧
  (∃ ip rest, args = ip :: rest ∧ inet_pton_ok h ip = true ∧
              out = scanning_line ip s e n f tm) ∧
  (s, e) = (positional h args).1 ∧
  n = clamp_threads (positional h args).2 ∧
  f = (parse_flags h args 1 200).1 ∧
  tm = clamp_timeout (parse_flags h args 1 200).2 ∧
  malloc_ports_ok h (wrap_int (e - s + 1)) = true ∧
  fopen_ok h = true ∧
  malloc_threads_ok h n = true ∧
  first_failure (malloc_args_ok h) (Z.to_nat n) = None.
Proof.
  unfold main. destruct (WSAStartup_ok h); [|done]. simpl.
  destruct args as [|ip rest]; [done|].
  destruct (inet_pton_ok h ip) eqn:Hip; [|done]. simpl negb. cbv iota.
  destruct (positional h (ip :: rest)) as [[s0 e0] n0].
  destruct (malloc_ports_ok h _) eqn:Hm; [|done].
  destruct (fopen_ok h); [|done].
  destruct (malloc_threads_ok h _) eqn:Hmt; [|done]. simpl negb. cbv iota.
  destruct (first_failure _ _) eqn:Hff; [done|].
  intros [= <- <- <- <- <- <-].
  split; [done|]. split; [by exists ip, rest|]. done.
Qed.

Lemma init_threads_length c n :
  length (threads (init c n)) = Z.to_nat (clamp_threads n).
Proof. simpl. by rewrite length_replicate. Qed.

Lemma clamp_threads_idem n : clamp_threads (clamp_threads n) = clamp_threads n.
Proof. unfold clamp_threads. repeat case_bool_decide; lia. Qed.

Lemma main_eight_workers :
  main good_host "scan" ["10.0.0.1"; "20"; "25"; "8"; "--full"; "--fast"; "--timeout"; "50"] =
  Scan ("Scanning 10.0.0.1 (ports 20-25) with 8 threads, mode=fast, timeout=50 ms..." +:+ NL)
       20 25 8 0 50.
Proof. vm_compute. reflexivity. Qed.

Lemma main_flag_as_thread_count :
  main good_host "scan" ["10.0.0.1"; "20"; "25"; "--fast"] =
  Scan ("Scanning 10.0.0.1 (ports 20-25) with 1 threads, mode=fast, timeout=200 ms..." +:+ NL)
       20 25 1 0 200.
Proof. vm_compute. reflexivity. Qed.

Lemma main_lone_thread_count :
  main good_host "scan" ["10.0.0.1"; "8"] =
  Scan ("Scanning 10.0.0.1 (ports 1-1023) with 50 threads, mode=full, timeout=200 ms..." +:+ NL)
       1 1023 50 1 200.
Proof. vm_compute. reflexivity. Qed.

(** X18.  When [main] starts the workers, Winsock is up, the address is a
    valid IPv4 address, the output file is open, every allocation has
    succeeded, the number of threads is from 1 to 5000 and is the number of
    workers that start, the timeout is at least 1 ms and [FULL_MODE] is 0
    or 1. *)
Theorem X18_main_hands_over_checked_values
    (h : host) (prog : string) (args : list string)
    (out : string) (s e n f tm : Z) (c : config) :
  main h prog args = Scan out s e n f tm →
  1 ≤ n ≤ 5000 ∧ 1 ≤ tm ∧ (f = 0 ∨ f = 1) ∧
  (∃ ip rest, args = ip :: rest ∧ inet_pton_ok h ip = true) ∧
  WSAStartup_ok h = true ∧ fopen_ok h = true ∧
  malloc_ports_ok h (wrap_int (e - s + 1)) = true ∧
  malloc_threads_ok h n = true ∧
  (∀ i, (i < Z.to_nat n)%nat → malloc_args_ok h i = true) ∧
  Z.of_nat (length (threads (init c n))) = n.
Proof.
  intros (Hw & (ip & rest & -> & Hip & _) & _ & -> & -> & -> & Hm & Hf & Hmt & Hff)%main_Scan.
  pose proof (clamp_threads_pos (positional h (ip :: rest)).2) as Hn.
  split; [done|]. split.
  { unfold clamp_timeout. case_bool_decide; lia. }
  split; [apply parse_flags_mode; by right|].
  split; [by exists ip, rest|].
  repeat (split; [done|]). split.
  - intros i Hi. by apply (first_failure_None _ _ _ Hff).
  - rewrite init_threads_length, clamp_threads_idem. lia.
Qed.

Lemma X18_witness :
  main good_host "scan" ["10.0.0.1"; "20"; "25"; "8"; "--full"; "--fast"; "--timeout"; "50"] =
  Scan ("Scanning 10.0.0.1 (ports 20-25) with 8 threads, mode=fast, timeout=50 ms..." +:+ NL)
       20 25 8 0 50 ∧
  Z.of_nat (length (threads (init demo 8))) = 8.
Proof.
  split; [exact main_eight_workers|].
  pose proof (X18_main_hands_over_checked_values good_host "scan" _ _ _ _ _ _ _ demo
                main_eight_workers) as (_ & _ & _ & _ & _ & _ & _ & _ & _ & H).
  exact H.
Defined.

Lemma parse_flags_fast h args fm tm :
  (parse_flags h args fm tm).1 = 0 ↔
  (∃ pre post, args = pre ++ "--fast" :: post ∧ "--full" ∉ post) ∨
  (fm = 0 ∧ "--full" ∉ args).
Proof.
  revert fm tm. induction args as [|a rest IH]; intros fm tm.
  { simpl. split.
    - intros ->. right. split; [done|]. by intros ?%elem_of_nil.
    - intros [(pre & post & H & _)|[H _]]; [by destruct pre|done]. }
  simpl. rewrite IH. clear IH.
  destruct (decide (a = "--fast")) as [Ha|Hfast].
  - rewrite (bool_decide_eq_true_2 _ Ha).
    rewrite (bool_decide_eq_false_2 (a = "--full")) by (by rewrite Ha).
    subst a. split.
    + intros [(pre & post & -> & Hp)|[_ Hp]].
      * left. by exists ("--fast" :: pre), post.
      * left. by exists [], rest.
    + intros [(pre & post & Heq & Hp)|[_ Hp]].
      * destruct pre as [|x pre]; simpl in Heq.
        -- injection Heq as ->. by right.
        -- injection Heq as <- ->. left. by exists pre, post.
      * right. split; [done|]. intros Hin. apply Hp. by right.
  - rewrite (bool_decide_eq_false_2 (a = "--fast")) by done.
    destruct (decide (a = "--full")) as [Ha|Hfull].
    + rewrite (bool_decide_eq_true_2 _ Ha). subst a. split.
      * intros [(pre & post & -> & Hp)|[? _]]; [|done].
        left. by exists ("--full" :: pre), post.
      * intros [(pre & post & Heq & Hp)|[_ Hp]].
        -- destruct pre as [|x pre]; simpl in Heq; [discriminate Heq|].
           injection Heq as <- ->. left. by exists pre, post.
        -- destruct Hp. by left.
    + rewrite (bool_decide_eq_false_2 (a = "--full")) by done. split.
      * intros [(pre & post & -> & Hp)|[-> Hp]].
        -- left. by exists (a :: pre), post.
        -- right. split; [done|]. by intros [?|?]%elem_of_cons.
      * intros [(pre & post & Heq & Hp)|[-> Hp]].
        -- destruct pre as [|x pre]; simpl in Heq.
           { injection Heq as Hx _. by destruct Hfast. }
           injection Heq as <- ->. left. by exists pre, post.
        -- right. split; [done|]. intros Hin. apply Hp. by right.
Qed.

(** X19.  The last of the flags [--fast] and [--full] on the command line
    decides: the scan runs in fast mode exactly when [--fast] occurs with
    no [--full] after it, and in full mode otherwise. *)
Theorem X19_last_mode_flag_wins
    (h : host) (prog : string) (args : list string) (out : string) (s e n f tm : Z) :
  main h prog args = Scan out s e n f tm →
  (f = 0 ↔ ∃ pre post, args = pre ++ "--fast" :: post ∧ "--full" ∉ post) ∧
  (f = 1 ↔ ¬ ∃ pre post, args = pre ++ "--fast" :: post ∧ "--full" ∉ post).
Proof.
  intros Hm. pose proof Hm as (_ & _ & _ & _ & -> & _)%main_Scan.
  assert ((parse_flags h args 1 200).1 = 0 ↔
          ∃ pre post, args = pre ++ "--fast" :: post ∧ "--full" ∉ post) as H0.
  { rewrite parse_flags_fast. split; [|by left]. by intros [?|[? _]]. }
  split; [done|].
  destruct (parse_flags_mode h args 1 200 (or_intror eq_refl)) as [H|H]; rewrite H in *.
  - split; [done|]. intros Hn. destruct Hn. by apply H0.
  - split; [|done]. intros _ Hex. apply H0 in Hex. done.
Qed.

Lemma X19_witness :
  ∃ pre post,
    ["10.0.0.1"; "20"; "25"; "8"; "--full"; "--fast"; "--timeout"; "50"] =
    pre ++ "--fast" :: post ∧ ("--full" ∉ post).
Proof.
  exact (proj1 (proj1 (X19_last_mode_flag_wins good_host "scan" _ _ _ _ _ _ _
                         main_eight_workers)) eq_refl).
Defined.

Lemma parse_flags_cons h a rest fm tm :
  parse_flags h (a :: rest) fm tm =
  parse_flags h rest
    (if bool_decide (a = "--full") then 1
     else if bool_decide (a = "--fast") then 0 else fm)
    (if bool_decide (a = "--timeout")
     then match rest with v :: _ => atoi h v | [] => tm end
     else tm).
Proof. done. Qed.

Lemma parse_flags_no_timeout h args fm tm :
  "--timeout" ∉ args → (parse_flags h args fm tm).2 = tm.
Proof.
  revert fm tm. induction args as [|a rest IH]; intros fm tm Hn; [done|].
  rewrite parse_flags_cons. rewrite IH by (intros Hin; apply Hn; by right).
  rewrite bool_decide_eq_false_2; [done|]. intros ->. apply Hn. by left.
Qed.

Lemma parse_flags_timeout h pre v post fm tm :
  "--timeout" ∉ v :: post →
  (parse_flags h (pre ++ "--timeout" :: v :: post) fm tm).2 = atoi h v.
Proof.
  intros Hn. revert fm tm. induction pre as [|a pre IH]; intros fm tm.
  - simpl app. rewrite parse_flags_cons.
    rewrite (bool_decide_eq_true_2 ("--timeout" = "--timeout")) by done.
    by rewrite parse_flags_no_timeout.
  - simpl app. rewrite parse_flags_cons. apply IH.
Qed.

Lemma parse_flags_trailing_timeout h pre fm tm :
  "--timeout" ∉ pre → (parse_flags h (pre ++ ["--timeout"]) fm tm).2 = tm.
Proof.
  revert fm tm. induction pre as [|a pre IH]; intros fm tm Hn.
  - simpl. done.
  - simpl app. rewrite parse_flags_cons. rewrite IH by (intros Hin; apply Hn; by right).
    rewrite bool_decide_eq_false_2; [done|]. intros ->. apply Hn. by left.
Qed.

(** X20.  The timeout is 200 ms without a [--timeout] flag; when the last
    [--timeout] is followed by an argument, it is what [atoi] makes of that
    argument, raised to 1 when lower; and a single [--timeout] that is the
    last argument is ignored. *)
Theorem X20_timeout_flag
    (h : host) (prog : string) (args : list string) (out : string) (s e n f tm : Z) :
  main h prog args = Scan out s e n f tm →
  ("--timeout" ∉ args → tm = 200) ∧
  (∀ pre v post, args = pre ++ "--timeout" :: v :: post → "--timeout" ∉ v :: post →
     tm = Z.max 1 (atoi h v)) ∧
  (∀ pre, args = pre ++ ["--timeout"] → "--timeout" ∉ pre → tm = 200).
Proof.
  intros (_ & _ & _ & _ & _ & -> & _)%main_Scan.
  split; [|split].
  - intros Hn. by rewrite parse_flags_no_timeout.
  - intros pre v post -> Hn. rewrite parse_flags_timeout by done.
    unfold clamp_timeout. case_bool_decide; lia.
  - intros pre -> Hn. by rewrite parse_flags_trailing_timeout.
Qed.

Lemma X20_witness :
  ("--timeout" ∉ ["50"]) ∧ 50 = Z.max 1 (atoi good_host "50").
Proof.
  assert ("--timeout" ∉ ["50"]) as Hn.
  { intros [H|H]%elem_of_cons; [discriminate H|by apply elem_of_nil in H]. }
  split; [exact Hn|].
  destruct (X20_timeout_flag good_host "scan" _ _ _ _ _ _ _ main_eight_workers)
    as (_ & H & _).
  exact (H ["10.0.0.1"; "20"; "25"; "8"; "--full"; "--fast"] "50" [] eq_refl Hn).
Defined.

(** X21.  The thread count is read only when a range is given too: with at
    most two arguments the scan covers ports 1 to 1023, and with at most
    three it runs 50 threads, whatever the arguments say. *)
Theorem X21_short_command_line_scans_the_defaults
    (h : host) (prog : string) (args : list string) (out : string) (s e n f tm : Z) :
  main h prog args = Scan out s e n f tm →
  ((length args ≤ 2)%nat → s = 1 ∧ e = 1023) ∧
  ((length args ≤ 3)%nat → n = 50).
Proof.
  intros (_ & _ & Hse & -> & _)%main_Scan.
  destruct args as [|ip [|a [|b [|x rest]]]]; simpl in *;
    (split; [intros ?; try lia; by injection Hse as -> ->|intros ?; try lia; done]).
Qed.

Lemma X21_witness :
  main good_host "scan" ["10.0.0.1"; "8"] =
  Scan ("Scanning 10.0.0.1 (ports 1-1023) with 50 threads, mode=full, timeout=200 ms..."
          +:+ NL) 1 1023 50 1 200 ∧
  (length ["10.0.0.1"; "8"] ≤ 3)%nat ∧ 50 = 50.
Proof.
  assert (length ["10.0.0.1"; "8"] ≤ 3)%nat as Hl by (simpl; lia).
  split; [exact main_lone_thread_count|]. split; [exact Hl|].
  exact (proj2 (X21_short_command_line_scans_the_defaults good_host "scan" _ _ _ _ _ _ _
                  main_lone_thread_count) Hl).
Defined.

(** X22.  With a range given, the argument after it is the thread count
    whatever it is: a flag written there is read as a flag and, through
    [atoi], as a thread count below 1, so that the scan runs one worker. *)
Theorem X22_fourth_argument_is_the_thread_count
    (h : host) (prog ip a b x : string) (rest : list string)
    (out : string) (s e n f tm : Z) :
  main h prog (ip :: a :: b :: x :: rest) = Scan out s e n f tm →
  s = atoi h a ∧ e = atoi h b ∧ n = clamp_threads (atoi h x) ∧
  (atoi h x < 1 → n = 1) ∧
  (x = "--fast" → "--full" ∉ rest → f = 0).
Proof.
  intros Hm. pose proof Hm as (_ & _ & Hse & -> & -> & _)%main_Scan.
  simpl in Hse. injection Hse as -> ->.
  split; [done|]. split; [done|]. split; [done|]. split.
  - simpl. intros Hx. unfold clamp_threads. by rewrite bool_decide_eq_true_2.
  - intros -> Hn. apply parse_flags_fast. left.
    by exists [ip; a; b], rest.
Qed.

Lemma X22_witness :
  main good_host "scan" ["10.0.0.1"; "20"; "25"; "--fast"] =
  Scan ("Scanning 10.0.0.1 (ports 20-25) with 1 threads, mode=fast, timeout=200 ms..."
          +:+ NL) 20 25 1 0 200 ∧
  atoi good_host "--fast" < 1 ∧ 1 = 1.
Proof.
  assert (atoi good_host "--fast" < 1) as Ha by (vm_compute; reflexivity).
  split; [exact main_flag_as_thread_count|]. split; [exact Ha|].
  destruct (X22_fourth_argument_is_the_thread_count good_host "scan" _ _ _ _ _ _ _ _ _ _ _
              main_flag_as_thread_count) as (_ & _ & _ & H & _).
  exact (H Ha).
Defined.

(** ** The order and the form of the log *)

Lemma reported_NoDup c st : inv c st → NoDup (reported st).
Proof.
  intros Hinv. unfold reported, history. apply (ports_once is_fprintf). intros p.
  destruct (events_on_prefix c st p Hinv) as (t & h & k & Hev).
  unfold events_on in Hev. rewrite Hev.
  etrans; [|apply (probe_events_one_fprintf c t p h)].
  apply length_filter_take.
Qed.

(** With one worker, the port a thread holds is the last one handed out,
    and the events come in the order of the ports. *)
Lemma single_worker_order c num_threads sched :
  INT_MIN ≤ start c → start c ≤ end_ c → end_ c ≤ INT_MAX →
  end_ c - start c < INT_MAX → num_threads ≤ 1 →
  let st := run c sched (init c num_threads) in
  (∀ th, threads st !! 0%nat = Some th → claimed (at_pc th) →
         i th = index (q st) - 1) ∧
  in_port_order (trace st).
Proof.
  intros H1 H2 H3 H4 Hn.
  assert (range_ok c) as Hr by (by apply wide_range_ok).
  induction sched as [|t sched IH] using rev_ind.
  { cbv zeta. split; [|done]. intros th [-> _]%lookup_replicate. done. }
  rewrite run_app. set (st := run c sched (init c num_threads)) in *.
  cbv zeta in IH. destruct IH as [IH1 IH2].
  pose proof (inv_run c num_threads sched Hr) as Hinv. fold st in Hinv.
  assert (length (threads st) = 1%nat) as Hlen.
  { unfold st. rewrite run_length, init_threads_length.
    unfold clamp_threads. repeat case_bool_decide; lia. }
  change (run c [t] st) with (step c t st). unfold step.
  destruct (threads st !! t) as [th|] eqn:Ht; [|done].
  assert (t = 0%nat) as -> by (apply lookup_lt_Some in Ht; lia).
  pose proof (inv_G _ _ Hinv) as HG. pose proof (inv_L _ _ Hinv _ _ Ht) as HL.
  destruct (step_queue c 0%nat th st HG HL) as (Hports & Hsize & Hidx).
  cbv zeta. simpl q. simpl threads. simpl trace. rewrite step_threads.
  rewrite list_lookup_insert_eq by lia. split.
  - intros th' [= <-] Hc.
    destruct Hidx as [[Hi Hpc]|(Hi & Hpc & _ & Hi')]; rewrite Hi; [|lia].
    destruct (decide (claimed (at_pc th))) as [Hc0|Hc0].
    + destruct (step_claim c 0%nat th st HG HL Hc0) as [[_ Hsame]|[Hnc _]]; [|done].
      rewrite Hsame. by apply IH1.
    + by destruct (step_unclaimed c 0%nat th st Hc0 Hpc).
  - destruct (step_trace c 0%nat th st) as [->|(e & -> & Hp & _ & Hcl)]; [done|].
    simpl. split; [|done].
    apply Forall_forall. intros e' He'. rewrite Hp.
    destruct (G_events _ HG e' He') as (k & Hk & Hrd').
    assert (read_port (q st) (i th) = Some (port th) ∧ index (q st) - 1 ≤ i th) as [Hrd Hi].
    { destruct Hcl as [Hc|Hpc].
      - destruct (L_claim _ _ _ _ HL Hc) as [_ Hrd]. split; [done|].
        rewrite (IH1 th Ht Hc). lia.
      - destruct (L_inc _ _ _ _ HL Hpc) as (Hi & _ & Hrd). split; [done|]. lia. }
    apply read_port_Some in Hrd as [Hi0 Hrd], Hrd' as [_ Hrd'].
    destruct (run_ports c sched (init c num_threads)) as [Hp0 _]. fold st in Hp0.
    change (q (init c num_threads)) with (init_queue (start c) (end_ c)) in Hp0.
    rewrite Hp0 in Hrd, Hrd'.
    pose proof (lookup_lt_Some _ _ _ Hrd) as Hl1.
    pose proof (lookup_lt_Some _ _ _ Hrd') as Hl2.
    rewrite init_queue_length in Hl1, Hl2.
    rewrite init_queue_ports_lookup in Hrd, Hrd' by done.
    injection Hrd as <-. injection Hrd' as <-.
    rewrite wrap_int_id in Hl1 by (unfold INT_MIN, INT_MAX in *; lia).
    rewrite !wrap_int_id by (unfold INT_MIN, INT_MAX in *; lia). lia.
Qed.

Lemma nondecreasing_snoc l x :
  nondecreasing l → Forall (λ y, y ≤ x) l → nondecreasing (l ++ [x]).
Proof.
  induction l as [|a l IH]; simpl.
  { intros _ _. split; [constructor|done]. }
  intros [Ha Hl] [Hax Hlx]%Forall_cons. split; [|by apply IH].
  apply Forall_app. split; [done|]. by constructor.
Qed.

Lemma in_port_order_history (f : event → bool) tr :
  in_port_order tr → nondecreasing (ev_port <$> filter (λ e, f e) (reverse tr)).
Proof.
  induction tr as [|e tr IH]; [done|]. simpl. intros [He Htr].
  rewrite reverse_cons, filter_app, fmap_app.
  rewrite filter_cons, filter_nil. destruct (decide (f e)) as [Hf|Hf].
  - simpl. apply nondecreasing_snoc; [by apply IH|].
    apply Forall_fmap, Forall_forall. intros e' [_ He']%list_elem_of_filter.
    apply (proj1 (elem_of_reverse _ _)) in He'. simpl.
    by apply (proj1 (Forall_forall _ _) He e').
  - simpl. rewrite app_nil_r. by apply IH.
Qed.

Lemma ascending_strict l : nondecreasing l → NoDup l → ascending l.
Proof.
  induction l as [|x l IH]; simpl; [done|].
  intros [Hx Hl] [Hnx Hnd]%NoDup_cons. split; [|by apply IH].
  apply Forall_forall. intros y Hy.
  pose proof (proj1 (Forall_forall _ _) Hx y Hy) as Hle. simpl in Hle.
  assert (x ≠ y) by (intros ->; done). lia.
Qed.

(** X23.  With one worker, [connect] is called and the log is written in
    ascending order of the ports. *)
Theorem X23_one_worker_logs_in_ascending_order
    (c : config) (num_threads : Z) (sched : list nat) :
  INT_MIN ≤ start c → start c ≤ end_ c → end_ c ≤ INT_MAX →
  end_ c - start c < INT_MAX → num_threads ≤ 1 →
  let st := run c sched (init c num_threads) in
  ascending (reported st) ∧ ascending (connected st).
Proof.
  intros H1 H2 H3 H4 Hn st.
  destruct (single_worker_order c num_threads sched H1 H2 H3 H4 Hn) as [_ Ho].
  fold st in Ho.
  pose proof (inv_run c num_threads sched (wide_range_ok c H1 H2 H3 H4)) as Hinv.
  fold st in Hinv. split.
  - apply ascending_strict; [by apply in_port_order_history|by apply (reported_NoDup c)].
  - apply ascending_strict; [by apply in_port_order_history|by apply (connected_NoDup c)].
Qed.

Lemma X23_witness :
  ascending (reported (run demo (round_robin 1 80) (init demo 1))).
Proof.
  exact (proj1 (X23_one_worker_logs_in_ascending_order demo 1 (round_robin 1 80)
                  ltac:(vm_compute; discriminate) ltac:(vm_compute; discriminate)
                  ltac:(vm_compute; discriminate) ltac:(vm_compute; reflexivity)
                  ltac:(lia))).
Defined.

Lemma newlines_app s1 s2 : newlines (s1 +:+ s2) = (newlines s1 + newlines s2)%nat.
Proof.
  induction s1 as [|a s1 IH]; [done|].
  change (String a s1 +:+ s2) with (String a (s1 +:+ s2)).
  simpl. rewrite IH. lia.
Qed.

Lemma newlines_pretty_N_go x s : newlines (pretty_N_go x s) = newlines s.
Proof.
  revert s. induction (N.lt_wf_0 x) as [x _ IH]; intros s.
  assert (x = 0 ∨ 0 < x)%N as [->|Hx] by lia.
  - by rewrite pretty_N_go_0.
  - rewrite pretty_N_go_step by done. rewrite IH by (by apply N.div_lt).
    simpl. rewrite bool_decide_eq_false_2; [done|].
    unfold pretty_N_char. by repeat case_match.
Qed.

Lemma newlines_pretty (z : Z) : newlines (pretty z) = 0%nat.
Proof.
  assert (∀ x : N, newlines (pretty x) = 0%nat) as HN.
  { intros x. unfold pretty, pretty_N. case_decide; [done|].
    by rewrite newlines_pretty_N_go. }
  unfold pretty, pretty_Z. destruct z as [|x|x]; [done|apply HN|].
  rewrite newlines_app. unfold pretty, pretty_positive. by rewrite HN.
Qed.

Lemma newlines_service_name port : newlines (service_name port) = 0%nat.
Proof.
  destruct (decide (service_name port = "")) as [->|Hn]; [done|].
  apply service_name_known in Hn. unfold known_ports in Hn.
  repeat (apply elem_of_cons in Hn as [->|Hn]; [done|]).
  by apply elem_of_nil in Hn.
Qed.

(** Without a banner a record is one line. *)
Lemma newlines_file_line t p n b :
  n ≤ 0 → newlines (file_line t p n b (service_name p)) = 1%nat.
Proof.
  intros Hn. unfold file_line. rewrite bool_decide_eq_false_2 by lia.
  destruct (nonempty (service_name p));
    rewrite !newlines_app, !newlines_pretty, ?newlines_service_name; done.
Qed.

Lemma newlines_log_text c recs :
  FULL_MODE c = 0 → newlines (log_text c recs) = length recs.
Proof.
  intros Hf. induction recs as [|r recs IH]; [done|].
  simpl. rewrite newlines_app, IH. unfold file_text.
  rewrite newlines_file_line; [done|]. by rewrite (probe_recv_fast c _ Hf).
Qed.

Lemma fprintf_sections c recs :
  ev_port <$> filter (λ e, is_fprintf e) (sections c recs) = recs.*2.
Proof.
  induction recs as [|r recs IH]; [done|].
  change (sections c (r :: recs)) with (section_events c r ++ sections c recs).
  rewrite filter_app, fmap_app, IH. done.
Qed.

Lemma reported_whole_records c st recs r :
  sink_at c st recs 0 r → reported st = recs.*2.
Proof.
  intros Hs. unfold reported, history.
  rewrite <- (fprintf_sections c recs).
  pose proof (sink_trace _ _ _ _ _ Hs) as Htr. rewrite take_0, app_nil_r in Htr.
  rewrite <- Htr. unfold sink_events. rewrite list_filter_filter. f_equal.
  apply list_filter_iff. intros e. split; [|tauto]. intros He. split; [done|].
  unfold is_fprintf, is_sink in *. by destruct (ev_act e).
Qed.

(** X24.  In fast mode a record of the log is one line: every line written
    to the log holds one newline character, its last; and whenever
    [print_lock] is free, so also when all workers have returned, the log
    is flushed and has as many newline characters as ports reported. *)
Theorem X24_fast_mode_log_has_one_line_per_port
    (c : config) (num_threads : Z) (sched : list nat) :
  range_ok c → FULL_MODE c = 0 →
  let st := run c sched (init c num_threads) in
  (∀ e line, e ∈ trace st → ev_act e = AFprintf line → newlines line = 1%nat) ∧
  (print_lock st = None →
   file_buf st = "" ∧ newlines (file_disk st) = length (reported st)).
Proof.
  intros Hr Hf st. split.
  - intros e line He Ha.
    destruct (run_event_ok c num_threads sched e Hr He) as (h & _ & _ & Hact).
    rewrite Ha in Hact. destruct Hact as [-> _]. unfold file_text.
    apply newlines_file_line. by rewrite (probe_recv_fast c _ Hf).
  - intros Hp.
    destruct (run_sink c num_threads sched Hr) as (recs & k & r & Hs & _ & Hk).
    fold st in Hs, Hk. rewrite (Hk Hp) in Hs.
    rewrite (sink_buf _ _ _ _ _ Hs), (sink_disk _ _ _ _ _ Hs). simpl.
    rewrite append_nil_r, (newlines_log_text c recs Hf).
    rewrite (reported_whole_records c st recs r Hs). by rewrite length_fmap.
Qed.

Lemma X24_witness :
  range_ok demo_fast ∧
  print_lock (run demo_fast (round_robin 2 40) (init demo_fast 2)) = None ∧
  newlines (file_disk (run demo_fast (round_robin 2 40) (init demo_fast 2))) =
  length (reported (run demo_fast (round_robin 2 40) (init demo_fast 2))).
Proof.
  assert (range_ok demo_fast) as Hr
    by (unfold range_ok; simpl; vm_compute; discriminate).
  assert (print_lock (run demo_fast (round_robin 2 40) (init demo_fast 2)) = None) as Hp
    by (vm_compute; reflexivity).
  split; [exact Hr|]. split; [exact Hp|].
  exact (proj2 (proj2 (X24_fast_mode_log_has_one_line_per_port demo_fast 2
                         (round_robin 2 40) Hr eq_refl) Hp)).
Defined.

(** ** From the command line to the log *)

(** X25.  What a finished scan reports depends on the range and on the
    answers of [connect] only: two scans of the same range of valid ports,
    in which [connect] succeeds on the same ports and no [socket] call
    fails, report the same ports, whatever the mode ([--fast] or
    [--full]), what the ports send, the number of workers and the
    schedule. *)
Theorem X25_only_connect_decides_what_is_reported
    (c1 c2 : config) (n1 n2 : Z) (sched1 sched2 : list nat) (p : Z) :
  start c1 = start c2 → end_ c1 = end_ c2 →
  (∀ port, connect_result c1 port = 0 ↔ connect_result c2 port = 0) →
  1 ≤ start c1 → start c1 ≤ end_ c1 → end_ c1 ≤ 65535 →
  let st1 := run c1 sched1 (init c1 n1) in
  let st2 := run c2 sched2 (init c2 n2) in
  finished st1 → finished st2 → no_socket_failure st1 → no_socket_failure st2 →
  (p ∈ reported st1 ↔ p ∈ reported st2).
Proof.
  intros Hs He Hc H1 H2 H3 st1 st2 Hf1 Hf2 Hn1 Hn2.
  unfold st1, st2.
  rewrite (reported_open_ports c1 n1 sched1 p H1 H2 H3 Hf1 Hn1).
  rewrite (reported_open_ports c2 n2 sched2 p) by (done || lia).
  rewrite Hs, He, Hc. done.
Qed.

Lemma X25_witness :
  (finished (run demo (round_robin 1 80) (init demo 1)) ∧
   finished (run demo_fast (round_robin 4 40) (init demo_fast 4))) ∧
  (80 ∈ reported (run demo (round_robin 1 80) (init demo 1)) ↔
   80 ∈ reported (run demo_fast (round_robin 4 40) (init demo_fast 4))).
Proof.
  assert (finished (run demo (round_robin 1 80) (init demo 1))) as Hf1
    by (apply (bool_decide_unpack _); vm_compute; exact I).
  assert (finished (run demo_fast (round_robin 4 40) (init demo_fast 4))) as Hf2
    by (apply (bool_decide_unpack _); vm_compute; exact I).
  assert (no_socket_failure (run demo (round_robin 1 80) (init demo 1))) as Hn1
    by (apply (bool_decide_unpack _); vm_compute; exact I).
  assert (no_socket_failure (run demo_fast (round_robin 4 40) (init demo_fast 4))) as Hn2
    by (apply (bool_decide_unpack _); vm_compute; exact I).
  split; [exact (conj Hf1 Hf2)|].
  exact (X25_only_connect_decides_what_is_reported demo demo_fast 1 4
           (round_robin 1 80) (round_robin 4 40) 80 eq_refl eq_refl (λ _, conj (λ H, H) (λ H, H))
           ltac:(vm_compute; discriminate) ltac:(vm_compute; discriminate)
           ltac:(vm_compute; discriminate) Hf1 Hf2 Hn1 Hn2).
Defined.



Lemma main_nonsense :
  main generous_host "scan" ["10.0.0.1"; "ninety"; "-7"; "many"; "--quick"] =
  Scan ("Scanning 10.0.0.1 (ports 0--7) with 1 threads, mode=full, timeout=200 ms..." +:+ NL)
       0 (-7) 1 1 200.
Proof. vm_compute. reflexivity. Qed.


Lemma socket_never_fails c sched st :
  (∀ opened calls, socket_ok c opened calls = true) →
  no_socket_failure st → no_socket_failure (run c sched st).
Proof.
  intros Hok. revert st. induction sched as [|t sched IH]; intros st Hn; [done|].
  change (run c (t :: sched) st) with (run c sched (step c t st)).
  apply IH. clear IH. unfold step.
  destruct (threads st !! t) as [th|] eqn:Ht; [|done].
  unfold no_socket_failure in *. simpl.
  unfold worker_step.
  destruct (at_pc th) eqn:Hpc;
    repeat first
      [ case_bool_decide
      | match goal with
        | |- context [match q_lock ?s with _ => _ end] => destruct (q_lock s) eqn:?
        | |- context [match print_lock ?s with _ => _ end] => destruct (print_lock s) eqn:?
        | |- context [match read_port ?a ?b with _ => _ end] => destruct (read_port a b) eqn:?
        | |- context [if socket_ok ?a ?b ?d then _ else _] => destruct (socket_ok a b d) eqn:Hs
        end ];
    simpl; try done; try (by constructor).
  by rewrite Hok in Hs.
Qed.

Lemma finished_no_sockets c st : inv c st → finished st → open_socks st = [].
Proof.
  intros Hinv Hf. destruct (open_socks st) as [|h l] eqn:Ho; [done|].
  destruct (inv_socks _ _ Hinv h) as (t & th & Ht & Hh & _); [rewrite Ho; left|].
  rewrite (proj1 (Forall_forall _ _) Hf th (list_elem_of_lookup_2 _ _ _ Ht)) in Hh.
  done.
Qed.

Lemma finished_buffer_empty c num_threads sched :
  range_ok c → finished (run c sched (init c num_threads)) →
  file_buf (run c sched (init c num_threads)) = "".
Proof.
  intros Hr Hf.
  destruct (run_sink c num_threads sched Hr) as (recs & k & r & Hs & _ & Hk).
  rewrite (sink_buf _ _ _ _ _ Hs).
  rewrite Hk; [done|].
  apply (finished_print_lock_free c); [by apply inv_run|done].
Qed.

Lemma main_demo_range :
  main good_host "scan" ["10.0.0.1"; "79"; "82"; "2"] =
  Scan ("Scanning 10.0.0.1 (ports 79-82) with 2 threads, mode=full, timeout=200 ms..." +:+ NL)
       79 82 2 1 200.
Proof. vm_compute. reflexivity. Qed.

(** X27.  From the command line to the log.  When [main] starts the workers
    on a range of valid ports, no [socket] call fails and the threads take
    their steps in turn, then after 4 * threads + 14 * ports rounds every
    worker has returned, both mutexes are free, no socket is open, the log
    is flushed, and the log names a port exactly when it is a port of the
    range on which [connect] returned 0, and names it once. *)
Theorem X27_command_line_to_log
    (h : host) (prog : string) (args : list string) (out : string) (s e n f tm : Z)
    (c : config) (rounds : nat) (p : Z) :
  main h prog args = Scan out s e n f tm →
  start c = s → end_ c = e → FULL_MODE c = f →
  1 ≤ s → s ≤ e → e ≤ 65535 →
  (∀ opened calls, socket_ok c opened calls = true) →
  (4 * Z.to_nat n + 14 * Z.to_nat (e - s + 1) ≤ rounds)%nat →
  let st := run c (round_robin (Z.to_nat n) rounds) (init c n) in
  finished st ∧ q_lock st = None ∧ print_lock st = None ∧ open_socks st = [] ∧
  file_buf st = "" ∧
  NoDup (reported st) ∧
  (p ∈ reported st ↔ s ≤ p ≤ e ∧ connect_result c p = 0).
Proof.
  intros Hm <- <- <- H1 H2 H3 Hok Hrounds st.
  pose proof Hm as (_ & _ & _ & Hn & _)%main_Scan.
  assert (clamp_threads n = n) as Hcl by (rewrite Hn; apply clamp_threads_idem).
  pose proof (port_range_ok c H1 H2 H3) as Hr.
  pose proof (inv_run c n (round_robin (Z.to_nat n) rounds) Hr) as Hinv. fold st in Hinv.
  assert (finished st) as Hf.
  { apply rounds_finish.
    - by apply inv_init.
    - by rewrite init_threads_length, Hcl.
    - rewrite (measure_init c n Hr), Hcl.
      rewrite wrap_int_id by (unfold INT_MIN, INT_MAX; lia). done. }
  assert (no_socket_failure st) as Hnf.
  { apply socket_never_fails; [done|]. constructor. }
  split; [done|].
  split; [by apply (finished_q_lock_free c)|].
  split; [by apply (finished_print_lock_free c)|].
  split; [by apply (finished_no_sockets c)|].
  split; [by apply finished_buffer_empty|].
  split; [by apply (reported_NoDup c)|].
  by apply reported_open_ports.
Qed.

Lemma X27_witness :
  main good_host "scan" ["10.0.0.1"; "79"; "82"; "2"] =
  Scan ("Scanning 10.0.0.1 (ports 79-82) with 2 threads, mode=full, timeout=200 ms..." +:+ NL)
       79 82 2 1 200 ∧
  (4 * Z.to_nat 2 + 14 * Z.to_nat (82 - 79 + 1) ≤ 64)%nat ∧
  80 ∈ reported (run demo (round_robin (Z.to_nat 2) 64) (init demo 2)).
Proof.
  assert (4 * Z.to_nat 2 + 14 * Z.to_nat (82 - 79 + 1) ≤ 64)%nat as Hb
    by (vm_compute; lia).
  split; [exact main_demo_range|]. split; [exact Hb|].
  destruct (X27_command_line_to_log good_host "scan" _ _ _ _ _ _ _ demo 64 80
              main_demo_range eq_refl eq_refl eq_refl
              ltac:(lia) ltac:(lia) ltac:(lia) (λ _ _, eq_refl) Hb)
    as (_ & _ & _ & _ & _ & _ & H).
  apply H. split; [lia|reflexivity].
Defined.
